(** * highlight-bot: the notification-triggering engine of [cogs/highlight.py]

    A shallow embedding of the [Highlight] cog and of [PositiveCounter].

    - Python integers are [Z]; identifiers (channel, user, message ids) are [Z].
    - Clock readings ([datetime.utcnow()], [message.created_at]) and durations
      (arguments of [asyncio.sleep]) are [Z], counted in seconds.
    - Text is ASCII: [str] is [string], a character is an [ascii].
    - [self.recently_spoken] is a finite map from (channel id, user id) to counts.
    - A coroutine is a tree of actions ([task]); [await asyncio.sleep] and the
      calls into the platform and the database are actions answered by an
      environment, so that one definition of each handler serves both the
      run of a single handler and the event loop that interleaves many.
    - Timers are exact: a coroutine that sleeps wakes at the time it is due.
    - The commands of the cog have a model of their own ([Commands]): what a
      command does is logged with the times, and the task that deletes the
      message of a command is a coroutine of its own.
    - [db_cog] and the platform client are not part of the module; what they
      answer is a parameter ([Env]), with the Trigger Store laid out as the
      specification describes it. *)

From Stdlib Require Import ZArith String Ascii List Lia Bool.
From stdpp Require Import base option list strings gmap.
Import ListNotations.
Local Open Scope Z_scope.

(** ** Exceptions *)

(** The exception classes the module mentions, with the subclasses of
    [discord.HTTPException] that a direct message or a lookup can raise, and
    one class standing for everything else (connection errors, [re.error]). *)
Inductive exn : Type :=
| HTTPException
| Forbidden
| NotFound
| KeyError
| OtherError.

(** [isinstance(e, discord.HTTPException)]: [Forbidden] and [NotFound] are
    subclasses of [HTTPException]. *)
Definition is_HTTPException (e : exn) : bool :=
  match e with
  | HTTPException | Forbidden | NotFound => true
  | KeyError | OtherError => false
  end.

Definition is_KeyError (e : exn) : bool :=
  match e with
  | KeyError => true
  | _ => false
  end.

(** The outcome of a call that may raise. *)
Definition result (A : Type) : Type := (exn + A)%type.

Definition Ok {A : Type} (a : A) : result A := inr a.
Definition Err {A : Type} (e : exn) : result A := inl e.

(** ** PositiveCounter *)

(** An activity key is [(channel.id, user.id)]. *)
Definition Key : Type := (Z * Z)%type.

Module PositiveCounter.

(** The underlying [dict] of the [collections.Counter]. *)
Abbreviation t := (gmap (Z * Z) Z).

(** [PositiveCounter()] *)
Definition empty : t := ∅.

(** [Counter.__missing__] answers 0, so [self[key]] never raises. *)
Definition getitem (key : Key) (c : t) : Z :=
  match c !! key with
  | Some count => count
  | None => 0
  end.

(** [key in self] *)
Definition contains (key : Key) (c : t) : bool :=
  match c !! key with
  | Some _ => true
  | None => false
  end.

(** [del self[key]] raises [KeyError] when the key is absent. *)
Definition delitem (key : Key) (c : t) : result t :=
  match c !! key with
  | Some _ => Ok (delete key c)
  | None => Err KeyError
  end.

(** [with contextlib.suppress(KeyError): del self[key]] *)
Definition suppress_KeyError (c : t) (r : result t) : result t :=
  match r with
  | inl e => if is_KeyError e then Ok c else Err e
  | inr c' => Ok c'
  end.

(** [PositiveCounter.__setitem__] *)
Definition setitem (key : Key) (count : Z) (c : t) : result t :=
  if 0 <? count then Ok (<[key := count]> c)
  else suppress_KeyError c (delitem key c).

(** [self[key] += 1] is [self[key] = self[key] + 1]. *)
Definition incr (key : Key) (c : t) : result t :=
  setitem key (getitem key c + 1) c.

(** [self[key] -= 1] is [self[key] = self[key] - 1]. *)
Definition decr (key : Key) (c : t) : result t :=
  setitem key (getitem key c - 1) c.

(** The two mutations the cog performs on its counter. *)
Inductive op : Type :=
| Incr (key : Key)
| Decr (key : Key).

Definition apply (o : op) (c : t) : result t :=
  match o with
  | Incr key => incr key c
  | Decr key => decr key c
  end.

(** A sequence of mutations, stopping at the first one that raises. *)
Fixpoint replay (ops : list op) (c : t) : result t :=
  match ops with
  | [] => Ok c
  | o :: ops' =>
      match apply o c with
      | inl e => Err e
      | inr c' => replay ops' c'
      end
  end.

(** Every stored count is strictly positive. *)
Definition positive (c : t) : Prop := map_Forall (fun _ count => 0 < count) c.

End PositiveCounter.

(** ** Regular expressions: the fragment of [re] that [build_re] produces *)

Module Re.

(** A pattern of the fragment is an alternation of sequences of literal
    characters and word-boundary assertions, under the global flag [(?i)]. *)
Inductive atom : Type :=
| Lit (c : ascii)
| WordBoundary.

Record regex : Type := {
  ignorecase : bool;
  alternatives : list (list atom)
}.

Definition code (c : ascii) : nat := nat_of_ascii c.

Definition is_upper (c : ascii) : bool := ((65 <=? code c) && (code c <=? 90))%nat.
Definition is_lower (c : ascii) : bool := ((97 <=? code c) && (code c <=? 122))%nat.
Definition is_digit (c : ascii) : bool := ((48 <=? code c) && (code c <=? 57))%nat.
Definition is_alnum (c : ascii) : bool := is_upper c || is_lower c || is_digit c.

(** [\w] on ASCII text: letters, digits and the underscore. *)
Definition is_word (c : ascii) : bool := is_alnum c || Ascii.eqb c "_"%char.

Definition lower (c : ascii) : ascii :=
  if is_upper c then ascii_of_nat (code c + 32) else c.

(** The characters [re.escape] puts a backslash before:
    [()[]{}?*+-|^$\.&~# \t\n\r\v\f]. *)
Definition special_chars : list ascii :=
  map ascii_of_nat
    [40; 41; 91; 93; 123; 125; 63; 42; 43; 45; 124; 94; 36; 92; 46; 38; 126;
     35; 32; 9; 10; 13; 11; 12]%nat.

Definition is_special (c : ascii) : bool :=
  existsb (Ascii.eqb c) special_chars.

(** [re.escape] *)
Fixpoint escape_chars (s : list ascii) : list ascii :=
  match s with
  | [] => []
  | c :: s' =>
      if is_special c then "\"%char :: c :: escape_chars s'
      else c :: escape_chars s'
  end.

Definition escape (s : string) : string :=
  string_of_list_ascii (escape_chars (list_ascii_of_string s)).

(** Characters that are operators when they stand unescaped in a pattern. *)
Definition is_meta (c : ascii) : bool :=
  existsb (Ascii.eqb c)
    (map ascii_of_nat [40; 41; 91; 93; 123; 125; 63; 42; 43; 94; 36; 46]%nat).

(** The body of a pattern. [\b] is the word boundary, a backslash before a
    character that is no letter or digit makes it a literal, [|] separates
    alternatives. Anything else that is not a plain character is outside
    the fragment ([None]). [cur] is the alternative read so far, reversed. *)
Fixpoint parse_body (p : list ascii) (cur : list atom) : option (list (list atom)) :=
  match p with
  | [] => Some [rev cur]
  | c :: p' =>
      if Ascii.eqb c "\"%char then
        match p' with
        | [] => None
        | e :: p'' =>
            if Ascii.eqb e "b"%char then parse_body p'' (WordBoundary :: cur)
            else if is_alnum e then None
            else parse_body p'' (Lit e :: cur)
        end
      else if Ascii.eqb c "|"%char then
        match parse_body p' [] with
        | Some alts => Some (rev cur :: alts)
        | None => None
        end
      else if is_meta c then None
      else parse_body p' (Lit c :: cur)
  end.

(** A pattern, with its optional leading [(?i)]. *)
Definition parse (pattern : string) : option regex :=
  match list_ascii_of_string pattern with
  | "("%char :: "?"%char :: "i"%char :: ")"%char :: body =>
      match parse_body body [] with
      | Some alts => Some {| ignorecase := true; alternatives := alts |}
      | None => None
      end
  | body =>
      match parse_body body [] with
      | Some alts => Some {| ignorecase := false; alternatives := alts |}
      | None => None
      end
  end.

Definition char_eq (ic : bool) (c x : ascii) : bool :=
  if ic then Ascii.eqb (lower c) (lower x) else Ascii.eqb c x.

Definition word_before (prev : option ascii) : bool :=
  match prev with
  | Some c => is_word c
  | None => false
  end.

Definition word_after (s : list ascii) : bool :=
  match s with
  | c :: _ => is_word c
  | [] => false
  end.

(** [\b] holds between [prev] and the head of [s] when exactly one of the
    two is a word character; the ends of the text count as non-word. *)
Definition at_boundary (prev : option ascii) (s : list ascii) : bool :=
  xorb (word_before prev) (word_after s).

(** Match one alternative at the current position; the text it consumed. *)
Fixpoint match_atoms (ic : bool) (atoms : list atom) (prev : option ascii)
    (s : list ascii) : option (list ascii) :=
  match atoms with
  | [] => Some []
  | WordBoundary :: atoms' =>
      if at_boundary prev s then match_atoms ic atoms' prev s else None
  | Lit c :: atoms' =>
      match s with
      | x :: s' =>
          if char_eq ic c x then
            match match_atoms ic atoms' (Some x) s' with
            | Some m => Some (x :: m)
            | None => None
            end
          else None
      | [] => None
      end
  end.

(** Alternatives are tried in the order they are written; the first one
    that matches at the position wins. *)
Fixpoint match_here (ic : bool) (alts : list (list atom)) (prev : option ascii)
    (s : list ascii) : option (list ascii) :=
  match alts with
  | [] => None
  | atoms :: alts' =>
      match match_atoms ic atoms prev s with
      | Some m => Some m
      | None => match_here ic alts' prev s
      end
  end.

(** The scan of [re.finditer]: leftmost match first, then on from its end;
    after an empty match the scan moves one character on. [skip] counts the
    characters of the last match still to be passed over. *)
Fixpoint scan (r : regex) (prev : option ascii) (s : list ascii) (skip : nat)
    : list (list ascii) :=
  match skip with
  | S skip' =>
      match s with
      | [] => []
      | c :: s' => scan r (Some c) s' skip'
      end
  | O =>
      match match_here (ignorecase r) (alternatives r) prev s with
      | Some m =>
          m :: match s with
               | [] => []
               | c :: s' => scan r (Some c) s' (Nat.pred (length m))
               end
      | None =>
          match s with
          | [] => []
          | c :: s' => scan r (Some c) s' O
          end
      end
  end.

(** [[match[0] for match in re.finditer(pattern, text)]]; [None] when the
    pattern is outside the fragment. *)
Definition finditer (pattern text : string) : option (list string) :=
  match parse pattern with
  | Some r => Some (map string_of_list_ascii (scan r None (list_ascii_of_string text) O))
  | None => None
  end.

(** The match starting exactly at offset [i] of [text], if any. *)
Fixpoint match_at (r : regex) (prev : option ascii) (s : list ascii) (i : nat)
    : option (list ascii) :=
  match i with
  | O => match_here (ignorecase r) (alternatives r) prev s
  | S i' =>
      match s with
      | [] => None
      | c :: s' => match_at r (Some c) s' i'
      end
  end.

(** The match starting at offset [i] of [text] under [pattern], if any. *)
Definition match_offset (pattern text : string) (i : nat) : option string :=
  match parse pattern with
  | Some r =>
      match match_at r None (list_ascii_of_string text) i with
      | Some m => Some (string_of_list_ascii m)
      | None => None
      end
  | None => None
  end.

(** A trigger read as literal text: one [Lit] for each of its characters. *)
Definition lits (s : string) : list atom := map Lit (list_ascii_of_string s).

(** The alternatives with a word boundary put after the last one only. *)
Fixpoint anchor_last (alts : list (list atom)) : list (list atom) :=
  match alts with
  | [] => []
  | a :: alts' =>
      match alts' with
      | [] => [a ++ [WordBoundary]]
      | _ :: _ => a :: anchor_last alts'
      end
  end.

End Re.

(** [Highlight.build_re] *)
Definition build_re (highlights : list string) : string :=
  let s := "(?i)\b"%string in
  let s := (s ++ String.concat "|" (map Re.escape highlights))%string in
  let s := (s ++ "\b")%string in
  s.

(** ** Constants *)

(** how many seconds after a user is active in a channel before they are no
    longer considered recently spoken *)
Definition LAST_SPOKEN_CUTOFF : Z := 10.

(** how many seconds to wait for new messages after a user has been highlighted *)
Definition NEW_MESSAGES_TIMEOUT : Z := 9.

(** ** Platform objects *)

(** [discord.User]; two user objects are equal when their ids are. *)
Record User : Type := {
  user_id : Z;
  user_name : string
}.

Definition user_eqb (u v : User) : bool := user_id u =? user_id v.

(** [discord.Message]; [guild] is [None] for a private message. *)
Record Message : Type := {
  message_id : Z;
  guild : option Z;
  channel : Z;
  author : User;
  content : string;
  created_at : Z
}.

(** One line of the context block, as [format_message] lays it out:
    the time, emphasised for the triggering message, the author, the text. *)
Record Line : Type := {
  line_date : Z;
  line_emphasis : bool;
  line_author : User;
  line_content : string
}.

(** The keyword arguments of [user.send]: the summary line names the
    channel, the guild and the highlight; the embed carries the title, the
    context lines with the link to the original message, the author and the
    timestamp. Rendering to text is left to the platform. *)
Record Notification : Type := {
  content_channel : Z;
  content_guild : option Z;
  content_highlight : string;
  embed_title : string;
  embed_lines : list Line;
  embed_jump : Z;
  embed_author : User;
  embed_timestamp : Z
}.

(** The multidict [channel_highlights] answers with: its items in order. *)
Definition MultiDict : Type := list (string * Z).

(** ** Coroutines *)

(** What a coroutine of the cog can ask of its surroundings. *)
Inductive action : Type :=
| utcnow                                  (* datetime.utcnow() *)
| sleep (delay : Z)                       (* await asyncio.sleep(delay) *)
| get_recently_spoken                     (* read self.recently_spoken *)
| set_recently_spoken (c : PositiveCounter.t)
| should_reply (m : Message)              (* self.bot.should_reply(message) *)
| channel_highlights (ch : Z)             (* await self.db_cog.channel_highlights(channel) *)
| blocks (user : Z)                       (* await self.db_cog.blocks(user) *)
| get_user (user : Z)                     (* self.bot.get_user(user) *)
| get_user_info (user : Z)                (* await self.bot.get_user_info(user) *)
| history (m : Message)                   (* channel.history(around=m, limit=8, reverse=True) *)
| send (u : User) (n : Notification)      (* await user.send(content, embed) *)
| set_of (keys : list string)             (* iterating over set(keys) *)
| yield_ (x : User * string).             (* yield user, highlight *)

Definition response (a : action) : Type :=
  match a with
  | utcnow => Z
  | sleep _ => unit
  | get_recently_spoken => PositiveCounter.t
  | set_recently_spoken _ => unit
  | should_reply _ => bool
  | channel_highlights _ => MultiDict
  | blocks _ => list Z
  | get_user _ => option User
  | get_user_info _ => result User
  | history _ => result (list Message)
  | send _ _ => result unit
  | set_of _ => list string
  | yield_ _ => unit
  end.

(** A coroutine (or an asynchronous generator): it returns, raises, or
    performs an action and goes on with the answer. *)
Inductive task (A : Type) : Type :=
| Ret (a : A)
| Raise (e : exn)
| Do (a : action) (k : response a -> task A).

Arguments Ret {A} a.
Arguments Raise {A} e.
Arguments Do {A} a k.

Fixpoint bind {A B : Type} (t : task A) (f : A -> task B) : task B :=
  match t with
  | Ret a => f a
  | Raise e => Raise e
  | Do a k => Do a (fun r => bind (k r) f)
  end.

#[export] Instance task_ret : MRet task := @Ret.
#[export] Instance task_bind : MBind task := fun A B f t => bind t f.

(** Perform one action and return its answer. *)
Definition call (a : action) : task (response a) := Do a Ret.

(** Perform a call that may raise, and raise what it raised. *)
Definition await {A : Type} (t : task (result A)) : task A :=
  r ← t;
  match r with
  | inl e => Raise e
  | inr a => Ret a
  end.

(** [with contextlib.suppress(...): body] *)
Fixpoint suppress (handled : exn -> bool) (body : task unit) : task unit :=
  match body with
  | Ret a => Ret a
  | Raise e => if handled e then Ret tt else Raise e
  | Do a k => Do a (fun r => suppress handled (k r))
  end.

(** The answer to give a [yield], when the action is one. *)
Definition yielding (a : action) : option ((User * string) * response a) :=
  match a with
  | yield_ x => Some (x, tt)
  | _ => None
  end.

(** [async for x in gen: body x] *)
Fixpoint async_for {A : Type} (gen : task A) (body : User * string -> task unit)
    : task A :=
  match gen with
  | Ret a => Ret a
  | Raise e => Raise e
  | Do a k =>
      match yielding a with
      | Some (x, r) => body x;; async_for (k r) body
      | None => Do a (fun r => async_for (k r) body)
      end
  end.

(** [for x in xs: s = body x s], with [s] the local variables the loop
    updates. *)
Fixpoint for_each {X S : Type} (xs : list X) (body : X -> S -> task S) (s : S)
    : task S :=
  match xs with
  | [] => Ret s
  | x :: xs' => s' ← body x s; for_each xs' body s'
  end.

(** ** The cog *)

(** [self.recently_spoken[info] += 1] *)
Definition spoken_incr (info : Key) : task unit :=
  c ← call get_recently_spoken;
  c' ← await (Ret (PositiveCounter.incr info c));
  call (set_recently_spoken c').

(** [self.recently_spoken[info] -= 1] *)
Definition spoken_decr (info : Key) : task unit :=
  c ← call get_recently_spoken;
  c' ← await (Ret (PositiveCounter.decr info c));
  call (set_recently_spoken c').

(** [Highlight._track_spoken] *)
Definition _track_spoken (info : Key) (delay : Z) : task unit :=
  spoken_incr info;;
  call (sleep delay);;
  spoken_decr info.

(** [Highlight.on_typing]; [when] is the time typing started. *)
Definition on_typing (channel : Z) (user : User) (when : Z) : task unit :=
  t ← call utcnow;
  let diff := t - when in
  if diff <? LAST_SPOKEN_CUTOFF then
    _track_spoken (channel, user_id user) (LAST_SPOKEN_CUTOFF - diff)
  else Ret tt.

(** Modelled from the spec: the multidict of [db_cog.channel_highlights],
    which is not under src/. The spec has it map normalized,
    case-insensitive trigger text to the users who registered it, so keys
    compare without regard to case. *)
Definition key_eqb (a b : string) : bool :=
  bool_decide (map Re.lower (list_ascii_of_string a)
               = map Re.lower (list_ascii_of_string b)).

(** [highlight_users.keys()] *)
Definition keys (d : MultiDict) : list string := map fst d.

(** [highlight_users.getall(key)]: every value stored under the key, in
    order; [KeyError] when there is none. *)
Definition getall (d : MultiDict) (key : string) : result (list Z) :=
  match map snd (List.filter (fun kv => key_eqb (fst kv) key) d) with
  | [] => Err KeyError
  | users => Ok users
  end.

(** [self.bot.get_user(user) or await self.bot.get_user_info(user)] *)
Definition resolve_user (user : Z) : task User :=
  cached ← call (get_user user);
  match cached with
  | Some u => Ret u
  | None => await (call (get_user_info user))
  end.

(** [re.finditer(regex, text)], with [re.error] for a pattern the model of
    [re] does not cover. *)
Definition re_finditer (regex text : string) : task (list string) :=
  match Re.finditer regex text with
  | Some ms => Ret ms
  | None => Raise OtherError
  end.

(** The body of the inner loop of [highlights]: one owner of one match. *)
Definition highlights_user (message : Message) (highlight : string) (user : Z)
    (seen_users : list User) : task (list User) :=
  blocked ← call (blocks (user_id (author message)));
  if bool_decide (user ∈ blocked) then Ret seen_users
  else
    user ← resolve_user user;
    if negb (existsb (user_eqb user) seen_users) && negb (user_eqb user (author message))
    then call (yield_ (user, highlight));; Ret (user :: seen_users)
    else Ret seen_users.

(** [Highlight.highlights], an asynchronous generator. *)
Definition highlights (message : Message) : task unit :=
  highlight_users ← call (channel_highlights (channel message));
  match highlight_users with
  | [] => Ret tt
  | _ =>
      triggers ← call (set_of (keys highlight_users));
      let regex := build_re triggers in
      let seen_users := [] in
      matches ← re_finditer regex (content message);
      for_each matches (fun highlight seen_users =>
        owners ← await (Ret (getall highlight_users highlight));
        for_each owners (highlights_user message highlight) seen_users)
        seen_users;;
      Ret tt
  end.

(** [Highlight.format_message] *)
Definition format_message (message : Message) (is_highlight : bool) : Line :=
  {| line_date := created_at message;
     line_emphasis := is_highlight;
     line_author := author message;
     line_content := content message |}.

(** [Highlight.embed_description]: the formatted lines; the link to the
    original message is added by [notification_message]. *)
Definition embed_description (message : Message) : task (list Line) :=
  let orig_message := message in
  around ← await (call (history message));
  Ret (map (fun message =>
              format_message message (message_id message =? message_id orig_message))
           around).

(** [Highlight.notification_message] *)
Definition notification_message (user : User) (highlight : string) (message : Message)
    : task Notification :=
  description ← embed_description message;
  Ret {| content_channel := channel message;
         content_guild := guild message;
         content_highlight := highlight;
         embed_title := highlight;
         embed_lines := description;
         embed_jump := message_id message;
         embed_author := author message;
         embed_timestamp := created_at message |}.

(** [Highlight.notify] *)
Definition notify (user : User) (highlight : string) (message : Message) : task unit :=
  t ← call utcnow;
  let diff := t - created_at message in
  (if diff <? NEW_MESSAGES_TIMEOUT then call (sleep (NEW_MESSAGES_TIMEOUT - diff))
   else Ret tt);;
  message ← notification_message user highlight message;
  suppress is_HTTPException (await (call (send user message))).

(** The body of the loop of [on_message]. *)
Definition on_message_body (message : Message) (x : User * string) : task unit :=
  let '(user, highlight) := x in
  spoken ← call get_recently_spoken;
  if negb (PositiveCounter.contains (channel message, user_id user) spoken)
  then notify user highlight message
  else Ret tt.

(** [Highlight.on_message] *)
Definition on_message (message : Message) : task unit :=
  match guild message with
  | None => Ret tt
  | Some _ =>
      reply ← call (should_reply message);
      if negb reply then Ret tt
      else
        async_for (highlights message) (on_message_body message);;
        _track_spoken (channel message, user_id (author message)) LAST_SPOKEN_CUTOFF
  end.

(** ** The surroundings of a coroutine *)

(** Modelled from the spec: the Trigger Store ([db_cog]), which is not under
    src/. [channel_highlights(channel)] answers the multimap from trigger
    text to user ids, already filtered for channel and category blocks. A
    block is a directed pair (blocker, blocked entity), as
    [db_cog.block(context.author.id, entity.id)] records it, and
    [blocks(userId)] answers the set of blocked entity ids of [userId]. *)
Record TriggerStore : Type := {
  highlights_table : Z -> MultiDict;
  blocks_table : list (Z * Z)
}.

(** Modelled from the spec: [db_cog.channel_highlights(channel)], the
    visible triggers of the channel with their owners. *)
Definition db_channel_highlights (db : TriggerStore) (ch : Z) : MultiDict :=
  highlights_table db ch.

(** Modelled from the spec: [db_cog.blocks(user)], the entities that [user]
    has blocked. *)
Definition db_blocks (db : TriggerStore) (user : Z) : list Z :=
  map snd (List.filter (fun b => fst b =? user) (blocks_table db)).

(** The answers of everything outside the cog. [set_order] is the order in
    which Python iterates over a set of strings. [others t t' c] is what the
    rest of the event loop has made of the counter [c] between the times [t]
    and [t'] while this coroutine was suspended. *)
Record Env : Type := {
  store : TriggerStore;
  bot_should_reply : Message -> bool;
  bot_get_user : Z -> option User;
  bot_get_user_info : Z -> result User;
  channel_history : Message -> result (list Message);
  user_send : User -> Notification -> result unit;
  set_order : list string -> list string;
  others : Z -> Z -> PositiveCounter.t -> PositiveCounter.t
}.

(** One attempted delivery: when, to whom, what. *)
Record Delivery : Type := {
  sent_at : Z;
  recipient : User;
  notification : Notification
}.

(** The state a coroutine runs in: the clock, the counter of the cog, and
    the traces of what it did to the outside. *)
Record World : Type := {
  now : Z;
  recently_spoken : PositiveCounter.t;
  outbox : list Delivery;
  yielded : list (User * string)
}.

Definition set_spoken (c : PositiveCounter.t) (w : World) : World :=
  {| now := now w; recently_spoken := c; outbox := outbox w; yielded := yielded w |}.

Definition log_delivery (u : User) (n : Notification) (w : World) : World :=
  {| now := now w; recently_spoken := recently_spoken w;
     outbox := outbox w ++ [{| sent_at := now w; recipient := u; notification := n |}];
     yielded := yielded w |}.

Definition log_yield (x : User * string) (w : World) : World :=
  {| now := now w; recently_spoken := recently_spoken w; outbox := outbox w;
     yielded := yielded w ++ [x] |}.

(** The answer to an action that does not suspend for a stretch of time.
    The database and the platform answer at once: no time passes and no other
    task runs during a call to them. (A [sleep] is answered by whoever runs
    the coroutine.) *)
Definition perform (env : Env) (a : action) (w : World) : World * response a :=
  match a return World * response a with
  | utcnow => (w, now w)
  | sleep _ => (w, tt)
  | get_recently_spoken => (w, recently_spoken w)
  | set_recently_spoken c => (set_spoken c w, tt)
  | should_reply m => (w, bot_should_reply env m)
  | channel_highlights ch => (w, db_channel_highlights (store env) ch)
  | blocks user => (w, db_blocks (store env) user)
  | get_user user => (w, bot_get_user env user)
  | get_user_info user => (w, bot_get_user_info env user)
  | history m => (w, channel_history env m)
  | send u n => (log_delivery u n w, user_send env u n)
  | set_of keys => (w, set_order env keys)
  | yield_ x => (log_yield x w, tt)
  end.

(** The delay of a [sleep], when the action is one. *)
Definition sleeping (a : action) : option (Z * response a) :=
  match a with
  | sleep delay => Some (delay, tt)
  | _ => None
  end.

(** The world a coroutine wakes up in after [asyncio.sleep(delay)]: the
    clock has moved on by the delay (not at all for a delay of 0 or less) and
    the other tasks have run. *)
Definition wake (env : Env) (delay : Z) (w : World) : World :=
  let t := now w + Z.max 0 delay in
  {| now := t;
     recently_spoken := others env (now w) t (recently_spoken w);
     outbox := outbox w;
     yielded := yielded w |}.

(** Run one coroutine to its end. *)
Fixpoint run {A : Type} (env : Env) (t : task A) (w : World) : World * result A :=
  match t with
  | Ret a => (w, Ok a)
  | Raise e => (w, Err e)
  | Do a k =>
      match sleeping a with
      | Some (delay, r) => run env (k r) (wake env delay w)
      | None => let '(w', r) := perform env a w in run env (k r) w'
      end
  end.

(** ** The event loop *)

(** Where a coroutine stands when it hands control back to the loop. *)
Inductive status (A : Type) : Type :=
| Finished (r : result A)
| Suspended (wake_at : Z) (k : task A).

Arguments Finished {A} r.
Arguments Suspended {A} wake_at k.

(** Run a coroutine up to its next [sleep]. *)
Fixpoint resume {A : Type} (env : Env) (t : task A) (w : World) : World * status A :=
  match t with
  | Ret a => (w, Finished (Ok a))
  | Raise e => (w, Finished (Err e))
  | Do a k =>
      match sleeping a with
      | Some (delay, r) => (w, Suspended (now w + Z.max 0 delay) (k r))
      | None => let '(w', r) := perform env a w in resume env (k r) w'
      end
  end.

(** The loop: the shared world and the sleeping coroutines with the times
    they are due. *)
Record Loop : Type := {
  world : World;
  timers : list (Z * task unit)
}.

(** Start a coroutine now; it runs up to its first [sleep]. An exception
    that escapes a task is dropped by the loop. *)
Definition spawn (env : Env) (t : task unit) (l : Loop) : Loop :=
  match resume env t (world l) with
  | (w, Finished _) => {| world := w; timers := timers l |}
  | (w, Suspended wake_at k) => {| world := w; timers := timers l ++ [(wake_at, k)] |}
  end.

(** The timer due first, and the others; among equals the one set first. *)
Fixpoint pop_earliest {T : Type} (q : list (Z * T))
    : option ((Z * T) * list (Z * T)) :=
  match q with
  | [] => None
  | x :: q' =>
      match pop_earliest q' with
      | None => Some (x, [])
      | Some (y, rest) =>
          if fst x <=? fst y then Some (x, q') else Some (y, x :: rest)
      end
  end.

Definition set_clock (t : Z) (w : World) : World :=
  {| now := Z.max (now w) t; recently_spoken := recently_spoken w;
     outbox := outbox w; yielded := yielded w |}.

(** Let time pass until [t]: wake every coroutine due by then, each at the
    time it is due, earliest first. [fuel] bounds the number of wake-ups;
    [None] when it does not suffice. *)
Fixpoint run_until (env : Env) (fuel : nat) (t : Z) (l : Loop) : option Loop :=
  match pop_earliest (timers l) with
  | Some ((wake_at, k), rest) =>
      if wake_at <=? t then
        match fuel with
        | O => None
        | S fuel' =>
            run_until env fuel' t
              (spawn env k {| world := set_clock wake_at (world l); timers := rest |})
        end
      else Some {| world := set_clock t (world l); timers := timers l |}
  | None => Some {| world := set_clock t (world l); timers := timers l |}
  end.

(** A request for a lease: at [lease_time], [_track_spoken(lease_key,
    delay=lease_delay)] is started. *)
Record Lease : Type := {
  lease_time : Z;
  lease_key : Key;
  lease_delay : Z
}.

(** Serve the requests in order, letting time pass up to each. *)
Fixpoint serve (env : Env) (fuel : nat) (reqs : list Lease) (l : Loop) : option Loop :=
  match reqs with
  | [] => Some l
  | r :: reqs' =>
      match run_until env fuel (lease_time r) l with
      | Some l' =>
          serve env fuel reqs' (spawn env (_track_spoken (lease_key r) (lease_delay r)) l')
      | None => None
      end
  end.

Definition idle (t0 : Z) : Loop :=
  {| world := {| now := t0; recently_spoken := PositiveCounter.empty;
                 outbox := []; yielded := [] |};
     timers := [] |}.

(** The requests issued by time [t]. *)
Definition issued_by (t : Z) (reqs : list Lease) : list Lease :=
  List.filter (fun r => lease_time r <=? t) reqs.

(** [isPresent(key)] at time [t], after the requests issued by then. *)
Definition is_present_at (env : Env) (fuel : nat) (t0 : Z) (reqs : list Lease)
    (key : Key) (t : Z) : option bool :=
  match serve env fuel (issued_by t reqs) (idle t0) with
  | Some l =>
      match run_until env fuel t l with
      | Some l' => Some (PositiveCounter.contains key (recently_spoken (world l')))
      | None => None
      end
  | None => None
  end.

(** [t] lies in the interval of the lease, [[lease_time, lease_time + lease_delay)]. *)
Definition covers (t : Z) (r : Lease) : Prop :=
  lease_time r <= t < lease_time r + lease_delay r.

(** ** Auxiliary notions the statements below are phrased with *)

(** The rest of [notify] once the settle window has passed: build the
    notification and attempt the delivery. *)
Definition deliver (user : User) (highlight : string) (message : Message) : task unit :=
  message ← notification_message user highlight message;
  suppress is_HTTPException (await (call (send user message))).

(** Every action a coroutine may perform, whatever the answers, satisfies [P]. *)
Inductive all_actions {A : Type} (P : action -> Prop) : task A -> Prop :=
| all_Ret (a : A) : all_actions P (Ret a)
| all_Raise (e : exn) : all_actions P (Raise e)
| all_Do (a : action) (k : response a -> task A) :
    P a -> (forall r, all_actions P (k r)) -> all_actions P (Do a k).

(** The actions of the generator [highlights]: questions to the database and
    the platform, and [yield]. *)
Definition is_lookup (a : action) : Prop :=
  match a with
  | channel_highlights _ | blocks _ | get_user _ | get_user_info _ | set_of _
  | yield_ _ => True
  | _ => False
  end.

(** The same surroundings, but every direct message is accepted. *)
Definition accepting (env : Env) : Env :=
  {| store := store env;
     bot_should_reply := bot_should_reply env;
     bot_get_user := bot_get_user env;
     bot_get_user_info := bot_get_user_info env;
     channel_history := channel_history env;
     user_send := fun _ _ => Ok tt;
     set_order := set_order env;
     others := others env |}.

(** The run of a coroutine is the same as if every direct message had been
    accepted. *)
Definition unaffected_by_rejections {A : Type} (env : Env) (t : task A) : Prop :=
  forall w, run env t w = run (accepting env) t w.

(** Every rejection of a direct message is a [discord.HTTPException]. *)
Definition send_fails_with_http (env : Env) : Prop :=
  forall u n e, user_send env u n = Err e -> is_HTTPException e = true.

(** [self.bot.get_user(o) or await self.bot.get_user_info(o)], as a function
    of the surroundings. *)
Definition resolved (env : Env) (o : Z) : result User :=
  match bot_get_user env o with
  | Some u => Ok u
  | None => bot_get_user_info env o
  end.

(** The user object an owner id contributes to a scan of [message], if it
    passes the filters of [highlights]: not listed by [blocks(author)],
    resolvable, and not the author. *)
Definition survivor (env : Env) (message : Message) (o : Z) : option User :=
  if bool_decide (o ∈ db_blocks (store env) (user_id (author message))) then None
  else
    match resolved env o with
    | inr u => if user_eqb u (author message) then None else Some u
    | inl _ => None
    end.

(** The owners [getall] lists for a matched text. *)
Definition owners (d : MultiDict) (highlight : string) : list Z :=
  match getall d highlight with
  | inr users => users
  | inl _ => []
  end.

(** [highlight] is the first match of the scan, left to right, with a
    surviving owner that is the user [u]. *)
Definition first_surviving_match (env : Env) (message : Message) (d : MultiDict)
    (matches : list string) (u : User) (highlight : string) : Prop :=
  exists pre post o,
    matches = pre ++ highlight :: post /\
    o ∈ owners d highlight /\
    survivor env message o = Some u /\
    forall h' o' u', h' ∈ pre -> o' ∈ owners d h' ->
      survivor env message o' = Some u' -> user_id u' <> user_id u.

(** The texts [re.finditer] reports for [message] in the surroundings [env]. *)
Definition scan_matches (env : Env) (message : Message) : option (list string) :=
  Re.finditer
    (build_re (set_order env (keys (db_channel_highlights (store env) (channel message)))))
    (content message).

(** A coroutine that hands control back to its caller at once. *)
Definition returns_immediately (env : Env) (t : task unit) (w : World) : Prop :=
  exists w', resume env t w = (w', Finished (Ok tt)).

(** The character just before offset [i] of a text, if there is one. *)
Definition char_before (text : list ascii) (i : nat) : option ascii :=
  match i with
  | O => None
  | S j => text !! j
  end.

(** The [n] characters at offset [i] of [text] are delimited by word
    boundaries on both sides. *)
Definition whole_word_at (text : list ascii) (i n : nat) : bool :=
  Re.at_boundary (char_before text i) (drop i text)
  && Re.at_boundary (char_before text (i + n)) (drop (i + n) text).

(** The timers of outstanding leases: each is due at a time and will
    decrement a key. *)
Definition lease_timers (pending : list (Z * Key)) : list (Z * task unit) :=
  map (fun p => (fst p, spoken_decr (snd p))) pending.

(** The number of outstanding leases on a key. *)
Definition outstanding (key : Key) (pending : list (Z * Key)) : Z :=
  Z.of_nat (length (List.filter (fun p => bool_decide (snd p = key)) pending)).

(** The counter counts the outstanding leases, and stores no zero. *)
Definition counts (c : PositiveCounter.t) (pending : list (Z * Key)) : Prop :=
  forall key,
    c !! key = if outstanding key pending =? 0 then None
               else Some (outstanding key pending).

(** Requests in the order they are issued, none before [t0]. *)
Fixpoint chronological (t0 : Z) (reqs : list Lease) : Prop :=
  match reqs with
  | [] => True
  | r :: reqs' => t0 <= lease_time r /\ chronological (lease_time r) reqs'
  end.

(** What [highlights] has yielded so far, [ys], when it has gone through the
    matches [pre] and, of the match it is at, through the owners [done]:
    the users of [ys] are those of [seen_users], no two of them share an id,
    each was yielded at the first match it survives, and every survivor met
    so far has been seen. *)
Definition scan_invariant (env : Env) (message : Message) (d : MultiDict)
    (matches pre : list string) (done : list Z) (seen_users : list User)
    (ys : list (User * string)) : Prop :=
  (forall i, i ∈ map user_id seen_users <-> i ∈ map (fun y => user_id (fst y)) ys) /\
  NoDup (map (fun y => user_id (fst y)) ys) /\
  (forall u h, (u, h) ∈ ys -> first_surviving_match env message d matches u h) /\
  (forall h' o' u', h' ∈ pre -> o' ∈ owners d h' ->
     survivor env message o' = Some u' -> user_id u' ∈ map user_id seen_users) /\
  (forall o' u', o' ∈ done ->
     survivor env message o' = Some u' -> user_id u' ∈ map user_id seen_users).

(** What holds of the yields of a scan, however it ends. *)
Definition scan_outcome (env : Env) (message : Message) (d : MultiDict)
    (matches : list string) (ys : list (User * string)) : Prop :=
  NoDup (map (fun y => user_id (fst y)) ys) /\
  forall u h, (u, h) ∈ ys -> first_surviving_match env message d matches u h.

(** While the lease on [key] is held, until [t_end], the key is in the
    counter; and no delivery to the user [a] that was not in [sent] already
    has been attempted before [t_end]. *)
Definition undisturbed (key : Key) (a : Z) (t_end : Z) (sent : list Delivery)
    (w : World) : Prop :=
  (now w < t_end -> PositiveCounter.contains key (recently_spoken w) = true) /\
  forall d, d ∈ outbox w -> user_id (recipient d) = a -> d ∈ sent \/ t_end <= sent_at d.

(** The other tasks of the loop leave the lease on [key] in place until
    [t_end]. *)
Definition lease_held_until (env : Env) (key : Key) (t_end : Z) : Prop :=
  forall t t' c, PositiveCounter.contains key c = true -> t' < t_end ->
    PositiveCounter.contains key (others env t t' c) = true.

(** The loop holds nothing but the timers of the outstanding leases
    [pending], and its counter counts them. *)
Definition tracks (l : Loop) (pending : list (Z * Key)) : Prop :=
  timers l = lease_timers pending /\
  counts (recently_spoken (world l)) pending.

(** The timer of a request issued on time. *)
Definition timer_of (r : Lease) : Z * Key :=
  (lease_time r + Z.max 0 (lease_delay r), lease_key r).

(** Whether [key] is in the counter of the loop [l] once time has passed
    until [t]. *)
Definition present_after (env : Env) (fuel : nat) (t : Z) (key : Key) (l : Loop)
    : option bool :=
  match run_until env fuel t l with
  | Some l' => Some (PositiveCounter.contains key (recently_spoken (world l')))
  | None => None
  end.

(** ** Sample surroundings *)

Module Sample.

Definition user (i : Z) : User := {| user_id := i; user_name := "" |}.

(** Channel 7 has the triggers the table lists; [blocked] lists the pairs
    (blocker, blocked entity). *)
Definition env_with_blocks (table : MultiDict) (blocked : list (Z * Z))
    (order : list string -> list string) : Env :=
  {| store := {| highlights_table := fun ch => if ch =? 7 then table else [];
                 blocks_table := blocked |};
     bot_should_reply := fun _ => true;
     bot_get_user := fun i => Some (user i);
     bot_get_user_info := fun _ => Err NotFound;
     channel_history := fun m => Ok [m];
     user_send := fun _ _ => Ok tt;
     set_order := order;
     others := fun _ _ c => c |}.

(** User 1 has blocked user 2. *)
Definition env (table : MultiDict) (order : list string -> list string) : Env :=
  env_with_blocks table [(1, 2)] order.

Definition cat_dog : MultiDict := [("cat"%string, 1); ("dog"%string, 3)].

(** The history of the channel cannot be fetched. *)
Definition no_history (e : Env) : Env :=
  {| store := store e;
     bot_should_reply := bot_should_reply e;
     bot_get_user := bot_get_user e;
     bot_get_user_info := bot_get_user_info e;
     channel_history := fun _ => Err HTTPException;
     user_send := user_send e;
     set_order := set_order e;
     others := others e |}.

(** The recipient does not accept direct messages. *)
Definition no_dms (e : Env) : Env :=
  {| store := store e;
     bot_should_reply := bot_should_reply e;
     bot_get_user := bot_get_user e;
     bot_get_user_info := bot_get_user_info e;
     channel_history := channel_history e;
     user_send := fun _ _ => Err Forbidden;
     set_order := set_order e;
     others := others e |}.

(** A message of user 2 in channel 7, posted at time 1000. *)
Definition message (text : string) : Message :=
  {| message_id := 100; guild := Some 1; channel := 7; author := user 2;
     content := text; created_at := 1000 |}.

(** A private message of user 2, in channel 9, posted at time 1000. *)
Definition private_message (text : string) : Message :=
  {| message_id := 101; guild := None; channel := 9; author := user 2;
     content := text; created_at := 1000 |}.

(** The world at time [t], with nobody recently spoken. *)
Definition at_time (t : Z) : World :=
  {| now := t; recently_spoken := PositiveCounter.empty; outbox := []; yielded := [] |}.

(** The world at time [t], with one lease outstanding on [key]. *)
Definition with_lease (t : Z) (key : Key) : World :=
  {| now := t; recently_spoken := {[ key := 1 ]}; outbox := []; yielded := [] |}.

End Sample.

(** ** Further notions *)

(** The key an operation on the counter is about. *)
Definition op_key (o : PositiveCounter.op) : Key :=
  match o with
  | PositiveCounter.Incr key => key
  | PositiveCounter.Decr key => key
  end.

(** Two texts that differ at most in the case of their letters. *)
Definition same_ignoring_case (a b : string) : Prop :=
  map Re.lower (list_ascii_of_string a) = map Re.lower (list_ascii_of_string b).

(** Two atoms of a case-insensitive pattern that match the same texts. *)
Definition same_atom (a b : Re.atom) : Prop :=
  match a, b with
  | Re.Lit c, Re.Lit c' => Re.lower c = Re.lower c'
  | Re.WordBoundary, Re.WordBoundary => True
  | _, _ => False
  end.

(** The characters an alternative spells out, its assertions left aside. *)
Fixpoint literals (atoms : list Re.atom) : list ascii :=
  match atoms with
  | [] => []
  | Re.Lit c :: atoms' => c :: literals atoms'
  | Re.WordBoundary :: atoms' => literals atoms'
  end.

(** The character before the end of the text [m] that starts after [prev]. *)
Definition last_char (prev : option ascii) (m : list ascii) : option ascii :=
  match last m with
  | Some c => Some c
  | None => prev
  end.

(** Two match results that agree up to the case of the letters. *)
Definition same_match (a b : option (list ascii)) : Prop :=
  match a, b with
  | Some m, Some m' => map Re.lower m = map Re.lower m'
  | None, None => True
  | _, _ => False
  end.

(** The result of the scan a delivery answers: whom it goes to, and the text
    its embed is titled with. *)
Definition job_of (d : Delivery) : User * string :=
  (recipient d, embed_title (notification d)).

(** The time a notification of [message] is delivered by a job dispatched at
    [t]: the end of the settle window, or [t] when that is later. *)
Definition delivery_time (message : Message) (t : Z) : Z :=
  Z.max t (created_at message + NEW_MESSAGES_TIMEOUT).

(** The other tasks of the loop leave the counter alone. *)
Definition alone (env : Env) : Prop :=
  forall t t' c, others env t t' c = c.

(** The user of a result of the scan is not in the channel, going by the
    counter [c]. *)
Definition absent (message : Message) (c : PositiveCounter.t) (y : User * string)
    : bool :=
  negb (PositiveCounter.contains (channel message, user_id (fst y)) c).

(** The notification quotes the messages [around], in their order, and
    emphasises those that have the id of [message]. *)
Definition quotes (n : Notification) (message : Message) (around : list Message)
    : Prop :=
  map line_content (embed_lines n) = map content around /\
  map line_author (embed_lines n) = map author around /\
  map line_date (embed_lines n) = map created_at around /\
  map line_emphasis (embed_lines n)
  = map (fun m => message_id m =? message_id message) around.

(** The notification is about [message]: it names its channel and guild,
    links to it, and carries its author and its time. *)
Definition about (n : Notification) (message : Message) : Prop :=
  content_channel n = channel message /\
  content_guild n = guild message /\
  embed_jump n = message_id message /\
  embed_author n = author message /\
  embed_timestamp n = created_at message.

(** What a coroutine makes of a delivery the platform answered with [r],
    when it absorbs [discord.HTTPException]. *)
Definition absorbed (r : result unit) : result unit :=
  match r with
  | inl e => if is_HTTPException e then Ok tt else Err e
  | inr _ => Ok tt
  end.

(** The world [notify] builds and sends its notification in: the one it was
    dispatched in, or the one it wakes up in at the end of the settle
    window. *)
Definition settled (env : Env) (message : Message) (w : World) : World :=
  if now w - created_at message <? NEW_MESSAGES_TIMEOUT
  then wake env (NEW_MESSAGES_TIMEOUT - (now w - created_at message)) w
  else w.

(** The world with further yields in its trace. *)
Definition with_yields (w : World) (ys : list (User * string)) : World :=
  {| now := now w; recently_spoken := recently_spoken w; outbox := outbox w;
     yielded := yielded w ++ ys |}.

(** Iterating over a set of strings gives strings of the set, and some
    when the set is not empty. *)
Definition iterates_the_set (env : Env) : Prop :=
  forall ks, (forall k, k ∈ set_order env ks -> k ∈ ks) /\
             (ks <> [] -> set_order env ks <> []).

(** ** The counter over time *)

(** The counter at time [t], after the requests issued by then. *)
Definition counter_at (env : Env) (fuel : nat) (t0 : Z) (reqs : list Lease) (t : Z)
    : option PositiveCounter.t :=
  match serve env fuel (issued_by t reqs) (idle t0) with
  | Some l =>
      match run_until env fuel t l with
      | Some l' => Some (recently_spoken (world l'))
      | None => None
      end
  | None => None
  end.

(** The lease is on [key] and [t] lies in its interval. *)
Definition in_force_at (key : Key) (t : Z) (r : Lease) : bool :=
  bool_decide (lease_key r = key)
  && (lease_time r <=? t) && (t <? lease_time r + lease_delay r).

(** The number of leases on [key] in force at time [t]. *)
Definition in_force (key : Key) (t : Z) (reqs : list Lease) : Z :=
  Z.of_nat (length (List.filter (in_force_at key t) reqs)).

(** The number of timers a predicate holds of. *)
Definition how_many {T : Type} (f : T -> bool) (q : list T) : Z :=
  Z.of_nat (length (List.filter f q)).

(** * The commands *)

Module Commands.

(** What a command can raise: [commands.UserInputError] (or a subclass),
    [asyncio.TimeoutError], and whatever the platform or Python raises
    ([AttributeError] is among the [OtherError]). *)
Inductive error : Type :=
| UserInputError
| TimeoutError
| Platform (e : exn).

Definition is_UserInputError (e : error) : bool :=
  match e with
  | UserInputError => true
  | _ => false
  end.

Definition is_TimeoutError (e : error) : bool :=
  match e with
  | TimeoutError => true
  | _ => false
  end.

(** [discord.HTTPException] and its subclasses. *)
Definition is_HTTP (e : error) : bool :=
  match e with
  | Platform e' => is_HTTPException e'
  | _ => false
  end.

Definition outcome (A : Type) : Type := (error + A)%type.

Definition Fine {A : Type} (a : A) : outcome A := inr a.
Definition Failed {A : Type} (e : error) : outcome A := inl e.

(** [commands.Context]: its author, channel and guild are those of the
    message that invoked the command. *)
Definition Context : Type := Message.

(** What the commands send to the channel. Rendering to text is left to
    the platform. *)
Inductive Reply : Type :=
| NoHighlights
    (* 'You do not have any highlight words or phrases set up.' *)
| Triggers (author_name : string) (value : string) (footer : nat) (delete_after : Z)
    (* the embed of [show]: author, the field 'Triggers', '<n> triggers' *)
| ConfirmPrompt (phrase : string)
    (* 'Are you sure you want to delete your account? To confirm, please say
       <phrase> exactly.' *)
| NotInTime
    (* 'Confirmation phrase not received in time. Please try again.' *)
| AccountDeleted (mention : User).
    (* '<mention> I have deleted your account successfully.' *)

(** Modelled from the spec: the operations of the Trigger Store ([db_cog],
    not under src/) that change it, with the arguments the commands pass.
    The spec has them fail with a user-input error for an invalid, duplicate
    or over-quota trigger or an unknown source, and succeed otherwise. *)
Inductive db_call : Type :=
| db_add (guild user : Z) (highlight : string)
| db_remove (guild user : Z) (highlight : string)
| db_block (user entity : Z)
| db_unblock (user entity : Z)
| db_clear (guild user : Z)
| db_import (source_guild target_guild user : Z)
| db_delete_account (user : Z).

(** A coroutine over the actions [Act]. *)
Inductive prog {Act : Type} (Resp : Act -> Type) (A : Type) : Type :=
| Return (a : A)
| Throw (e : error)
| Call (a : Act) (k : Resp a -> prog Resp A).

Arguments Return {Act Resp A} a.
Arguments Throw {Act Resp A} e.
Arguments Call {Act Resp A} a k.

Fixpoint bind {Act : Type} {Resp : Act -> Type} {A B : Type}
    (p : prog Resp A) (f : A -> prog Resp B) : prog Resp B :=
  match p with
  | Return a => f a
  | Throw e => Throw e
  | Call a k => Call a (fun r => bind (k r) f)
  end.

#[export] Instance prog_ret {Act : Type} (Resp : Act -> Type) : MRet (prog Resp) :=
  fun A a => Return a.
#[export] Instance prog_bind {Act : Type} (Resp : Act -> Type) : MBind (prog Resp) :=
  fun A B f p => bind p f.

(** Perform a call that may raise, and raise what it raised. *)
Definition await {Act : Type} {Resp : Act -> Type} {A : Type}
    (p : prog Resp (outcome A)) : prog Resp A :=
  r ← p;
  match r with
  | inl e => Throw e
  | inr a => Return a
  end.

(** [with contextlib.suppress(...): body] *)
Fixpoint suppress {Act : Type} {Resp : Act -> Type} (handled : error -> bool)
    (body : prog Resp unit) : prog Resp unit :=
  match body with
  | Return a => Return a
  | Throw e => if handled e then Return tt else Throw e
  | Call a k => Call a (fun r => suppress handled (k r))
  end.

(** [try: body / except <handled> as e: handler e / else: orelse] *)
Fixpoint try_except_else {Act : Type} {Resp : Act -> Type} {A B : Type}
    (body : prog Resp A) (handled : error -> bool)
    (handler : error -> prog Resp B) (orelse : A -> prog Resp B) : prog Resp B :=
  match body with
  | Return a => orelse a
  | Throw e => if handled e then handler e else Throw e
  | Call a k => Call a (fun r => try_except_else (k r) handled handler orelse)
  end.

(** ** The task that deletes a message *)

Inductive job_action : Type :=
| asyncio_sleep (delay : Z)        (* await asyncio.sleep(delay) *)
| message_delete (m : Message).    (* await message.delete() *)

Definition job_response (a : job_action) : Type :=
  match a with
  | asyncio_sleep _ => unit
  | message_delete _ => outcome unit
  end.

Abbreviation job := (prog job_response unit).

(** Perform one action of a task and return its answer. *)
Definition step (a : job_action) : prog job_response (job_response a) :=
  Call a Return.

(** The coroutine [delete_after] of [Highlight.delete_later]. *)
Definition delete_after (message : Message) (delay : Z) : job :=
  step (asyncio_sleep delay);;
  suppress is_HTTP (await (step (message_delete message))).

(** ** The commands *)

Inductive action : Type :=
| create_task (coro : job)                       (* self.bot.loop.create_task(coro) *)
| user_highlights (guild user : Z)               (* await self.db_cog.user_highlights(..) *)
| db_cog (c : db_call)                           (* await self.db_cog.<c> *)
| send (context : Context) (reply : Reply)       (* await context.send(..) *)
| try_add_reaction (context : Context) (success : bool)
    (* await context.try_add_reaction(utils.SUCCESS_EMOJIS[success]) *)
| wait_for (check : Message -> bool) (timeout : Z).
    (* await self.bot.wait_for('message', check=check, timeout=timeout) *)

Definition response (a : action) : Type :=
  match a with
  | create_task _ => unit
  | user_highlights _ _ => outcome (list string)
  | db_cog _ => outcome unit
  | send _ _ => outcome unit
  | try_add_reaction _ _ => outcome unit
  | wait_for _ _ => outcome Message
  end.

Abbreviation coroutine := (prog response).

(** Perform one action and return its answer. *)
Definition perform (a : action) : coroutine (response a) := Call a Return.

(** [Highlight.delete_later]; the callers leave [delay] at its default, 5. *)
Definition delete_later (message : Message) (delay : Z) : coroutine unit :=
  perform (create_task (delete_after message delay)).

(** [context.guild.id]; without a guild, [AttributeError]. *)
Definition guild_id (context : Context) : coroutine Z :=
  match guild context with
  | Some g => Return g
  | None => Throw (Platform OtherError)
  end.

(** ['\n'.join(highlights)] *)
Definition join_lines (lines : list string) : string :=
  String.concat (String (ascii_of_nat 10) EmptyString) lines.

(** [Highlight.show] *)
Definition show (context : Context) : coroutine unit :=
  delete_later context 5;;
  g ← guild_id context;
  highlights ← await (perform (user_highlights g (user_id (author context))));
  match highlights with
  | [] => await (perform (send context NoHighlights))
  | _ =>
      await (perform (send context
        (Triggers (user_name (author context)) (join_lines highlights)
           (length highlights) 15)))
  end.

(** [Highlight.add] *)
Definition add (context : Context) (highlight : string) : coroutine unit :=
  delete_later context 5;;
  try_except_else
    (g ← guild_id context;
     await (perform (db_cog (db_add g (user_id (author context)) highlight))))
    is_UserInputError
    (fun e => await (perform (try_add_reaction context false));; Throw e)
    (fun _ => await (perform (try_add_reaction context true))).

(** [Highlight.remove] *)
Definition remove (context : Context) (highlight : string) : coroutine unit :=
  delete_later context 5;;
  g ← guild_id context;
  await (perform (db_cog (db_remove g (user_id (author context)) highlight)));;
  await (perform (try_add_reaction context true)).

(** [Highlight.block]; [entity] is the id of the member, channel or
    category. *)
Definition block (context : Context) (entity : Z) : coroutine unit :=
  delete_later context 5;;
  await (perform (db_cog (db_block (user_id (author context)) entity)));;
  await (perform (try_add_reaction context true)).

(** [Highlight.unblock] *)
Definition unblock (context : Context) (entity : Z) : coroutine unit :=
  delete_later context 5;;
  await (perform (db_cog (db_unblock (user_id (author context)) entity)));;
  await (perform (try_add_reaction context true)).

(** [Highlight.clear] *)
Definition clear (context : Context) : coroutine unit :=
  delete_later context 5;;
  g ← guild_id context;
  await (perform (db_cog (db_clear g (user_id (author context)))));;
  await (perform (try_add_reaction context true)).

(** [Highlight.import_] *)
Definition import_ (context : Context) (server : Z) : coroutine unit :=
  delete_later context 5;;
  try_except_else
    (g ← guild_id context;
     await (perform (db_cog (db_import server g (user_id (author context))))))
    is_UserInputError
    (fun e => await (perform (try_add_reaction context false));; Throw e)
    (fun _ => await (perform (try_add_reaction context true))).

(** The [check] of [Highlight.confirm]. *)
Definition check (context : Context) (required_phrase : string) (message : Message)
    : bool :=
  user_eqb (author message) (author context)
  && (channel message =? channel context)
  && bool_decide (content message = required_phrase).

(** [Highlight.confirm] *)
Definition confirm (context : Context) (prompt : Reply) (required_phrase : string)
    (timeout : Z) : coroutine bool :=
  await (perform (send context prompt));;
  try_except_else
    (await (perform (wait_for (check context required_phrase) timeout)))
    is_TimeoutError
    (fun _ => await (perform (send context NotInTime));; Return false)
    (fun _ => Return true).

Definition confirmation_phrase : string := "Yes, delete my account.".

(** [Highlight.delete_my_account] *)
Definition delete_my_account (context : Context) : coroutine unit :=
  let prompt := ConfirmPrompt confirmation_phrase in
  confirmed ← confirm context prompt confirmation_phrase 30;
  if negb confirmed then Return tt
  else
    await (perform (db_cog (db_delete_account (user_id (author context)))));;
    await (perform (send context (AccountDeleted (author context)))).

(** [guild_only_command(...)(func)], that is
    [commands.guild_only()(commands.command(...))(func)]: the check of
    [commands.guild_only()] is put on the decorator that
    [commands.command(...)] returns, not on a command or on [func], and that
    decorator is handed back as it is. The command it then makes of [func]
    has no check: its callback runs wherever the command is invoked, in a
    private message too. *)
Definition guild_only_command (callback : Context -> coroutine unit)
    (context : Context) : coroutine unit :=
  callback context.

(** The commands of the cog, with their arguments. *)
Inductive command : Type :=
| Show
| Add (highlight : string)
| Remove (highlight : string)
| Block (entity : Z)
| Unblock (entity : Z)
| Clear
| Import (server : Z)
| DeleteMyAccount.

(** What the bot runs for a command, as the decorators of the cog set it
    up. *)
Definition invoke (c : command) : Context -> coroutine unit :=
  match c with
  | Show => guild_only_command show
  | Add highlight => guild_only_command (fun context => add context highlight)
  | Remove highlight => guild_only_command (fun context => remove context highlight)
  | Block entity => guild_only_command (fun context => block context entity)
  | Unblock entity => guild_only_command (fun context => unblock context entity)
  | Clear => guild_only_command clear
  | Import server => guild_only_command (fun context => import_ context server)
  | DeleteMyAccount => delete_my_account
  end.

(** ** The surroundings of a command *)

(** Modelled from the spec: the answers of the Trigger Store, which returns
    or raises. With them, the answers of the platform and of
    [context.try_add_reaction], which is not under src/ either and is taken
    as a call that returns or raises; and the messages that come in, each
    with the time it arrives, in the order of their times. *)
Record Env : Type := {
  store_user_highlights : Z -> Z -> outcome (list string);
  store : db_call -> outcome unit;
  context_send : Context -> Reply -> outcome unit;
  context_try_add_reaction : Context -> bool -> outcome unit;
  delete_message : Message -> outcome unit;
  incoming : list (Z * Message)
}.

(** The clock, and what the command has done so far, with the times. *)
Record World : Type := {
  now : Z;
  trace : list (Z * action)
}.

Definition log (a : action) (w : World) : World :=
  {| now := now w; trace := trace w ++ [(now w, a)] |}.

(** The first message that passes [check] among those that arrive from
    [since] on and before [until]. *)
Definition first_passing (check : Message -> bool) (since until : Z)
    (messages : list (Z * Message)) : option (Z * Message) :=
  List.find (fun m => (since <=? fst m) && (fst m <? until) && check (snd m)) messages.

(** The answer to an action. The store and the platform answer at once;
    [wait_for] returns when a message passes the check, or raises
    [asyncio.TimeoutError] once [timeout] seconds have passed. *)
Definition answer (env : Env) (a : action) (w : World) : World * response a :=
  match a return World * response a with
  | create_task coro => (log (create_task coro) w, tt)
  | user_highlights g u => (log (user_highlights g u) w, store_user_highlights env g u)
  | db_cog c => (log (db_cog c) w, store env c)
  | send context reply => (log (send context reply) w, context_send env context reply)
  | try_add_reaction context b =>
      (log (try_add_reaction context b) w, context_try_add_reaction env context b)
  | wait_for check timeout =>
      let w' := log (wait_for check timeout) w in
      match first_passing check (now w) (now w + Z.max 0 timeout) (incoming env) with
      | Some (t, m) => ({| now := t; trace := trace w' |}, Fine m)
      | None => ({| now := now w + Z.max 0 timeout; trace := trace w' |},
                 Failed TimeoutError)
      end
  end.

(** Run a command to its end. *)
Fixpoint run {A : Type} (env : Env) (p : coroutine A) (w : World) : World * outcome A :=
  match p with
  | Return a => (w, Fine a)
  | Throw e => (w, Failed e)
  | Call a k => let '(w', r) := answer env a w in run env (k r) w'
  end.

(** Run a task of the loop that was created at time [t]: the time it
    ends, the deletions it has attempted, and how it ends. *)
Fixpoint run_job {A : Type} (env : Env) (p : prog job_response A) (t : Z)
    : Z * list (Z * Message) * outcome A :=
  match p with
  | Return a => (t, [], Fine a)
  | Throw e => (t, [], Failed e)
  | Call a k =>
      match a return (job_response a -> prog job_response A) -> _ with
      | asyncio_sleep delay => fun k => run_job env (k tt) (t + Z.max 0 delay)
      | message_delete m => fun k =>
          let '(t', ds, r) := run_job env (k (delete_message env m)) t in
          (t', (t, m) :: ds, r)
      end k
  end.

(** What a task makes of a deletion the platform answered with [r], when
    it absorbs [discord.HTTPException]. *)
Definition absorbed (r : outcome unit) : outcome unit :=
  match r with
  | inl e => if is_HTTP e then Fine tt else Failed e
  | inr _ => Fine tt
  end.

(** The commands that change the store and react to the outcome. *)
Definition changes_store (c : command) : bool :=
  match c with
  | Show | DeleteMyAccount => false
  | _ => true
  end.

(** The call into the store such a command has to make: [block] and
    [unblock] name the author and the entity; the others name the guild as
    well, and have no call to make where there is none. *)
Definition store_call (c : command) (context : Context) : option db_call :=
  match c with
  | Show => None
  | Add highlight =>
      g ← guild context; Some (db_add g (user_id (author context)) highlight)
  | Remove highlight =>
      g ← guild context; Some (db_remove g (user_id (author context)) highlight)
  | Block entity => Some (db_block (user_id (author context)) entity)
  | Unblock entity => Some (db_unblock (user_id (author context)) entity)
  | Clear => g ← guild context; Some (db_clear g (user_id (author context)))
  | Import server =>
      g ← guild context; Some (db_import server g (user_id (author context)))
  | DeleteMyAccount => None
  end.

(** The action is a reaction. *)
Definition is_reaction (a : action) : bool :=
  match a with
  | try_add_reaction _ _ => true
  | _ => false
  end.

(** The commands that answer a user-input error with the failure emoji. *)
Definition reports_failure (c : command) : bool :=
  match c with
  | Add _ | Import _ => true
  | _ => false
  end.

(** The actions of a trace. *)
Definition actions (tr : list (Z * action)) : list action := map snd tr.

(** The action is a call into the store that changes it. *)
Definition is_db_call (a : action) : bool :=
  match a with
  | db_cog _ => true
  | _ => false
  end.

(** The action sends something to the channel. *)
Definition is_send (a : action) : bool :=
  match a with
  | send _ _ => true
  | _ => false
  end.

(** The reaction a command adds after the store has answered [r]. *)
Definition reaction (c : command) (context : Context) (r : outcome unit)
    : list action :=
  match r with
  | inr _ => [try_add_reaction context true]
  | inl e =>
      if reports_failure c && is_UserInputError e
      then [try_add_reaction context false]
      else []
  end.

(** Sample surroundings: the store refuses the empty trigger and accepts
    everything else, the platform accepts what is sent, and the message to
    delete is gone already. *)
Definition sample_env (messages : list (Z * Message)) : Env :=
  {| store_user_highlights := fun _ _ => Fine ["cat"%string; "dog"%string];
     store := fun c =>
       match c with
       | db_add _ _ EmptyString => Failed UserInputError
       | _ => Fine tt
       end;
     context_send := fun _ _ => Fine tt;
     context_try_add_reaction := fun _ _ => Fine tt;
     delete_message := fun _ => Failed (Platform NotFound);
     incoming := messages |}.

(** The world at time [t], with nothing done yet. *)
Definition at_time (t : Z) : World := {| now := t; trace := [] |}.

(** The message arrives in time to confirm, and is the confirmation: from
    the author of the command, in its channel, with exactly the phrase. *)
Definition confirms (context : Message) (phrase : string) (since timeout : Z)
    (m : Z * Message) : Prop :=
  since <= fst m < since + timeout /\
  user_id (author (snd m)) = user_id (author context) /\
  channel (snd m) = channel context /\
  content (snd m) = phrase.

End Commands.

(** * Properties *)

(** ** The counter *)

Section Counter.
Import PositiveCounter.

Lemma setitem_spec (key : Key) (count : Z) (c : gmap (Z * Z) Z) :
  setitem key count c
  = Ok (if 0 <? count then <[key := count]> c else delete key c).
Proof.
  unfold setitem, delitem.
  destruct (0 <? count); [reflexivity |].
  destruct (c !! key) eqn:E; simpl; [reflexivity |].
  unfold Ok. f_equal. symmetry. by apply delete_id.
Qed.

Lemma setitem_positive (key : Key) (count : Z) (c c' : gmap (Z * Z) Z) :
  positive c -> setitem key count c = Ok c' -> positive c'.
Proof.
  intros Hc. rewrite setitem_spec. intros [= <-].
  destruct (0 <? count) eqn:E.
  - apply map_Forall_insert_2; [lia | exact Hc].
  - by apply map_Forall_delete.
Qed.

Lemma apply_positive (o : op) (c : gmap (Z * Z) Z) :
  positive c -> exists c', apply o c = Ok c' /\ positive c'.
Proof.
  intros Hc. destruct o as [key | key]; simpl; unfold incr, decr;
    rewrite setitem_spec; eexists; (split; [reflexivity |]);
    eapply setitem_positive; eauto using setitem_spec.
Qed.

Lemma replay_positive (ops : list op) (c : gmap (Z * Z) Z) :
  positive c -> exists c', replay ops c = Ok c' /\ positive c'.
Proof.
  revert c. induction ops as [| o ops IH]; intros c Hc; simpl.
  - eauto.
  - destruct (apply_positive o c Hc) as (c1 & -> & Hc1). unfold Ok. eauto.
Qed.

Lemma decr_absent (key : Key) (c : gmap (Z * Z) Z) :
  c !! key = None -> decr key c = Ok c.
Proof.
  intros E. unfold decr, getitem. rewrite setitem_spec, E. simpl.
  unfold Ok. f_equal. by apply delete_id.
Qed.

Lemma decr_last (key : Key) (c : gmap (Z * Z) Z) :
  c !! key = Some 1 -> decr key c = Ok (delete key c).
Proof.
  intros E. unfold decr, getitem. by rewrite setitem_spec, E.
Qed.

Lemma contains_true (key : Key) (c : gmap (Z * Z) Z) :
  contains key c = true <-> is_Some (c !! key).
Proof.
  unfold contains. destruct (c !! key) as [n |].
  - split; [intros _; by exists n | reflexivity].
  - split; [discriminate | intros [n H]; discriminate].
Qed.

End Counter.

Lemma incr_then_decr (key : Key) (c : gmap (Z * Z) Z) :
  PositiveCounter.positive c ->
  exists c1,
    PositiveCounter.incr key c = Ok c1 /\
    PositiveCounter.contains key c1 = true /\
    PositiveCounter.decr key c1 = Ok c.
Proof.
  intros Hpos. unfold PositiveCounter.incr, PositiveCounter.decr.
  rewrite setitem_spec. eexists. split; [reflexivity |].
  assert (Hn : 0 <= PositiveCounter.getitem key c).
  { unfold PositiveCounter.getitem. destruct (c !! key) as [n |] eqn:E; [| lia].
    specialize (Hpos key n E). simpl in Hpos. lia. }
  destruct (0 <? PositiveCounter.getitem key c + 1) eqn:E1; [| lia].
  split.
  { unfold PositiveCounter.contains. by rewrite lookup_insert_eq. }
  rewrite setitem_spec. unfold Ok. f_equal.
  assert (Eg : PositiveCounter.getitem key
                 (<[key := PositiveCounter.getitem key c + 1]> c)
               = PositiveCounter.getitem key c + 1).
  { unfold PositiveCounter.getitem at 1. by rewrite lookup_insert_eq. }
  rewrite Eg.
  replace (PositiveCounter.getitem key c + 1 - 1) with (PositiveCounter.getitem key c)
    by lia.
  unfold PositiveCounter.getitem in *.
  destruct (c !! key) as [n |] eqn:E.
  - specialize (Hpos key n E). simpl in Hpos.
    destruct (0 <? n) eqn:E2; [| lia].
    rewrite insert_insert_eq. by apply insert_id.
  - simpl. rewrite delete_insert_eq. by apply delete_id.
Qed.

(** C5. Whatever increments and decrements the counter has gone through
    since it was created, none of them raised, every stored count is
    strictly positive, decrementing a key that is absent changes nothing and
    raises nothing, and decrementing a count of 1 removes the key. *)
Theorem counter_keeps_only_positive_counts (ops : list PositiveCounter.op) :
  exists c,
    PositiveCounter.replay ops PositiveCounter.empty = Ok c /\
    PositiveCounter.positive c /\
    (forall key, c !! key = None -> PositiveCounter.decr key c = Ok c) /\
    (forall key, c !! key = Some 1 ->
       exists c', PositiveCounter.decr key c = Ok c' /\ c' !! key = None).
Proof.
  destruct (replay_positive ops PositiveCounter.empty) as (c & Hr & Hc).
  { apply map_Forall_empty. }
  exists c. split; [exact Hr |]. split; [exact Hc |]. split.
  - intros key. apply decr_absent.
  - intros key E. exists (delete key c). split.
    + by apply decr_last.
    + apply lookup_delete_eq.
Qed.

Lemma counter_keeps_only_positive_counts_witness :
  exists c,
    PositiveCounter.replay
      [PositiveCounter.Incr (7, 2); PositiveCounter.Incr (7, 2);
       PositiveCounter.Decr (7, 3); PositiveCounter.Decr (7, 2)]
      PositiveCounter.empty = Ok c /\
    c !! (7, 2) = Some 1 /\ c !! (7, 3) = None /\
    PositiveCounter.decr (7, 3) c = Ok c /\
    (exists c', PositiveCounter.decr (7, 2) c = Ok c' /\ c' !! (7, 2) = None).
Proof.
  destruct (counter_keeps_only_positive_counts
              [PositiveCounter.Incr (7, 2); PositiveCounter.Incr (7, 2);
               PositiveCounter.Decr (7, 3); PositiveCounter.Decr (7, 2)])
    as (c & Hr & _ & Habsent & Hlast).
  exists c.
  assert (E : c = {[ (7, 2) := 1 ]}).
  { vm_compute in Hr. injection Hr as <-. reflexivity. }
  assert (E2 : c !! (7, 2) = Some 1) by (rewrite E; reflexivity).
  assert (E3 : c !! (7, 3) = None) by (rewrite E; reflexivity).
  repeat split; auto.
Defined.

(** ** Running coroutines *)

Section Running.
Context (env : Env).

Lemma run_bind {A B : Type} (t : task A) (f : A -> task B) (w : World) :
  run env (bind t f) w
  = match run env t w with
    | (w', inr a) => run env (f a) w'
    | (w', inl e) => (w', inl e)
    end.
Proof.
  revert w. induction t as [a | e | a k IH]; intros w; simpl; try reflexivity.
  destruct (sleeping a) as [[delay r] |]; [apply IH |].
  destruct (perform env a w) as [w' r]. apply IH.
Qed.

Lemma resume_bind {A B : Type} (t : task A) (f : A -> task B) (w : World) :
  resume env (bind t f) w
  = match resume env t w with
    | (w', Finished (inr a)) => resume env (f a) w'
    | (w', Finished (inl e)) => (w', Finished (inl e))
    | (w', Suspended wake_at k) => (w', Suspended wake_at (bind k f))
    end.
Proof.
  revert w. induction t as [a | e | a k IH]; intros w; simpl; try reflexivity.
  destruct (sleeping a) as [[delay r] |]; [reflexivity |].
  destruct (perform env a w) as [w' r]. apply IH.
Qed.

(** A run is a succession of resumptions: up to the first [sleep], then
    on from the world the coroutine wakes up in. *)
Lemma run_resume {A : Type} (t : task A) (w : World) :
  run env t w
  = match resume env t w with
    | (w', Finished r) => (w', r)
    | (w', Suspended wake_at k) =>
        run env k {| now := wake_at;
                     recently_spoken := others env (now w') wake_at (recently_spoken w');
                     outbox := outbox w'; yielded := yielded w' |}
    end.
Proof.
  revert w. induction t as [a | e | a k IH]; intros w; simpl; try reflexivity.
  destruct (sleeping a) as [[delay r] |]; [reflexivity |].
  destruct (perform env a w) as [w' r]. apply IH.
Qed.

Lemma perform_now (a : action) (w : World) : now (fst (perform env a w)) = now w.
Proof. destruct a; reflexivity. Qed.

Lemma perform_outbox_time (a : action) (w : World) (d : Delivery) :
  d ∈ outbox (fst (perform env a w)) -> d ∈ outbox w \/ sent_at d = now w.
Proof.
  destruct a; simpl; auto.
  intros [H | H]%elem_of_app; [auto |].
  apply list_elem_of_singleton in H. subst d. auto.
Qed.

(** The clock of a coroutine never goes back. *)
Lemma run_now_le {A : Type} (t : task A) (w : World) :
  now w <= now (fst (run env t w)).
Proof.
  revert w. induction t as [a | e | a k IH]; intros w; simpl; try lia.
  destruct (sleeping a) as [[delay r] |].
  - etransitivity; [| apply IH]. simpl. lia.
  - pose proof (perform_now a w) as E.
    destruct (perform env a w) as [w' r]. simpl in E.
    rewrite <- E. apply IH.
Qed.

(** Every delivery a coroutine attempts is stamped with a time between its
    start and its end. *)
Lemma run_outbox_time {A : Type} (t : task A) (w : World) (d : Delivery) :
  d ∈ outbox (fst (run env t w)) -> d ∈ outbox w \/ now w <= sent_at d.
Proof.
  revert w. induction t as [a | e | a k IH]; intros w; simpl; auto.
  destruct (sleeping a) as [[delay r] |].
  - intros [H | H]%IH; simpl in H; [auto | right; lia].
  - pose proof (perform_now a w) as E.
    pose proof (perform_outbox_time a w d) as Ho.
    destruct (perform env a w) as [w' r]. simpl in E, Ho.
    intros [H | H]%IH; [| right; lia].
    destruct (Ho H) as [? | ->]; [auto | right; lia].
Qed.

Lemma incr_total (info : Key) (c : gmap (Z * Z) Z) :
  exists c', PositiveCounter.incr info c = Ok c'.
Proof. unfold PositiveCounter.incr. rewrite setitem_spec. eauto. Qed.

Lemma decr_total (info : Key) (c : gmap (Z * Z) Z) :
  exists c', PositiveCounter.decr info c = Ok c'.
Proof. unfold PositiveCounter.decr. rewrite setitem_spec. eauto. Qed.

Lemma resume_spoken_incr (info : Key) (w : World) (c' : gmap (Z * Z) Z) :
  PositiveCounter.incr info (recently_spoken w) = Ok c' ->
  resume env (spoken_incr info) w = (set_spoken c' w, Finished (Ok tt)).
Proof. intros E. unfold spoken_incr. simpl. rewrite E. reflexivity. Qed.

Lemma resume_spoken_decr (info : Key) (w : World) (c' : gmap (Z * Z) Z) :
  PositiveCounter.decr info (recently_spoken w) = Ok c' ->
  resume env (spoken_decr info) w = (set_spoken c' w, Finished (Ok tt)).
Proof. intros E. unfold spoken_decr. simpl. rewrite E. reflexivity. Qed.

(** [_track_spoken]: the increment at once, then the coroutine sleeps; what
    is left for when it wakes is the decrement. *)
Lemma resume_track_spoken (info : Key) (delay : Z) (w : World) (c' : gmap (Z * Z) Z) :
  PositiveCounter.incr info (recently_spoken w) = Ok c' ->
  resume env (_track_spoken info delay) w
  = (set_spoken c' w, Suspended (now w + Z.max 0 delay) (spoken_decr info)).
Proof.
  intros E. unfold _track_spoken.
  change (resume env (bind (spoken_incr info)
                        (fun _ => bind (call (sleep delay)) (fun _ => spoken_decr info))) w
          = (set_spoken c' w, Suspended (now w + Z.max 0 delay) (spoken_decr info))).
  rewrite resume_bind, (resume_spoken_incr info w c' E). reflexivity.
Qed.

End Running.

(** ** Leases and the settle window *)

Section Handlers.
Context (env : Env).

Lemma run_spoken_decr (info : Key) (w : World) :
  exists c', PositiveCounter.decr info (recently_spoken w) = Ok c' /\
    run env (spoken_decr info) w = (set_spoken c' w, Ok tt).
Proof.
  destruct (decr_total info (recently_spoken w)) as [c' E]. exists c'.
  split; [exact E |].
  rewrite run_resume, (resume_spoken_decr env info w c' E). reflexivity.
Qed.

(** Run on its own, [_track_spoken] ends [delay] seconds after it began,
    and has sent nothing. *)
Lemma run_track_spoken (info : Key) (delay : Z) (w : World) :
  exists w', run env (_track_spoken info delay) w = (w', Ok tt) /\
    now w' = now w + Z.max 0 delay /\ outbox w' = outbox w.
Proof.
  destruct (incr_total info (recently_spoken w)) as [c1 E1].
  rewrite run_resume, (resume_track_spoken env info delay w c1 E1).
  match goal with |- context [run env _ ?w1] =>
    destruct (run_spoken_decr info w1) as (c2 & _ & ->) end.
  eexists. split; [reflexivity |]. split; reflexivity.
Qed.

(** The notification [deliver] sends, given the history it fetched. *)
Lemma run_deliver (user : User) (highlight : string) (message : Message) (w : World) :
  match channel_history env message with
  | inl e => run env (deliver user highlight message) w = (w, Err e)
  | inr _ =>
      exists n,
        run env (deliver user highlight message) w
        = (log_delivery user n w,
           match user_send env user n with
           | inl e => if is_HTTPException e then Ok tt else Err e
           | inr _ => Ok tt
           end)
  end.
Proof.
  unfold deliver, notification_message, embed_description. simpl.
  destruct (channel_history env message) as [e | around]; simpl; [reflexivity |].
  match goal with |- context [user_send env user ?n0] => exists n0 end.
  destruct (user_send env user _) as [e | []]; simpl; [| reflexivity].
  destruct (is_HTTPException e); reflexivity.
Qed.

(** [deliver] never sleeps: it is over at the time it began. *)
Lemma resume_deliver (user : User) (highlight : string) (message : Message) (w : World) :
  exists w' r,
    resume env (deliver user highlight message) w = (w', Finished r) /\
    run env (deliver user highlight message) w = (w', r) /\
    now w' = now w /\
    recently_spoken w' = recently_spoken w /\
    forall d, d ∈ outbox w' ->
      d ∈ outbox w \/ (sent_at d = now w /\ recipient d = user).
Proof.
  unfold deliver, notification_message, embed_description. simpl.
  destruct (channel_history env message) as [e | around]; simpl.
  { do 2 eexists. repeat split; auto. }
  destruct (user_send env user _) as [e | []] eqn:Es; simpl.
  - destruct (is_HTTPException e); simpl; do 2 eexists;
      (split; [reflexivity |]); (split; [reflexivity |]); (split; [reflexivity |]);
      (split; [reflexivity |]);
      simpl; intros d [H | H]%elem_of_app; auto;
      apply list_elem_of_singleton in H; subst d; auto.
  - do 2 eexists.
    (split; [reflexivity |]); (split; [reflexivity |]); (split; [reflexivity |]).
    (split; [reflexivity |]).
    simpl. intros d [H | H]%elem_of_app; auto.
    apply list_elem_of_singleton in H; subst d; auto.
Qed.

Lemma notify_early (user : User) (highlight : string) (message : Message) (w : World) :
  now w - created_at message < NEW_MESSAGES_TIMEOUT ->
  resume env (notify user highlight message) w
  = (w, Suspended (created_at message + NEW_MESSAGES_TIMEOUT)
          (deliver user highlight message)).
Proof.
  intros H. unfold notify. simpl.
  destruct (now w - created_at message <? NEW_MESSAGES_TIMEOUT) eqn:E; [| lia].
  simpl. do 2 f_equal. lia.
Qed.

Lemma notify_late (user : User) (highlight : string) (message : Message) (w : World) :
  NEW_MESSAGES_TIMEOUT <= now w - created_at message ->
  resume env (notify user highlight message) w
  = resume env (deliver user highlight message) w /\
  run env (notify user highlight message) w
  = run env (deliver user highlight message) w.
Proof.
  intros H. unfold notify. simpl.
  destruct (now w - created_at message <? NEW_MESSAGES_TIMEOUT) eqn:E; [lia |].
  split; reflexivity.
Qed.

End Handlers.

(** C10. A notification job dispatched [x] seconds after its source message
    was created, with [x] below the settle window, sleeps until the message
    is exactly one window old and only then builds and sends the
    notification; with [x] at or above the window it never sleeps, and
    builds and sends the notification at the time it was dispatched. Either
    way the job is over at the later of the dispatch time and the creation
    time plus the window, and, when the history around the message can be
    fetched, it has attempted exactly one delivery, to its user and stamped
    with that time. (When the history cannot be fetched it attempts none
    and raises what the fetch raised.) *)
Theorem notify_waits_out_the_settle_window
    (env : Env) (user : User) (highlight : string) (message : Message) (w : World) :
  (now w - created_at message < NEW_MESSAGES_TIMEOUT ->
     resume env (notify user highlight message) w
     = (w, Suspended (created_at message + NEW_MESSAGES_TIMEOUT)
             (deliver user highlight message))) /\
  (NEW_MESSAGES_TIMEOUT <= now w - created_at message ->
     exists w' r,
       resume env (notify user highlight message) w = (w', Finished r) /\
       now w' = now w) /\
  (forall d, d ∈ outbox (fst (run env (notify user highlight message) w)) ->
     d ∈ outbox w \/
     sent_at d = Z.max (now w) (created_at message + NEW_MESSAGES_TIMEOUT)) /\
  now (fst (run env (notify user highlight message) w))
  = Z.max (now w) (created_at message + NEW_MESSAGES_TIMEOUT) /\
  match channel_history env message with
  | inl e =>
      outbox (fst (run env (notify user highlight message) w)) = outbox w /\
      snd (run env (notify user highlight message) w) = Err e
  | inr _ =>
      exists d,
        outbox (fst (run env (notify user highlight message) w)) = outbox w ++ [d] /\
        recipient d = user /\
        sent_at d = Z.max (now w) (created_at message + NEW_MESSAGES_TIMEOUT)
  end.
Proof.
  split; [apply notify_early |]. split; [| split; [| split]].
  - intros H. destruct (notify_late env user highlight message w H) as [-> _].
    destruct (resume_deliver env user highlight message w) as (w' & r & E & _ & Hn & _).
    eauto.
  - intros d.
    destruct (Z.lt_ge_cases (now w - created_at message) NEW_MESSAGES_TIMEOUT) as [H | H].
    + rewrite run_resume, (notify_early env user highlight message w H).
      match goal with |- context [run env _ ?w1] =>
        destruct (resume_deliver env user highlight message w1)
          as (w' & r & _ & -> & _ & _ & Ho) end.
      simpl. intros [Hd | [Hd _]]%Ho; simpl in Hd; [auto | right; lia].
    + destruct (notify_late env user highlight message w H) as [_ ->].
      destruct (resume_deliver env user highlight message w)
        as (w' & r & _ & -> & _ & _ & Ho).
      simpl. intros [Hd | [Hd _]]%Ho; [auto | right; lia].
  - destruct (Z.lt_ge_cases (now w - created_at message) NEW_MESSAGES_TIMEOUT) as [H | H].
    + rewrite run_resume, (notify_early env user highlight message w H).
      match goal with |- context [run env _ ?w1] =>
        destruct (resume_deliver env user highlight message w1)
          as (w' & r & _ & -> & Hn & _) end.
      simpl in Hn |- *. lia.
    + destruct (notify_late env user highlight message w H) as [_ ->].
      destruct (resume_deliver env user highlight message w)
        as (w' & r & _ & -> & Hn & _).
      simpl. lia.
  - destruct (Z.lt_ge_cases (now w - created_at message) NEW_MESSAGES_TIMEOUT) as [H | H].
    + rewrite run_resume, (notify_early env user highlight message w H).
      match goal with |- context [run env _ ?w1] =>
        pose proof (run_deliver env user highlight message w1) as Hd end.
      destruct (channel_history env message) as [e | around].
      * rewrite Hd. auto.
      * destruct Hd as [n ->]. simpl. eexists. split; [reflexivity |].
        simpl. split; [reflexivity | lia].
    + destruct (notify_late env user highlight message w H) as [_ ->].
      pose proof (run_deliver env user highlight message w) as Hd.
      destruct (channel_history env message) as [e | around].
      * rewrite Hd. auto.
      * destruct Hd as [n ->]. simpl. eexists. split; [reflexivity |].
        simpl. split; [reflexivity | lia].
Qed.

Lemma notify_waits_out_the_settle_window_witness :
  resume (Sample.env Sample.cat_dog id)
    (notify (Sample.user 1) "cat" (Sample.message "the cat sat")) (Sample.at_time 1003)
  = (Sample.at_time 1003,
     Suspended 1009 (deliver (Sample.user 1) "cat" (Sample.message "the cat sat"))) /\
  (exists d,
     outbox (fst (run (Sample.env Sample.cat_dog id)
                    (notify (Sample.user 1) "cat" (Sample.message "the cat sat"))
                    (Sample.at_time 1003)))
     = [d] /\ recipient d = Sample.user 1 /\ sent_at d = 1009) /\
  (exists w' r,
     resume (Sample.env Sample.cat_dog id)
       (notify (Sample.user 1) "cat" (Sample.message "the cat sat")) (Sample.at_time 1012)
     = (w', Finished r) /\ now w' = 1012) /\
  (exists d,
     outbox (fst (run (Sample.env Sample.cat_dog id)
                    (notify (Sample.user 1) "cat" (Sample.message "the cat sat"))
                    (Sample.at_time 1012)))
     = [d] /\ recipient d = Sample.user 1 /\ sent_at d = 1012).
Proof.
  destruct (notify_waits_out_the_settle_window (Sample.env Sample.cat_dog id)
              (Sample.user 1) "cat" (Sample.message "the cat sat") (Sample.at_time 1003))
    as (Hearly & _ & _ & _ & Hsent).
  destruct (notify_waits_out_the_settle_window (Sample.env Sample.cat_dog id)
              (Sample.user 1) "cat" (Sample.message "the cat sat") (Sample.at_time 1012))
    as (_ & Hlate & _ & _ & Hsent').
  split; [| split; [| split]].
  - apply Hearly. unfold NEW_MESSAGES_TIMEOUT. simpl. lia.
  - exact Hsent.
  - apply Hlate. unfold NEW_MESSAGES_TIMEOUT. simpl. lia.
  - exact Hsent'.
Defined.

(** ** What a coroutine can do *)

Ltac unbind := unfold mbind, task_bind in *.

Section Actions.
Context {A : Type}.

Lemma all_actions_impl (P Q : action -> Prop) (t : task A) :
  (forall a, P a -> Q a) -> all_actions P t -> all_actions Q t.
Proof. intros HPQ H. induction H; constructor; auto. Qed.

Lemma all_actions_bind {B : Type} (P : action -> Prop) (t : task A) (f : A -> task B) :
  all_actions P t -> (forall a, all_actions P (f a)) -> all_actions P (bind t f).
Proof. intros H Hf. induction H; simpl; [apply Hf | constructor | constructor; auto]. Qed.

Lemma all_actions_for_each {X : Type} (P : action -> Prop) (xs : list X)
    (body : X -> A -> task A) (s : A) :
  (forall x s', all_actions P (body x s')) -> all_actions P (for_each xs body s).
Proof.
  intros Hb. revert s. induction xs as [| x xs IH]; intros s; simpl.
  - constructor.
  - unbind. apply all_actions_bind; auto.
Qed.

End Actions.

Lemma highlights_user_lookups (message : Message) (highlight : string) (user : Z)
    (seen_users : list User) :
  all_actions is_lookup (highlights_user message highlight user seen_users).
Proof.
  unfold highlights_user, resolve_user, call, await. unbind. simpl.
  constructor; [exact I |]. intros blocked.
  destruct (bool_decide _); simpl; [constructor |].
  constructor; [exact I |]. intros [u |]; simpl.
  - destruct (negb (existsb (user_eqb u) seen_users) && negb (user_eqb u (author message)));
      simpl; repeat (constructor; try exact I; intros).
  - constructor; [exact I |]. intros [e | u]; simpl; [constructor |].
    destruct (negb (existsb (user_eqb u) seen_users) && negb (user_eqb u (author message)));
      simpl; repeat (constructor; try exact I; intros).
Qed.

(** The generator only asks questions and yields: it neither sleeps, nor
    sends, nor touches the counter. *)
Lemma highlights_lookups (message : Message) :
  all_actions is_lookup (highlights message).
Proof.
  unfold highlights, call. unbind. simpl.
  constructor; [exact I |]. intros [| kv d]; [constructor |].
  simpl. constructor; [exact I |]. intros triggers.
  apply all_actions_bind.
  { unfold re_finditer. destruct (Re.finditer _ _); constructor. }
  intros matches. apply all_actions_bind; [| intros; constructor].
  apply all_actions_for_each. intros highlight seen.
  apply all_actions_bind.
  { unfold await. simpl. destruct (getall _ _); constructor. }
  intros users. apply all_actions_for_each. intros user seen'.
  apply highlights_user_lookups.
Qed.

Lemma is_lookup_quiet (env : Env) (a : action) (w : World) :
  is_lookup a -> sleeping a = None /\
    now (fst (perform env a w)) = now w /\
    recently_spoken (fst (perform env a w)) = recently_spoken w /\
    outbox (fst (perform env a w)) = outbox w.
Proof. destruct a; simpl; intros []; auto. Qed.

(** ** Delivery failures *)

Section Absorbed.
Context (env : Env) (Hsend : send_fails_with_http env).

Abbreviation unaffected := (unaffected_by_rejections env).

Lemma unaffected_bind {A B : Type} (t : task A) (f : A -> task B) :
  unaffected t -> (forall a, unaffected (f a)) -> unaffected (bind t f).
Proof.
  intros Ht Hf w. rewrite !run_bind, Ht.
  destruct (run (accepting env) t w) as [w' [e | a]]; [reflexivity | apply Hf].
Qed.

Lemma unaffected_lookups {A : Type} (t : task A) :
  all_actions is_lookup t -> unaffected t.
Proof.
  induction 1 as [a | e | a k Ha Hk IH]; intros w; simpl; try reflexivity.
  destruct (is_lookup_quiet env a w Ha) as [-> _].
  assert (E : perform env a w = perform (accepting env) a w)
    by (destruct a; try reflexivity; destruct Ha).
  rewrite <- E. destruct (perform env a w) as [w' r]. apply IH.
Qed.

Lemma unaffected_async_for {A : Type} (gen : task A) (body : User * string -> task unit) :
  all_actions is_lookup gen -> (forall x, unaffected (body x)) ->
  unaffected (async_for gen body).
Proof.
  intros Hgen Hbody.
  induction Hgen as [a | e | a k Ha Hk IH]; simpl; try (intros w; reflexivity).
  destruct (yielding a) as [[x r] |] eqn:Ey.
  - unbind. apply unaffected_bind; [apply Hbody | intros _; apply IH].
  - intros w. simpl.
    destruct (is_lookup_quiet env a w Ha) as [-> _].
    assert (E : perform env a w = perform (accepting env) a w)
      by (destruct a; try reflexivity; destruct Ha).
    rewrite <- E. destruct (perform env a w) as [w' r]. apply IH.
Qed.

Lemma unaffected_deliver (user : User) (highlight : string) (message : Message) :
  unaffected (deliver user highlight message).
Proof.
  intros w. unfold deliver, notification_message, embed_description. simpl.
  destruct (channel_history env message) as [e | around]; simpl; [reflexivity |].
  destruct (user_send env user _) as [e | []] eqn:Es; simpl; [| reflexivity].
  rewrite (Hsend _ _ _ Es). reflexivity.
Qed.

Lemma unaffected_notify (user : User) (highlight : string) (message : Message) :
  unaffected (notify user highlight message).
Proof.
  intros w. unfold notify. simpl.
  destruct (now w - created_at message <? NEW_MESSAGES_TIMEOUT); simpl;
    apply unaffected_deliver.
Qed.

Lemma unaffected_track_spoken (info : Key) (delay : Z) :
  unaffected (_track_spoken info delay).
Proof.
  intros w. unfold _track_spoken, spoken_incr, spoken_decr. simpl.
  destruct (PositiveCounter.incr info (recently_spoken w)); simpl; [reflexivity |].
  destruct (PositiveCounter.decr info _); reflexivity.
Qed.

Lemma unaffected_on_message (message : Message) : unaffected (on_message message).
Proof.
  unfold on_message.
  destruct (guild message); [| intros w; reflexivity].
  unbind. apply unaffected_bind; [intros w; reflexivity |].
  intros reply. destruct (negb reply); [intros w; reflexivity |].
  apply unaffected_bind.
  - apply unaffected_async_for; [apply highlights_lookups |].
    intros [user highlight] w'. unfold on_message_body. simpl.
    destruct (negb _); [apply unaffected_notify | reflexivity].
  - intros _. apply unaffected_track_spoken.
Qed.

End Absorbed.

Lemma run_notify_deliver (env : Env) (user : User) (highlight : string)
    (message : Message) (w : World) :
  exists w1, run env (notify user highlight message) w
             = run env (deliver user highlight message) w1.
Proof.
  unfold notify. simpl.
  destruct (now w - created_at message <? NEW_MESSAGES_TIMEOUT); simpl;
    eexists; reflexivity.
Qed.

(** C3, as stated, fails: when the history of the channel cannot be fetched,
    [notify] raises, [on_message] raises with it, the second match of the
    message is never attended to and the handler stops before the lease of
    the author (it ends at 1009, not at 1019 as it does when the history is
    there). *)
Lemma history_failure_escapes_notify :
  snd (run (Sample.no_history (Sample.env Sample.cat_dog id))
         (notify (Sample.user 1) "cat" (Sample.message "cat dog")) (Sample.at_time 1003))
  = Err HTTPException /\
  run (Sample.no_history (Sample.env Sample.cat_dog id))
    (on_message (Sample.message "cat dog")) (Sample.at_time 1003)
  = ({| now := 1009; recently_spoken := PositiveCounter.empty; outbox := [];
        yielded := [] |}, Err HTTPException) /\
  (let w := fst (run (Sample.env Sample.cat_dog id)
                   (on_message (Sample.message "cat dog")) (Sample.at_time 1003)) in
   now w = 1019 /\ map (fun d => user_id (recipient d)) (outbox w) = [1; 3]).
Proof. vm_compute. repeat split; reflexivity. Qed.

(** C3, amended. A direct message that is rejected with
    [discord.HTTPException] or one of its subclasses inside one notification
    job is absorbed within [notify]: the job ends as if the message had been
    accepted, normally whenever its context could be fetched, and
    [on_message] goes on exactly as it would have, with the same clock, the
    same counter and the same further attempts at delivery. *)
Theorem rejected_direct_messages_are_absorbed (env : Env) :
  send_fails_with_http env ->
  (forall user highlight message w,
     run env (notify user highlight message) w
     = run (accepting env) (notify user highlight message) w /\
     (forall around, channel_history env message = Ok around ->
        snd (run env (notify user highlight message) w) = Ok tt)) /\
  (forall message w,
     run env (on_message message) w = run (accepting env) (on_message message) w).
Proof.
  intros Hsend. split.
  - intros user highlight message w. split; [by apply unaffected_notify |].
    intros around Ha.
    destruct (run_notify_deliver env user highlight message w) as [w1 ->].
    pose proof (run_deliver env user highlight message w1) as H.
    unfold Ok in Ha. rewrite Ha in H. destruct H as [n ->]. simpl.
    destruct (user_send env user n) as [e | []] eqn:Es; [| reflexivity].
    by rewrite (Hsend _ _ _ Es).
  - intros message. by apply unaffected_on_message.
Qed.

Lemma rejected_direct_messages_are_absorbed_witness :
  send_fails_with_http (Sample.no_dms (Sample.env Sample.cat_dog id)) /\
  snd (run (Sample.no_dms (Sample.env Sample.cat_dog id))
         (notify (Sample.user 1) "cat" (Sample.message "cat dog")) (Sample.at_time 1003))
  = Ok tt /\
  run (Sample.no_dms (Sample.env Sample.cat_dog id))
    (on_message (Sample.message "cat dog")) (Sample.at_time 1003)
  = run (accepting (Sample.no_dms (Sample.env Sample.cat_dog id)))
      (on_message (Sample.message "cat dog")) (Sample.at_time 1003).
Proof.
  assert (Hs : send_fails_with_http (Sample.no_dms (Sample.env Sample.cat_dog id))).
  { intros u n e. simpl. intros [= <-]. reflexivity. }
  destruct (rejected_direct_messages_are_absorbed
              (Sample.no_dms (Sample.env Sample.cat_dog id)) Hs) as [Hn Hm].
  split; [exact Hs |]. split.
  - destruct (Hn (Sample.user 1) "cat"%string (Sample.message "cat dog")
                (Sample.at_time 1003)) as [_ Hok].
    apply (Hok [Sample.message "cat dog"]). reflexivity.
  - apply Hm.
Defined.

(** C6, as stated, fails: [_track_spoken] does not hand control back before
    the lease is over, and [on_message], which awaits it, is not over before
    the ten seconds have passed, even for a message that triggers nothing. *)
Lemma track_spoken_suspends_its_caller :
  ~ returns_immediately (Sample.env [] id)
      (_track_spoken (7, 2) LAST_SPOKEN_CUTOFF) (Sample.at_time 1000) /\
  run (Sample.env [] id) (on_message (Sample.message "hello")) (Sample.at_time 1000)
  = (Sample.at_time 1010, Ok tt).
Proof.
  split.
  - intros [w' H].
    destruct (incr_total (7, 2) (recently_spoken (Sample.at_time 1000))) as [c' E].
    rewrite (resume_track_spoken _ _ _ _ c' E) in H. discriminate H.
  - vm_compute. reflexivity.
Qed.

(** C6, amended. Beginning a lease on a counter that stores only positive
    counts marks the key at once: the count of the key goes up by one, so
    the key is in the counter, and no other key is touched. But the
    operation does not return before the lease is over: [_track_spoken]
    suspends the coroutine that awaits it until [delay] seconds later, and
    what it does on waking takes the increment back. [on_message] awaits it,
    so a handler that gets past its guards and raises nothing is over no
    earlier than the cutoff after it began. *)
Theorem lease_suspends_its_caller (env : Env) :
  (forall info delay w,
     PositiveCounter.positive (recently_spoken w) ->
     exists c',
       PositiveCounter.incr info (recently_spoken w) = Ok c' /\
       resume env (_track_spoken info delay) w
       = (set_spoken c' w, Suspended (now w + Z.max 0 delay) (spoken_decr info)) /\
       PositiveCounter.contains info c' = true /\
       c' !! info = Some (PositiveCounter.getitem info (recently_spoken w) + 1) /\
       (forall key, key <> info -> c' !! key = recently_spoken w !! key) /\
       (forall w1, recently_spoken w1 = c' ->
          run env (spoken_decr info) w1 = (set_spoken (recently_spoken w) w1, Ok tt))) /\
  (forall message w w',
     guild message <> None ->
     bot_should_reply env message = true ->
     run env (on_message message) w = (w', Ok tt) ->
     now w + LAST_SPOKEN_CUTOFF <= now w').
Proof.
  split.
  - intros info delay w Hpos.
    destruct (incr_then_decr info (recently_spoken w) Hpos) as (c' & E & Hc & Hd).
    exists c'. split; [exact E |]. split; [by apply resume_track_spoken |].
    split; [exact Hc |].
    assert (Hn : 0 <= PositiveCounter.getitem info (recently_spoken w)).
    { unfold PositiveCounter.getitem.
      destruct (recently_spoken w !! info) as [n |] eqn:En; [| lia].
      specialize (Hpos info n En). simpl in Hpos. lia. }
    pose proof E as E'. unfold PositiveCounter.incr in E'. rewrite setitem_spec in E'.
    destruct (0 <? PositiveCounter.getitem info (recently_spoken w) + 1) eqn:E1; [| lia].
    injection E' as <-.
    split; [apply lookup_insert_eq |].
    split; [intros key Hne; by apply lookup_insert_ne |].
    intros w1 Hw1.
    destruct (run_spoken_decr env info w1) as (c2 & Hd2 & ->).
    rewrite Hw1, Hd in Hd2. by injection Hd2 as <-.
  - intros message w w' Hg Hr. unfold on_message.
    destruct (guild message); [| done].
    unbind. rewrite run_bind. simpl. rewrite Hr. simpl.
    rewrite run_bind.
    pose proof (run_now_le env (async_for (highlights message) (on_message_body message)) w)
      as Hle.
    destruct (run env (async_for _ _) w) as [w1 [e | []]]; [discriminate |].
    destruct (run_track_spoken env (channel message, user_id (author message))
                LAST_SPOKEN_CUTOFF w1) as (w2 & -> & Hn & _).
    intros [= <-]. simpl in Hle. rewrite Hn. unfold LAST_SPOKEN_CUTOFF. lia.
Qed.

Lemma lease_suspends_its_caller_witness :
  (exists c',
     resume (Sample.env [] id) (_track_spoken (7, 2) 10) (Sample.at_time 1000)
     = (set_spoken c' (Sample.at_time 1000), Suspended 1010 (spoken_decr (7, 2))) /\
     PositiveCounter.contains (7, 2) c' = true /\
     c' !! (7, 2) = Some 1 /\
     forall w1, recently_spoken w1 = c' ->
       run (Sample.env [] id) (spoken_decr (7, 2)) w1
       = (set_spoken PositiveCounter.empty w1, Ok tt)) /\
  1000 + LAST_SPOKEN_CUTOFF
  <= now (fst (run (Sample.env [] id) (on_message (Sample.message "hello"))
                 (Sample.at_time 1000))).
Proof.
  destruct (lease_suspends_its_caller (Sample.env [] id)) as [H1 H2]. split.
  - destruct (H1 (7, 2) 10 (Sample.at_time 1000)) as (c' & _ & Hr & Hc & Hl & _ & Hd).
    { apply map_Forall_empty. }
    exists c'. split; [exact Hr |]. split; [exact Hc |]. split; [exact Hl | exact Hd].
  - apply (H2 (Sample.message "hello") (Sample.at_time 1000)).
    + discriminate.
    + reflexivity.
    + vm_compute. reflexivity.
Defined.

(** ** The scan of a message *)

Section Scan.
Context (env : Env) (message : Message).

Abbreviation d := (db_channel_highlights (store env) (channel message)).

Lemma seen_spec (u : User) (s : list User) :
  existsb (user_eqb u) s = true <-> user_id u ∈ map user_id s.
Proof.
  rewrite existsb_exists, list_elem_of_In, in_map_iff. unfold user_eqb.
  split; intros (v & H1 & H2); exists v.
  - apply Z.eqb_eq in H2. auto.
  - split; [auto |]. apply Z.eqb_eq. auto.
Qed.

Lemma elem_of_map_snoc {X Y : Type} (f : X -> Y) (l : list X) (x : X) (y : Y) :
  y ∈ map f (l ++ [x]) <-> y ∈ map f l \/ y = f x.
Proof.
  rewrite map_app, elem_of_app. simpl. by rewrite list_elem_of_singleton.
Qed.

(** One owner of one match: skipped when [blocks(author)] lists it, an
    error when it cannot be resolved, yielded when it is neither seen nor
    the author. *)
Lemma run_highlights_user (highlight : string) (o : Z) (s : list User) (w : World) :
  run env (highlights_user message highlight o s) w
  = if bool_decide (o ∈ db_blocks (store env) (user_id (author message)))
    then (w, Ok s)
    else match resolved env o with
         | inl e => (w, Err e)
         | inr u =>
             if negb (existsb (user_eqb u) s) && negb (user_eqb u (author message))
             then (log_yield (u, highlight) w, Ok (u :: s))
             else (w, Ok s)
         end.
Proof.
  unfold highlights_user, resolve_user, resolved. simpl.
  destruct (bool_decide _); simpl; [reflexivity |].
  destruct (bot_get_user env o) as [u |]; simpl.
  - destruct (negb _ && negb _); reflexivity.
  - destruct (bot_get_user_info env o) as [e | u]; simpl; [reflexivity |].
    destruct (negb _ && negb _); reflexivity.
Qed.

Context (matches : list string).

Lemma scan_invariant_outcome (pre : list string) (done : list Z) (s : list User)
    (ys : list (User * string)) :
  scan_invariant env message d matches pre done s ys ->
  scan_outcome env message d matches ys.
Proof. intros (_ & H2 & H3 & _). split; assumption. Qed.

(** The step of the inner loop keeps the invariant. *)
Lemma highlights_user_step (pre post : list string) (highlight : string)
    (done : list Z) (o : Z) (s : list User) (w0 w : World) (ys : list (User * string)) :
  matches = pre ++ highlight :: post ->
  o ∈ owners d highlight ->
  yielded w = yielded w0 ++ ys ->
  scan_invariant env message d matches pre done s ys ->
  exists ys',
    yielded (fst (run env (highlights_user message highlight o s) w)) = yielded w0 ++ ys' /\
    match snd (run env (highlights_user message highlight o s) w) with
    | inr s' => scan_invariant env message d matches pre (done ++ [o]) s' ys'
    | inl _ => scan_outcome env message d matches ys'
    end.
Proof.
  intros Hm Ho Hy Hinv. rewrite run_highlights_user.
  pose proof Hinv as (Hids & Hnd & Hfirst & Hpre & Hdone).
  unfold survivor in *.
  destruct (bool_decide (o ∈ _)) eqn:Eb; simpl.
  { exists ys. split; [exact Hy |]. repeat split; auto; try apply Hids.
    intros o' u' [Hin | ->%list_elem_of_singleton]%elem_of_app; [by eauto |].
    unfold survivor. rewrite Eb. discriminate. }
  destruct (resolved env o) as [e | u] eqn:Er; simpl.
  { exists ys. split; [exact Hy |]. by eapply scan_invariant_outcome. }
  destruct (existsb (user_eqb u) s) eqn:Es; simpl.
  { exists ys. split; [exact Hy |]. repeat split; auto; try apply Hids.
    intros o' u' [Hin | ->%list_elem_of_singleton]%elem_of_app; [by eauto |].
    unfold survivor. rewrite Eb, Er.
    destruct (user_eqb u (author message)); [discriminate |].
    intros [= <-]. by apply seen_spec. }
  destruct (user_eqb u (author message)) eqn:Ea; simpl.
  { exists ys. split; [exact Hy |]. repeat split; auto; try apply Hids.
    intros o' u' [Hin | ->%list_elem_of_singleton]%elem_of_app; [by eauto |].
    unfold survivor. rewrite Eb, Er, Ea. discriminate. }
  assert (Hfresh : user_id u ∉ map user_id s).
  { intros H%seen_spec. congruence. }
  exists (ys ++ [(u, highlight)]). split.
  { rewrite Hy. by rewrite <- app_assoc. }
  split; [| split; [| split; [| split]]].
  - intros i. rewrite elem_of_map_snoc. simpl. rewrite elem_of_cons, <- Hids. tauto.
  - rewrite map_app. apply NoDup_app. split; [exact Hnd |]. split.
    + intros i Hi Hk. simpl in Hk. apply list_elem_of_singleton in Hk. subst i.
      apply Hfresh. simpl. by apply Hids.
    + simpl. apply NoDup_singleton.
  - intros u1 h1 [Hin | [= -> ->]%list_elem_of_singleton]%elem_of_app; [by auto |].
    exists pre, post, o. split; [exact Hm |]. split; [exact Ho |]. split.
    + unfold survivor. by rewrite Eb, Er, Ea.
    + intros h' o' u' Hh' Ho' Hs' Heq.
      apply Hfresh. rewrite <- Heq. eapply Hpre; eauto.
  - intros h' o' u' Hh' Ho' Hs'. simpl. apply list_elem_of_further. eapply Hpre; eauto.
  - intros o' u' [Hin | ->%list_elem_of_singleton]%elem_of_app Hs'; simpl.
    + apply list_elem_of_further. eapply Hdone; eauto.
    + unfold survivor in Hs'. rewrite Eb, Er, Ea in Hs'. injection Hs' as <-.
      apply list_elem_of_here.
Qed.

(** The inner loop, over the owners of one match. *)
Lemma owners_loop (pre post : list string) (highlight : string)
    (rest done : list Z) (s : list User) (w0 w : World) (ys : list (User * string)) :
  matches = pre ++ highlight :: post ->
  (forall o, o ∈ rest -> o ∈ owners d highlight) ->
  yielded w = yielded w0 ++ ys ->
  scan_invariant env message d matches pre done s ys ->
  exists ys',
    yielded (fst (run env (for_each rest (highlights_user message highlight) s) w))
    = yielded w0 ++ ys' /\
    match snd (run env (for_each rest (highlights_user message highlight) s) w) with
    | inr s' => scan_invariant env message d matches pre (done ++ rest) s' ys'
    | inl _ => scan_outcome env message d matches ys'
    end.
Proof.
  intros Hm. revert done s w ys.
  induction rest as [| o rest IH]; intros done s w ys Hrest Hy Hinv.
  - exists ys. simpl. rewrite app_nil_r. auto.
  - cbn [for_each]. unbind. rewrite run_bind.
    destruct (highlights_user_step pre post highlight done o s w0 w ys)
      as (ys1 & Hy1 & Hr1); auto.
    { apply Hrest, list_elem_of_here. }
    destruct (run env (highlights_user message highlight o s) w) as [w1 [e | s1]];
      simpl in Hy1, Hr1 |- *.
    + exists ys1. auto.
    + destruct (IH (done ++ [o]) s1 w1 ys1) as (ys2 & Hy2 & Hr2); auto.
      { intros o' Ho'. by apply Hrest, list_elem_of_further. }
      exists ys2. split; [exact Hy2 |]. by rewrite <- app_assoc in Hr2.
Qed.

(** The outer loop, over the matches. *)
Lemma matches_loop (rest pre : list string) (s : list User) (w0 w : World)
    (ys : list (User * string)) :
  matches = pre ++ rest ->
  yielded w = yielded w0 ++ ys ->
  scan_invariant env message d matches pre [] s ys ->
  exists ys',
    yielded (fst (run env
      (for_each rest
         (fun highlight seen_users =>
            bind (await (Ret (getall d highlight)))
              (fun owners => for_each owners (highlights_user message highlight)
                               seen_users))
         s) w))
    = yielded w0 ++ ys' /\
    scan_outcome env message d matches ys'.
Proof.
  revert pre s w ys.
  induction rest as [| h rest IH]; intros pre s w ys Hm Hy Hinv.
  - exists ys. split; [exact Hy |]. by eapply scan_invariant_outcome.
  - cbn [for_each]. unbind. rewrite !run_bind. unfold await. unbind. simpl.
    destruct (getall d h) as [e | users] eqn:Eg; simpl.
    { exists ys. split; [exact Hy |]. by eapply scan_invariant_outcome. }
    destruct (owners_loop pre rest h users [] s w0 w ys) as (ys1 & Hy1 & Hr1); auto.
    { intros o Ho. unfold owners. by rewrite Eg. }
    destruct (run env (for_each users (highlights_user message h) s) w)
      as [w1 [e | s1]]; simpl in Hy1, Hr1 |- *.
    + exists ys1. auto.
    + apply (IH (pre ++ [h]) s1 w1 ys1); auto.
      { by rewrite <- app_assoc. }
      destruct Hr1 as (H1 & H2 & H3 & H4 & H5).
      split; [exact H1 |]. split; [exact H2 |]. split; [exact H3 |]. split.
      * intros h' o' u' [Hh' | ->%list_elem_of_singleton]%elem_of_app Ho' Hs'.
        -- eapply H4; eauto.
        -- eapply H5; eauto. simpl. unfold owners in Ho'. by rewrite Eg in Ho'.
      * intros o' u' []%elem_of_nil.
Qed.

End Scan.

(** What a scan yields is on top of what had been yielded before, and,
    unless it is nothing, obeys [scan_outcome] for the matches of the scan. *)
Lemma highlights_outcome (env : Env) (message : Message) (w : World) :
  exists ys,
    yielded (fst (run env (highlights message) w)) = yielded w ++ ys /\
    (ys = [] \/
     exists matches,
       scan_matches env message = Some matches /\
       scan_outcome env message
         (db_channel_highlights (store env) (channel message)) matches ys).
Proof.
  unfold highlights, scan_matches. unbind. simpl.
  destruct (db_channel_highlights (store env) (channel message)) as [| kv d'] eqn:Ed.
  { exists []. simpl. rewrite app_nil_r. auto. }
  rewrite <- Ed. simpl. rewrite run_bind. unfold re_finditer.
  destruct (Re.finditer _ _) as [matches |] eqn:Ef; simpl.
  2:{ exists []. rewrite app_nil_r. auto. }
  rewrite run_bind.
  destruct (matches_loop env message matches matches [] [] w w []) as (ys & Hy & Hout).
  { reflexivity. }
  { by rewrite app_nil_r. }
  { split; [reflexivity |]. split; [constructor |].
    split; [intros u h []%elem_of_nil |].
    split; [intros h' o' u' []%elem_of_nil | intros o' u' []%elem_of_nil]. }
  exists ys.
  match type of Hy with yielded (fst ?r) = _ =>
    match goal with |- context [match ?r' with _ => _ end] =>
      change r' with r; destruct r as [w1 [e | s1]] end end;
    simpl in Hy |- *; (split; [exact Hy |]); right; eauto.
Qed.

(** C8. Whatever one scan of a message yields, on top of what had been
    yielded before, holds no two results for users with the same id, whether
    several triggers of a user match or one of them several times; and the
    text reported for a user is the first match of the scan, left to right,
    that has this user among its surviving owners. *)
Theorem one_result_per_user (env : Env) (message : Message) (w : World) :
  exists ys,
    yielded (fst (run env (highlights message) w)) = yielded w ++ ys /\
    NoDup (map (fun y => user_id (fst y)) ys) /\
    forall u h, (u, h) ∈ ys ->
      exists matches,
        scan_matches env message = Some matches /\
        first_surviving_match env message
          (db_channel_highlights (store env) (channel message)) matches u h.
Proof.
  destruct (highlights_outcome env message w)
    as (ys & Hy & [-> | (matches & Hs & Hnd & Hfirst)]).
  - exists []. split; [exact Hy |]. split; [constructor |].
    intros u h []%elem_of_nil.
  - exists ys. split; [exact Hy |]. split; [exact Hnd |].
    intros u h Hin. exists matches. split; [exact Hs |]. by apply Hfirst.
Qed.

Lemma one_result_per_user_witness :
  yielded (fst (run (Sample.env [("cat"%string, 1); ("sat"%string, 1); ("dog"%string, 3)] id)
                  (highlights (Sample.message "the cat sat by the cat and the dog"))
                  (Sample.at_time 1003)))
  = [(Sample.user 1, "cat"%string); (Sample.user 3, "dog"%string)] /\
  NoDup [1; 3].
Proof.
  destruct (one_result_per_user
              (Sample.env [("cat"%string, 1); ("sat"%string, 1); ("dog"%string, 3)] id)
              (Sample.message "the cat sat by the cat and the dog")
              (Sample.at_time 1003)) as (ys & Hy & Hnd & _).
  assert (E : ys = [(Sample.user 1, "cat"%string); (Sample.user 3, "dog"%string)]).
  { pose proof Hy as Hy'. vm_compute in Hy'. symmetry. exact Hy'. }
  subst ys. split; [exact Hy | exact Hnd].
Defined.

(** ** The pattern *)

Section Pattern.
Import Re.

Lemma special_is_literal (c : ascii) :
  is_special c = true -> Ascii.eqb c "b"%char = false /\ is_alnum c = false.
Proof.
  destruct c as [[] [] [] [] [] [] [] []]; vm_compute; intros H;
    first [discriminate H | split; reflexivity].
Qed.

Lemma plain_is_literal (c : ascii) :
  is_special c = false ->
  Ascii.eqb c "\"%char = false /\ Ascii.eqb c "|"%char = false /\ is_meta c = false.
Proof.
  destruct c as [[] [] [] [] [] [] [] []]; vm_compute; intros H;
    first [discriminate H | repeat split; reflexivity].
Qed.

(** What [re.escape] makes of a text is read back as that text, character
    by character, whatever the characters. *)
Lemma parse_body_escape (s rest : list ascii) (cur : list atom) :
  parse_body (escape_chars s ++ rest) cur
  = parse_body rest (rev (map Lit s) ++ cur).
Proof.
  revert cur. induction s as [| c s IH]; intros cur; [reflexivity |].
  cbn [escape_chars]. destruct (is_special c) eqn:Es.
  - destruct (special_is_literal c Es) as [Eb Ea].
    cbn [app parse_body]. rewrite Ascii.eqb_refl, Eb, Ea, IH.
    cbn [map rev]. by rewrite <- app_assoc.
  - destruct (plain_is_literal c Es) as (E1 & E2 & E3).
    cbn [app parse_body]. rewrite E1, E2, E3, IH.
    cbn [map rev]. by rewrite <- app_assoc.
Qed.

Lemma list_ascii_of_string_app (a b : string) :
  list_ascii_of_string (a ++ b)%string
  = list_ascii_of_string a ++ list_ascii_of_string b.
Proof. induction a as [| c a IH]; simpl; [reflexivity | by rewrite IH]. Qed.

Lemma list_ascii_of_escape (h : string) :
  list_ascii_of_string (escape h) = escape_chars (list_ascii_of_string h).
Proof. unfold escape. apply list_ascii_of_string_of_list_ascii. Qed.

(** The alternation [build_re] joins, followed by the closing [\b]. *)
Lemma parse_body_alternation (hs : list string) :
  forall (h : string) (cur : list atom),
    parse_body
      (list_ascii_of_string (String.concat "|" (map escape (h :: hs)))
       ++ ["\"%char; "b"%char]) cur
    = Some (anchor_last ((rev cur ++ lits h) :: map lits hs)).
Proof.
  induction hs as [| h2 hs IH]; intros h cur.
  - cbn [map String.concat]. rewrite list_ascii_of_escape, parse_body_escape.
    cbn. unfold lits. by rewrite rev_app_distr, rev_involutive.
  - change (String.concat "|" (map escape (h :: h2 :: hs)))
      with (escape h ++ "|" ++ String.concat "|" (map escape (h2 :: hs)))%string.
    rewrite !list_ascii_of_string_app, list_ascii_of_escape, <- !app_assoc.
    rewrite parse_body_escape.
    change (list_ascii_of_string "|") with ["|"%char].
    cbn [app parse_body]. 
    change (Ascii.eqb "|" "\") with false. change (Ascii.eqb "|" "|") with true.
    cbv iota. rewrite (IH h2 []).
    cbn [map anchor_last rev app]. unfold lits.
    by rewrite rev_app_distr, rev_involutive.
Qed.

(** The pattern of [build_re]: case-insensitive; one alternative for each
    trigger, made of its characters as literals; a word boundary before the
    first alternative and one after the last, and nowhere else. *)
Lemma parse_build_re (h : string) (hs : list string) :
  parse (build_re (h :: hs))
  = Some {| ignorecase := true;
            alternatives := anchor_last ((WordBoundary :: lits h) :: map lits hs) |}.
Proof.
  unfold parse, build_re. rewrite !list_ascii_of_string_app, <- !app_assoc.
  change (list_ascii_of_string "(?i)\b")
    with ["("%char; "?"%char; "i"%char; ")"%char; "\"%char; "b"%char].
  change (list_ascii_of_string "\b") with ["\"%char; "b"%char].
  cbn [app]. cbv iota beta.
  change (parse_body ("\"%char :: "b"%char :: ?x) []) with (parse_body x [WordBoundary]).
  by rewrite parse_body_alternation.
Qed.

End Pattern.

(** C1. Every trigger enters the pattern as literal text, character by
    character, but the two word boundaries do not delimit every trigger: the
    first [\b] belongs to the first alternative only and the last [\b] to the
    last one only (the pattern is [(?i)\bcat|dog\b]). With the triggers cat
    and dog, in whichever order the set is iterated, the scan of
    "bobcat category" reports a "cat" that is not a word of its own: inside
    "category" (offset 7) when cat comes first, inside "bobcat" (offset 3)
    when it comes last; and the owner of cat is handed a result for the
    message "category". With cat as the only trigger the pattern is delimited
    on both sides and finds cat in "the cat sat" but not in "category". *)
Theorem alternation_escapes_the_word_boundaries :
  (forall h hs,
     Re.parse (build_re (h :: hs))
     = Some {| Re.ignorecase := true;
               Re.alternatives :=
                 Re.anchor_last ((Re.WordBoundary :: Re.lits h) :: map Re.lits hs) |}) /\
  build_re ["cat"; "dog"]%string = "(?i)\bcat|dog\b"%string /\
  (Re.finditer (build_re ["cat"; "dog"]%string) "category" = Some ["cat"%string] /\
   Re.finditer (build_re ["cat"; "dog"]%string) "bobcat category" = Some ["cat"%string] /\
   Re.match_offset (build_re ["cat"; "dog"]%string) "bobcat category" 7
   = Some "cat"%string /\
   whole_word_at (list_ascii_of_string "bobcat category") 7 3 = false) /\
  (Re.finditer (build_re ["dog"; "cat"]%string) "bobcat category" = Some ["cat"%string] /\
   Re.match_offset (build_re ["dog"; "cat"]%string) "bobcat category" 3
   = Some "cat"%string /\
   whole_word_at (list_ascii_of_string "bobcat category") 3 3 = false) /\
  yielded (fst (run (Sample.env Sample.cat_dog id)
                  (highlights (Sample.message "category")) (Sample.at_time 1003)))
  = [(Sample.user 1, "cat"%string)] /\
  (Re.finditer (build_re ["cat"]%string) "category" = Some [] /\
   Re.finditer (build_re ["cat"]%string) "the cat sat" = Some ["cat"%string]).
Proof.
  split; [exact parse_build_re |].
  vm_compute. repeat split; reflexivity.
Qed.

(** C2. The only block list [highlights] consults is that of the author of
    the message: whoever is handed a result is an owner of the matched text
    whom the author has not blocked. Whether the owner has blocked the
    author is not looked at. With the Trigger Store of the spec, in which
    user 1 has blocked user 2, [blocks(1)] lists 2 and [blocks(2)] lists
    nobody; so user 1 is handed a result for the message of user 2 and
    [on_message] attempts the delivery. The owner is skipped in the opposite
    case, when it is the author who has blocked the owner. *)
Theorem blocker_is_highlighted_by_the_blocked :
  (forall env message w,
     exists ys,
       yielded (fst (run env (highlights message) w)) = yielded w ++ ys /\
       forall u h, (u, h) ∈ ys ->
         exists o,
           o ∈ owners (db_channel_highlights (store env) (channel message)) h /\
           resolved env o = Ok u /\
           o ∉ db_blocks (store env) (user_id (author message))) /\
  (1, 2) ∈ blocks_table (store (Sample.env Sample.cat_dog id)) /\
  db_blocks (store (Sample.env Sample.cat_dog id)) 1 = [2] /\
  db_blocks (store (Sample.env Sample.cat_dog id)) 2 = [] /\
  yielded (fst (run (Sample.env Sample.cat_dog id)
                  (highlights (Sample.message "the cat sat")) (Sample.at_time 1003)))
  = [(Sample.user 1, "cat"%string)] /\
  map (fun d => (sent_at d, user_id (recipient d)))
    (outbox (fst (run (Sample.env Sample.cat_dog id)
                    (on_message (Sample.message "the cat sat")) (Sample.at_time 1003))))
  = [(1009, 1)] /\
  yielded (fst (run (Sample.env_with_blocks Sample.cat_dog [(2, 1)] id)
                  (highlights (Sample.message "the cat sat")) (Sample.at_time 1003)))
  = [].
Proof.
  split.
  - intros env message w.
    destruct (highlights_outcome env message w)
      as (ys & Hy & [-> | (matches & _ & _ & Hfirst)]).
    { exists []. split; [exact Hy |]. intros u h []%elem_of_nil. }
    exists ys. split; [exact Hy |]. intros u h Hin.
    destruct (Hfirst u h Hin) as (_ & _ & o & _ & Ho & Hs & _).
    exists o. split; [exact Ho |]. unfold survivor in Hs.
    destruct (bool_decide _) eqn:Eb; [discriminate |].
    apply bool_decide_eq_false in Eb.
    destruct (resolved env o) as [e | u']; [discriminate |].
    destruct (user_eqb u' (author message)); [discriminate |].
    injection Hs as ->. split; [reflexivity | exact Eb].
  - split; [apply list_elem_of_here |]. vm_compute. repeat split; reflexivity.
Qed.

(** ** Users who are present *)

Lemma run_notify_cases (env : Env) (user : User) (highlight : string)
    (message : Message) (w : World) :
  run env (notify user highlight message) w
  = run env (deliver user highlight message)
      (if now w - created_at message <? NEW_MESSAGES_TIMEOUT
       then wake env (NEW_MESSAGES_TIMEOUT - (now w - created_at message)) w
       else w).
Proof.
  unfold notify. simpl.
  destruct (now w - created_at message <? NEW_MESSAGES_TIMEOUT); reflexivity.
Qed.

Lemma lookup_leaves_the_world (env : Env) (a : action) (w : World) :
  is_lookup a -> yielding a = None -> fst (perform env a w) = w.
Proof. destruct a; simpl; intros [] E; try reflexivity. discriminate E. Qed.

Section Present.
Context (env : Env) (message : Message) (a : Z) (t_end : Z) (sent : list Delivery).
Context (Hheld : lease_held_until env (channel message, a) t_end).

Abbreviation inv := (undisturbed (channel message, a) a t_end sent).

Lemma undisturbed_wake (delay : Z) (w : World) : inv w -> inv (wake env delay w).
Proof.
  intros [Hp Ho]. split; simpl; [| exact Ho].
  intros Ht. apply Hheld; [| exact Ht]. apply Hp. lia.
Qed.

Lemma undisturbed_deliver (user : User) (highlight : string) (w : World) :
  inv w -> (user_id user = a -> t_end <= now w) ->
  inv (fst (run env (deliver user highlight message) w)).
Proof.
  intros [Hp Ho] Hu.
  destruct (resume_deliver env user highlight message w)
    as (w' & r & _ & -> & Hn & Hc & Hd).
  simpl. split.
  - rewrite Hn, Hc. exact Hp.
  - intros d [Hin | [Ht Hr]]%Hd Ha; [by apply Ho |].
    right. rewrite Ht. apply Hu. by rewrite <- Hr.
Qed.

Lemma undisturbed_notify (user : User) (highlight : string) (w : World) :
  inv w -> (user_id user = a -> t_end <= now w) ->
  inv (fst (run env (notify user highlight message) w)).
Proof.
  intros Hi Hu. rewrite run_notify_cases.
  destruct (now w - created_at message <? NEW_MESSAGES_TIMEOUT).
  - apply undisturbed_deliver; [by apply undisturbed_wake |].
    intros Ha. specialize (Hu Ha). simpl. lia.
  - by apply undisturbed_deliver.
Qed.

(** The body of the loop of [on_message] notifies the user only when its
    key is not in the counter, hence not while the lease is held. *)
Lemma undisturbed_body (x : User * string) (w : World) :
  inv w -> inv (fst (run env (on_message_body message x) w)).
Proof.
  intros Hi. destruct x as [user highlight]. unfold on_message_body.
  unbind. rewrite run_bind.
  change (run env (call get_recently_spoken) w) with (w, Ok (recently_spoken w)).
  unfold Ok. cbv iota beta.
  destruct (PositiveCounter.contains _ _) eqn:Ec; simpl; [exact Hi |].
  apply undisturbed_notify; [exact Hi |].
  intros Ha. rewrite Ha in Ec. destruct Hi as [Hp _].
  destruct (Z.lt_ge_cases (now w) t_end) as [Hlt | Hge]; [| exact Hge].
  rewrite (Hp Hlt) in Ec. discriminate.
Qed.

Lemma undisturbed_async_for {A : Type} (gen : task A) :
  all_actions is_lookup gen ->
  forall w, inv w -> inv (fst (run env (async_for gen (on_message_body message)) w)).
Proof.
  induction 1 as [r | e | act k Ha Hk IH]; intros w Hi; simpl; try exact Hi.
  destruct (yielding act) as [[x r] |] eqn:Ey.
  - unbind. rewrite run_bind.
    pose proof (undisturbed_body x w Hi) as Hb.
    destruct (run env (on_message_body message x) w) as [w1 [e | []]]; simpl in Hb.
    + exact Hb.
    + by apply IH.
  - simpl. destruct (is_lookup_quiet env act w Ha) as [-> _].
    pose proof (lookup_leaves_the_world env act w Ha Ey) as E.
    destruct (perform env act w) as [w' r]. simpl in E. subst w'. by apply IH.
Qed.

Lemma undisturbed_on_message (w : World) :
  inv w -> inv (fst (run env (on_message message) w)) \/
           outbox (fst (run env (on_message message) w)) = outbox w \/
           exists w1, inv w1 /\ outbox (fst (run env (on_message message) w)) = outbox w1.
Proof.
  intros Hi. unfold on_message.
  destruct (guild message); [| by left].
  unbind. rewrite run_bind.
  change (run env (call (should_reply message)) w)
    with (w, Ok (bot_should_reply env message)).
  unfold Ok. cbv iota beta.
  destruct (negb (bot_should_reply env message)); [by left |].
  rewrite run_bind.
  pose proof (undisturbed_async_for (highlights message) (highlights_lookups message) w Hi)
    as H1.
  destruct (run env (async_for (highlights message) (on_message_body message)) w)
    as [w1 [e | []]]; simpl in H1; [by left |].
  destruct (run_track_spoken env (channel message, user_id (author message))
              LAST_SPOKEN_CUTOFF w1) as (w2 & -> & _ & Ho).
  right. right. exists w1. auto.
Qed.

End Present.

(** ** Results of the scan *)

Section RunLookups.
Context (env : Env).

(** A generator that only looks things up yields the same results, and ends
    the same way, in whatever world it runs. *)
Lemma run_lookups {A : Type} (gen : task A) :
  all_actions is_lookup gen ->
  exists ys r, forall w, run env gen w = (with_yields w ys, r).
Proof.
  induction 1 as [a | e | a k Ha Hk IH].
  - exists [], (Ok a). intros [n c o y]. unfold with_yields. simpl. by rewrite app_nil_r.
  - exists [], (Err e). intros [n c o y]. unfold with_yields. simpl. by rewrite app_nil_r.
  - destruct a; try destruct Ha; simpl.
    + destruct (IH (db_channel_highlights (store env) ch)) as (ys & r & H). eauto.
    + destruct (IH (db_blocks (store env) user)) as (ys & r & H). eauto.
    + destruct (IH (bot_get_user env user)) as (ys & r & H). eauto.
    + destruct (IH (bot_get_user_info env user)) as (ys & r & H). eauto.
    + destruct (IH (set_order env keys0)) as (ys & r & H). eauto.
    + destruct (IH tt) as (ys & r & H). exists (x :: ys), r. intros w.
      rewrite H. unfold with_yields, log_yield. simpl. by rewrite <- app_assoc.
Qed.

(** An invariant of the world that the body of the loop keeps is kept by the
    loop over a generator of lookups. *)
Lemma async_for_invariant {A : Type} (inv : World -> Prop) (gen : task A)
    (body : User * string -> task unit) :
  all_actions is_lookup gen ->
  (forall x w, inv w -> inv (fst (run env (body x) w))) ->
  forall w, inv w -> inv (fst (run env (async_for gen body) w)).
Proof.
  intros Hgen Hbody.
  induction Hgen as [r | e | act k Ha Hk IH]; intros w Hi; simpl; try exact Hi.
  destruct (yielding act) as [[x r] |] eqn:Ey.
  - unbind. rewrite run_bind.
    pose proof (Hbody x w Hi) as Hb.
    destruct (run env (body x) w) as [w1 [e | []]]; simpl in Hb; [exact Hb | by apply IH].
  - simpl. destruct (is_lookup_quiet env act w Ha) as [-> _].
    pose proof (lookup_leaves_the_world env act w Ha Ey) as E.
    destruct (perform env act w) as [w' r]. simpl in E. subst w'. by apply IH.
Qed.

End RunLookups.

(** C9, as stated, fails. The scan does not look at the counter: it yields
    the result for user 1 while user 1 holds a lease on the channel. And a
    message posted while the lease is held can still bring a notification:
    user 1 holds a lease until 1005 when a message with the triggers of
    user 3 and of user 1 is posted at 1000; the handler waits out the settle
    window for user 3, comes to the result of user 1 at 1009, finds the
    lease gone and notifies user 1 of the message. *)
Lemma present_user_is_matched_and_notified_late :
  yielded (fst (run (Sample.env_with_blocks Sample.cat_dog [] id)
                  (highlights (Sample.message "the cat sat"))
                  (Sample.with_lease 1000 (7, 1))))
  = [(Sample.user 1, "cat"%string)] /\
  present_after (Sample.env_with_blocks Sample.cat_dog [] id) 10 1004 (7, 1)
    (spawn (Sample.env_with_blocks Sample.cat_dog [] id) (_track_spoken (7, 1) 5)
       (idle 1000))
  = Some true /\
  match run_until (Sample.env_with_blocks Sample.cat_dog [] id) 10 1020
          (spawn (Sample.env_with_blocks Sample.cat_dog [] id)
             (on_message (Sample.message "the dog and the cat"))
             (spawn (Sample.env_with_blocks Sample.cat_dog [] id)
                (_track_spoken (7, 1) 5) (idle 1000))) with
  | Some l =>
      map (fun d => (sent_at d, user_id (recipient d))) (outbox (world l))
      = [(1009, 3); (1009, 1)]
  | None => False
  end.
Proof. vm_compute. repeat split; reflexivity. Qed.

(** C9, amended. The presence test is made by [on_message], for each result
    of the scan when it comes to it; the scan itself yields the same results
    whatever the counter holds. At a moment the key of user [a] is in the
    counter the body of the loop of [on_message] does nothing for a result
    of [a] (no job is started). Hence, while [a] holds a lease on the channel
    of a message and until that lease runs out at [t_end], every delivery to
    [a] that the handler attempts is stamped [t_end] or later. *)
Theorem present_user_is_not_notified
    (env : Env) (message : Message) (a : Z) (t_end : Z) (w : World) :
  PositiveCounter.contains (channel message, a) (recently_spoken w) = true ->
  lease_held_until env (channel message, a) t_end ->
  (forall u h, user_id u = a ->
     run env (on_message_body message (u, h)) w = (w, Ok tt)) /\
  (forall d, d ∈ outbox (fst (run env (on_message message) w)) ->
     user_id (recipient d) = a -> d ∈ outbox w \/ t_end <= sent_at d) /\
  (forall c,
     yielded (fst (run env (highlights message) (set_spoken c w)))
     = yielded (fst (run env (highlights message) w))).
Proof.
  intros Hc Hheld. split; [| split].
  - intros u h Hu. unfold on_message_body. simpl. rewrite Hu, Hc. reflexivity.
  - assert (Hi : undisturbed (channel message, a) a t_end (outbox w) w).
    { split; [intros _; exact Hc | auto]. }
    destruct (undisturbed_on_message env message a t_end (outbox w) Hheld w Hi)
      as [[_ H] | [-> | (w1 & [_ H] & ->)]]; auto.
  - intros c.
    destruct (run_lookups env (highlights message) (highlights_lookups message))
      as (ys & r & Hrun).
    by rewrite !Hrun.
Qed.

Lemma present_user_is_not_notified_witness :
  run (Sample.env Sample.cat_dog id)
    (on_message_body (Sample.message "the cat sat") (Sample.user 1, "cat"%string))
    (Sample.with_lease 1003 (7, 1))
  = (Sample.with_lease 1003 (7, 1), Ok tt) /\
  outbox (fst (run (Sample.env Sample.cat_dog id)
                 (on_message (Sample.message "the cat sat"))
                 (Sample.with_lease 1003 (7, 1))))
  = [] /\
  forall d,
    d ∈ outbox (fst (run (Sample.env Sample.cat_dog id)
                       (on_message (Sample.message "the dog and the cat"))
                       (Sample.with_lease 1003 (7, 1)))) ->
    user_id (recipient d) = 1 -> 2000 <= sent_at d.
Proof.
  assert (Hc : forall text,
             PositiveCounter.contains (channel (Sample.message text), 1)
               (recently_spoken (Sample.with_lease 1003 (7, 1))) = true)
    by (intros; reflexivity).
  assert (Hh : forall text,
             lease_held_until (Sample.env Sample.cat_dog id)
               (channel (Sample.message text), 1) 2000)
    by (intros text t t' c H _; exact H).
  split; [| split].
  - apply (present_user_is_not_notified (Sample.env Sample.cat_dog id)
             (Sample.message "the cat sat") 1 2000 (Sample.with_lease 1003 (7, 1))
             (Hc _) (Hh _)).
    reflexivity.
  - vm_compute. reflexivity.
  - intros d Hd Hr.
    destruct (present_user_is_not_notified (Sample.env Sample.cat_dog id)
                (Sample.message "the dog and the cat") 1 2000
                (Sample.with_lease 1003 (7, 1)) (Hc _) (Hh _)) as (_ & H & _).
    destruct (H d Hd Hr) as [Hin | Hge]; [| exact Hge].
    simpl in Hin. by apply elem_of_nil in Hin.
Defined.

(** ** Overlapping leases *)

Section Timers.
Context {T : Type}.

Lemma pop_earliest_None (q : list (Z * T)) : pop_earliest q = None -> q = [].
Proof.
  destruct q as [| x q]; [reflexivity |]. simpl.
  destruct (pop_earliest q) as [[y rest] |]; [| discriminate].
  destruct (fst x <=? fst y); discriminate.
Qed.

(** [pop_earliest] takes out one timer, and none of the others is due
    before it. *)
Lemma pop_earliest_Some (q : list (Z * T)) (x : Z * T) (rest : list (Z * T)) :
  pop_earliest q = Some (x, rest) ->
  (forall y, y ∈ q <-> y = x \/ y ∈ rest) /\
  (forall y, y ∈ q -> fst x <= fst y) /\
  length q = S (length rest).
Proof.
  revert x rest. induction q as [| x0 q IH]; intros x rest; simpl; [discriminate |].
  destruct (pop_earliest q) as [[y r] |] eqn:E.
  - destruct (IH y r eq_refl) as (Hin & Hmin & Hlen).
    destruct (fst x0 <=? fst y) eqn:Ele; intros [= <- <-].
    + split; [intros z; apply elem_of_cons |]. split; [| reflexivity].
      intros z [-> | Hz]%elem_of_cons; [lia |].
      specialize (Hmin z Hz). lia.
    + split; [| split].
      * intros z. rewrite !elem_of_cons, Hin. tauto.
      * intros z [-> | Hz]%elem_of_cons; [lia | by apply Hmin].
      * simpl. by rewrite Hlen.
  - apply pop_earliest_None in E. subst q. intros [= <- <-].
    split; [intros z; apply elem_of_cons |]. split; [| reflexivity].
    intros z [-> | []%elem_of_nil]%elem_of_cons. lia.
Qed.

Lemma pop_earliest_map {U : Type} (f : T -> U) (q : list (Z * T)) :
  pop_earliest (map (fun p => (fst p, f (snd p))) q)
  = match pop_earliest q with
    | Some (x, rest) =>
        Some ((fst x, f (snd x)), map (fun p => (fst p, f (snd p))) rest)
    | None => None
    end.
Proof.
  induction q as [| x q IH]; [reflexivity |]. simpl. rewrite IH.
  destruct (pop_earliest q) as [[y rest] |]; [| reflexivity]. simpl.
  destruct (fst x <=? fst y); reflexivity.
Qed.

End Timers.

Section Counting.

Lemma outstanding_nonneg (key : Key) (p : list (Z * Key)) : 0 <= outstanding key p.
Proof. unfold outstanding. lia. Qed.

Lemma outstanding_cons (key : Key) (x : Z * Key) (p : list (Z * Key)) :
  outstanding key (x :: p)
  = outstanding key p + (if bool_decide (snd x = key) then 1 else 0).
Proof.
  unfold outstanding. simpl. destruct (bool_decide (snd x = key)); simpl; lia.
Qed.

Lemma outstanding_snoc (key : Key) (x : Z * Key) (p : list (Z * Key)) :
  outstanding key (p ++ [x])
  = outstanding key p + (if bool_decide (snd x = key) then 1 else 0).
Proof.
  unfold outstanding. rewrite List.filter_app, length_app. simpl.
  destruct (bool_decide (snd x = key)); simpl; lia.
Qed.

Lemma outstanding_pos (key : Key) (p : list (Z * Key)) :
  0 < outstanding key p <-> exists y, y ∈ p /\ snd y = key.
Proof.
  induction p as [| x p IH].
  - split; [unfold outstanding; simpl; lia |].
    intros (y & []%elem_of_nil & _).
  - rewrite outstanding_cons. pose proof (outstanding_nonneg key p) as Hn.
    destruct (bool_decide (snd x = key)) eqn:E.
    + apply bool_decide_eq_true in E. split; [| lia].
      intros _. exists x. split; [apply list_elem_of_here | exact E].
    + apply bool_decide_eq_false in E. rewrite Z.add_0_r, IH.
      split; intros (y & Hy & Hk).
      * exists y. split; [by apply list_elem_of_further | exact Hk].
      * apply elem_of_cons in Hy as [-> | Hy]; [done | eauto].
Qed.

Lemma outstanding_pop (key : Key) (p : list (Z * Key)) (x : Z * Key)
    (rest : list (Z * Key)) :
  pop_earliest p = Some (x, rest) ->
  outstanding key p
  = outstanding key rest + (if bool_decide (snd x = key) then 1 else 0).
Proof.
  revert x rest. induction p as [| x0 p IH]; intros x rest; simpl; [discriminate |].
  destruct (pop_earliest p) as [[y r] |] eqn:E.
  - destruct (fst x0 <=? fst y); intros [= <- <-].
    + apply outstanding_cons.
    + rewrite !outstanding_cons, (IH y r eq_refl). lia.
  - apply pop_earliest_None in E. subst p. intros [= <- <-].
    apply outstanding_cons.
Qed.

Lemma counts_getitem (c : gmap (Z * Z) Z) (p : list (Z * Key)) (key : Key) :
  counts c p -> PositiveCounter.getitem key c = outstanding key p.
Proof.
  intros H. unfold PositiveCounter.getitem. rewrite (H key).
  destruct (outstanding key p =? 0) eqn:E; [lia | reflexivity].
Qed.

Lemma counts_contains (c : gmap (Z * Z) Z) (p : list (Z * Key)) (key : Key) :
  counts c p ->
  PositiveCounter.contains key c = true <-> exists y, y ∈ p /\ snd y = key.
Proof.
  intros H. rewrite <- outstanding_pos. unfold PositiveCounter.contains.
  rewrite (H key). pose proof (outstanding_nonneg key p).
  destruct (outstanding key p =? 0) eqn:E; split; intros; try done; lia.
Qed.

Lemma counts_incr (c c' : gmap (Z * Z) Z) (p : list (Z * Key)) (key : Key) (t : Z) :
  counts c p -> PositiveCounter.incr key c = Ok c' -> counts c' (p ++ [(t, key)]).
Proof.
  intros H. unfold PositiveCounter.incr.
  rewrite setitem_spec, (counts_getitem c p key H).
  pose proof (outstanding_nonneg key p) as Hn.
  destruct (0 <? outstanding key p + 1) eqn:E; [| lia].
  intros [= <-] key'. rewrite outstanding_snoc. simpl.
  destruct (bool_decide (key = key')) eqn:Ek.
  - apply bool_decide_eq_true in Ek. subst key'. rewrite lookup_insert_eq.
    destruct (outstanding key p + 1 =? 0) eqn:E0; [lia | reflexivity].
  - apply bool_decide_eq_false in Ek. rewrite lookup_insert_ne by exact Ek.
    rewrite Z.add_0_r. apply H.
Qed.

Lemma counts_decr (c c' : gmap (Z * Z) Z) (p rest : list (Z * Key)) (x : Z * Key) :
  counts c p -> pop_earliest p = Some (x, rest) ->
  PositiveCounter.decr (snd x) c = Ok c' -> counts c' rest.
Proof.
  intros H Hp. unfold PositiveCounter.decr.
  rewrite setitem_spec, (counts_getitem c p (snd x) H).
  intros [= <-] key'.
  pose proof (outstanding_pop key' p x rest Hp) as Hk.
  pose proof (outstanding_pop (snd x) p x rest Hp) as Hx.
  rewrite bool_decide_eq_true_2 in Hx by reflexivity.
  pose proof (outstanding_nonneg (snd x) rest) as Hn.
  destruct (bool_decide (snd x = key')) eqn:Ek.
  - apply bool_decide_eq_true in Ek. subst key'. rewrite Hx.
    replace (outstanding (snd x) rest + 1 - 1) with (outstanding (snd x) rest) by lia.
    destruct (0 <? outstanding (snd x) rest) eqn:E.
    + rewrite lookup_insert_eq.
      destruct (outstanding (snd x) rest =? 0) eqn:E0; [lia | reflexivity].
    + rewrite lookup_delete_eq.
      destruct (outstanding (snd x) rest =? 0) eqn:E0; [reflexivity | lia].
  - apply bool_decide_eq_false in Ek. rewrite Z.add_0_r in Hk. rewrite <- Hk.
    destruct (0 <? _).
    + rewrite lookup_insert_ne by exact Ek. apply H.
    + rewrite lookup_delete_ne by exact Ek. apply H.
Qed.

End Counting.

Section EventLoop.
Context (env : Env).

Lemma run_until_unfold (fuel : nat) (t : Z) (l : Loop) :
  run_until env fuel t l
  = match pop_earliest (timers l) with
    | Some ((wake_at, k), rest) =>
        if wake_at <=? t then
          match fuel with
          | O => None
          | S fuel' =>
              run_until env fuel' t
                (spawn env k {| world := set_clock wake_at (world l); timers := rest |})
          end
        else Some {| world := set_clock t (world l); timers := timers l |}
    | None => Some {| world := set_clock t (world l); timers := timers l |}
    end.
Proof. destruct fuel; reflexivity. Qed.

(** Waking a lease decrements its key and leaves the other timers. *)
Lemma spawn_decr (key : Key) (w : World) (q : list (Z * task unit))
    (c' : gmap (Z * Z) Z) :
  PositiveCounter.decr key (recently_spoken w) = Ok c' ->
  spawn env (spoken_decr key) {| world := w; timers := q |}
  = {| world := set_spoken c' w; timers := q |}.
Proof.
  intros E. unfold spawn. simpl world.
  rewrite (resume_spoken_decr env key w c' E). reflexivity.
Qed.

(** Starting a lease increments its key and sets its timer. *)
Lemma spawn_track (key : Key) (delay : Z) (l : Loop) (p : list (Z * Key)) :
  tracks l p ->
  tracks (spawn env (_track_spoken key delay) l)
    (p ++ [(now (world l) + Z.max 0 delay, key)]) /\
  now (world (spawn env (_track_spoken key delay) l)) = now (world l).
Proof.
  intros [Ht Hc].
  destruct (incr_total key (recently_spoken (world l))) as [c' E].
  unfold spawn. rewrite (resume_track_spoken env key delay (world l) c' E).
  split; [| reflexivity]. split; simpl.
  - rewrite Ht. unfold lease_timers. by rewrite map_app.
  - by eapply counts_incr.
Qed.

(** Letting time pass until [t] wakes exactly the leases due by [t]. *)
Lemma run_until_tracks (t : Z) (fuel : nat) :
  forall (p : list (Z * Key)) (l : Loop),
    tracks l p -> (length p <= fuel)%nat ->
    exists l' p',
      run_until env fuel t l = Some l' /\
      tracks l' p' /\
      now (world l') = Z.max (now (world l)) t /\
      (forall y, y ∈ p' <-> y ∈ p /\ t < fst y) /\
      (length p' <= length p)%nat.
Proof.
  induction fuel as [| fuel IH]; intros p l [Ht Hc] Hlen;
    rewrite run_until_unfold, Ht; unfold lease_timers; rewrite pop_earliest_map.
  - destruct p; [| simpl in Hlen; lia]. simpl.
    eexists; exists []. split; [reflexivity |]. split; [split; [reflexivity | exact Hc] |].
    split; [reflexivity |]. split; [| reflexivity].
    intros y. split; [intros []%elem_of_nil | intros [[]%elem_of_nil _]].
  - destruct (pop_earliest p) as [[x rest] |] eqn:Ep.
    + destruct (pop_earliest_Some p x rest Ep) as (Hin & Hmin & Hl).
      cbn [fst snd]. destruct (fst x <=? t) eqn:Ele.
      * destruct (decr_total (snd x) (recently_spoken (world l))) as [c' Ed].
        rewrite (spawn_decr (snd x) (set_clock (fst x) (world l)) _ c' Ed).
        destruct (IH rest {| world := set_spoken c' (set_clock (fst x) (world l));
                             timers := lease_timers rest |})
          as (l' & p' & Hr & Htr & Hnow & Hmem & Hlen').
        { split; [reflexivity |]. simpl. by eapply counts_decr. }
        { lia. }
        exists l', p'. split; [exact Hr |]. split; [exact Htr |].
        split; [simpl in Hnow; lia |]. split; [| lia].
        intros y. rewrite Hmem, Hin. split; [tauto |].
        intros [[-> | Hy] Hlt]; [lia | tauto].
      * eexists; exists p. split; [reflexivity |].
        split; [split; [reflexivity | exact Hc] |].
        split; [reflexivity |]. split; [| reflexivity].
        intros y. split; [| tauto]. intros Hy. split; [exact Hy |].
        specialize (Hmin y Hy). lia.
    + apply pop_earliest_None in Ep. subst p.
      eexists; exists []. split; [reflexivity |]. split; [split; [reflexivity | exact Hc] |].
      split; [reflexivity |]. split; [| reflexivity].
      intros y. split; [intros []%elem_of_nil | intros [[]%elem_of_nil _]].
Qed.

(** Serving requests in the order of their times leaves the timers of
    those among them that are not due yet. *)
Lemma serve_tracks (t : Z) (reqs : list Lease) :
  forall (fuel : nat) (l : Loop) (p : list (Z * Key)),
    tracks l p ->
    chronological (now (world l)) reqs ->
    (forall r, r ∈ reqs -> lease_time r <= t) ->
    (length p + length reqs <= fuel)%nat ->
    exists l' p',
      serve env fuel reqs l = Some l' /\
      tracks l' p' /\
      (forall y, y ∈ p' -> y ∈ p \/ y ∈ map timer_of reqs) /\
      (forall y, y ∈ p \/ y ∈ map timer_of reqs -> t < fst y -> y ∈ p') /\
      (length p' <= length p + length reqs)%nat.
Proof.
  induction reqs as [| r reqs IH]; intros fuel l p Htr Hch Hle Hfuel.
  - exists l, p. simpl. split; [reflexivity |]. split; [exact Htr |].
    split; [auto |]. split; [| lia].
    intros y [Hy | []%elem_of_nil] _. exact Hy.
  - destruct Hch as [Hnow Hch]. simpl in Hfuel.
    destruct (run_until_tracks (lease_time r) fuel p l Htr) as
      (l1 & p1 & Hr1 & Htr1 & Hn1 & Hm1 & Hl1); [lia |].
    cbn [serve]. rewrite Hr1.
    destruct (spawn_track (lease_key r) (lease_delay r) l1 p1 Htr1) as [Htr2 Hn2].
    replace (now (world l1)) with (lease_time r) in Htr2, Hn2 by lia.
    destruct (IH fuel _ _ Htr2) as (l' & p' & Hr & Htr' & Hs & Hc & Hl').
    { by rewrite Hn2. }
    { intros r' Hr'. by apply Hle, list_elem_of_further. }
    { rewrite length_app. simpl. lia. }
    exists l', p'. split; [exact Hr |]. split; [exact Htr' |].
    split; [| split].
    + intros y [Hy | Hy]%Hs.
      * apply elem_of_app in Hy as [Hy | ->%list_elem_of_singleton].
        -- left. by apply Hm1.
        -- right. apply list_elem_of_here.
      * right. simpl. by apply list_elem_of_further.
    + intros y Hy Hlt. apply Hc; [| exact Hlt].
      destruct Hy as [Hy | Hy].
      * left. apply elem_of_app. left. apply Hm1. split; [exact Hy |].
        specialize (Hle r (list_elem_of_here _ _)). lia.
      * simpl in Hy. apply elem_of_cons in Hy as [-> | Hy]; [| by right].
        left. apply elem_of_app. right. by apply list_elem_of_singleton.
    + rewrite length_app in Hl'. simpl in Hl' |- *. lia.
Qed.

Lemma chronological_weaken (t0 t1 : Z) (reqs : list Lease) :
  t0 <= t1 -> chronological t1 reqs -> chronological t0 reqs.
Proof. destruct reqs; simpl; [auto |]. intros H [H1 H2]. split; [lia | exact H2]. Qed.

Lemma chronological_issued (t t0 : Z) (reqs : list Lease) :
  chronological t0 reqs -> chronological t0 (issued_by t reqs).
Proof.
  revert t0. induction reqs as [| r reqs IH]; intros t0; simpl; [auto |].
  intros [H1 H2]. destruct (lease_time r <=? t); simpl.
  - split; [exact H1 | by apply IH].
  - apply IH. by apply (chronological_weaken _ (lease_time r)).
Qed.

Lemma issued_by_spec (t : Z) (reqs : list Lease) (r : Lease) :
  r ∈ issued_by t reqs <-> r ∈ reqs /\ lease_time r <= t.
Proof.
  unfold issued_by. rewrite !list_elem_of_In, filter_In, Z.leb_le. reflexivity.
Qed.

Lemma issued_by_length (t : Z) (reqs : list Lease) :
  (length (issued_by t reqs) <= length reqs)%nat.
Proof.
  induction reqs as [| r reqs IH]; simpl; [lia |].
  destruct (lease_time r <=? t); simpl; lia.
Qed.

Lemma elem_of_timers (y : Z * Key) (reqs : list Lease) :
  y ∈ map timer_of reqs <-> exists r, r ∈ reqs /\ y = timer_of r.
Proof.
  rewrite list_elem_of_In, in_map_iff.
  split; intros (r & H1 & H2); exists r; rewrite ?list_elem_of_In in *; auto.
Qed.

End EventLoop.

(** C7, as stated, fails for the window that the last message of the user
    began: a message posted at 1000 keeps its author present until 1010;
    when the author starts typing at 1008, the typing event takes a lease of
    ten seconds and the author stays present until 1018. *)
Lemma typing_extends_the_message_window :
  present_after (Sample.env [] id) 5 1009 (7, 2)
    (spawn (Sample.env [] id) (on_message (Sample.message "hello")) (idle 1000))
  = Some true /\
  present_after (Sample.env [] id) 5 1010 (7, 2)
    (spawn (Sample.env [] id) (on_message (Sample.message "hello")) (idle 1000))
  = Some false /\
  match run_until (Sample.env [] id) 5 1008
          (spawn (Sample.env [] id) (on_message (Sample.message "hello")) (idle 1000)) with
  | Some l =>
      present_after (Sample.env [] id) 5 1010 (7, 2)
        (spawn (Sample.env [] id) (on_typing 7 (Sample.user 2) 1008) l) = Some true /\
      present_after (Sample.env [] id) 5 1017 (7, 2)
        (spawn (Sample.env [] id) (on_typing 7 (Sample.user 2) 1008) l) = Some true /\
      present_after (Sample.env [] id) 5 1018 (7, 2)
        (spawn (Sample.env [] id) (on_typing 7 (Sample.user 2) 1008) l) = Some false
  | None => False
  end.
Proof. vm_compute. repeat split; reflexivity. Qed.

(** C7, amended. A typing event that arrives [e] seconds after the typing
    started, with [e] below the cutoff, takes the lease [_track_spoken]
    would take for [cutoff - e] seconds: the key is incremented at once and
    the decrement is due at [when + cutoff], ten seconds after the typing
    started. On a loop of leases the key is then in the counter at every
    time before [when + cutoff], and from [when + cutoff] on only as long as
    another lease holds it: the typing event keeps the user present until
    the window that began with the typing ends, and no longer. With [e] at
    or above the cutoff nothing happens: the handler is over at once in an
    unchanged world. *)
Theorem typing_leases_the_rest_of_the_window
    (env : Env) (channel : Z) (user : User) (when : Z) :
  (forall w, now w - when < LAST_SPOKEN_CUTOFF ->
     resume env (on_typing channel user when) w
     = resume env (_track_spoken (channel, user_id user)
                     (LAST_SPOKEN_CUTOFF - (now w - when))) w /\
     exists c',
       PositiveCounter.incr (channel, user_id user) (recently_spoken w) = Ok c' /\
       resume env (on_typing channel user when) w
       = (set_spoken c' w,
          Suspended (when + LAST_SPOKEN_CUTOFF) (spoken_decr (channel, user_id user)))) /\
  (forall w, LAST_SPOKEN_CUTOFF <= now w - when ->
     resume env (on_typing channel user when) w = (w, Finished (Ok tt))) /\
  (forall l p fuel,
     tracks l p -> (length p < fuel)%nat ->
     now (world l) - when < LAST_SPOKEN_CUTOFF ->
     tracks (spawn env (on_typing channel user when) l)
       (p ++ [(when + LAST_SPOKEN_CUTOFF, (channel, user_id user))]) /\
     forall t, now (world l) <= t ->
       exists b,
         present_after env fuel t (channel, user_id user)
           (spawn env (on_typing channel user when) l) = Some b /\
         (b = true <->
          t < when + LAST_SPOKEN_CUTOFF \/
          exists y, y ∈ p /\ snd y = (channel, user_id user) /\ t < fst y)).
Proof.
  assert (Hresume : forall w, now w - when < LAST_SPOKEN_CUTOFF ->
            resume env (on_typing channel user when) w
            = resume env (_track_spoken (channel, user_id user)
                            (LAST_SPOKEN_CUTOFF - (now w - when))) w).
  { intros w H. unfold on_typing. simpl.
    destruct (now w - when <? LAST_SPOKEN_CUTOFF) eqn:E; [reflexivity | lia]. }
  split; [| split].
  - intros w H. split; [by apply Hresume |].
    destruct (incr_total (channel, user_id user) (recently_spoken w)) as [c' Hc].
    exists c'. split; [exact Hc |].
    rewrite (Hresume w H), (resume_track_spoken env _ _ w c' Hc). do 2 f_equal. lia.
  - intros w H. unfold on_typing. simpl.
    destruct (now w - when <? LAST_SPOKEN_CUTOFF) eqn:E; [lia | reflexivity].
  - intros l p fuel Htr Hfuel H.
    assert (Hspawn : spawn env (on_typing channel user when) l
                     = spawn env (_track_spoken (channel, user_id user)
                                    (LAST_SPOKEN_CUTOFF - (now (world l) - when))) l).
    { unfold spawn. by rewrite (Hresume (world l) H). }
    rewrite Hspawn.
    destruct (spawn_track env (channel, user_id user)
                (LAST_SPOKEN_CUTOFF - (now (world l) - when)) l p Htr) as [Htr' _].
    replace (now (world l) + Z.max 0 (LAST_SPOKEN_CUTOFF - (now (world l) - when)))
      with (when + LAST_SPOKEN_CUTOFF) in Htr' by lia.
    split; [exact Htr' |]. intros t Ht. unfold present_after.
    destruct (run_until_tracks env t fuel _ _ Htr')
      as (l2 & p2 & -> & [_ Hcounts] & _ & Hm & _).
    { rewrite length_app. simpl. lia. }
    eexists. split; [reflexivity |].
    rewrite (counts_contains _ p2 _ Hcounts). split.
    + intros (y & [Hy Hlt]%Hm & Hk).
      apply elem_of_app in Hy as [Hy | ->%list_elem_of_singleton].
      * right. eauto.
      * left. exact Hlt.
    + intros [Hlt | (y & Hy & Hk & Hlt)].
      * exists (when + LAST_SPOKEN_CUTOFF, (channel, user_id user)).
        split; [| reflexivity]. apply Hm. split; [| exact Hlt].
        apply elem_of_app. right. by apply list_elem_of_singleton.
      * exists y. split; [| exact Hk]. apply Hm. split; [| exact Hlt].
        apply elem_of_app. by left.
Qed.

Lemma typing_leases_the_rest_of_the_window_witness :
  (exists c',
     PositiveCounter.incr (7, 2) PositiveCounter.empty = Ok c' /\
     resume (Sample.env [] id) (on_typing 7 (Sample.user 2) 1000) (Sample.at_time 1003)
     = (set_spoken c' (Sample.at_time 1003), Suspended 1010 (spoken_decr (7, 2)))) /\
  resume (Sample.env [] id) (on_typing 7 (Sample.user 2) 990) (Sample.at_time 1003)
  = (Sample.at_time 1003, Finished (Ok tt)) /\
  present_after (Sample.env [] id) 1 1009 (7, 2)
    (spawn (Sample.env [] id) (on_typing 7 (Sample.user 2) 1000) (idle 1003))
  = Some true /\
  present_after (Sample.env [] id) 1 1010 (7, 2)
    (spawn (Sample.env [] id) (on_typing 7 (Sample.user 2) 1000) (idle 1003))
  = Some false.
Proof.
  destruct (typing_leases_the_rest_of_the_window (Sample.env [] id) 7 (Sample.user 2) 1000)
    as (Hearly & _ & Hloop).
  destruct (typing_leases_the_rest_of_the_window (Sample.env [] id) 7 (Sample.user 2) 990)
    as (_ & Hlate & _).
  assert (Htr : tracks (idle 1003) []).
  { split; [reflexivity |]. intros k. reflexivity. }
  destruct (Hloop (idle 1003) [] 1%nat Htr) as [_ Hp].
  { simpl. lia. }
  { unfold LAST_SPOKEN_CUTOFF. simpl. lia. }
  split; [| split; [| split]].
  - destruct (Hearly (Sample.at_time 1003)) as [_ H];
      [unfold LAST_SPOKEN_CUTOFF; simpl; lia | exact H].
  - apply Hlate. unfold LAST_SPOKEN_CUTOFF. simpl. lia.
  - destruct (Hp 1009) as (b & Hr & Hb); [simpl; lia |].
    etransitivity; [exact Hr |].
    f_equal. apply Hb. left. unfold LAST_SPOKEN_CUTOFF. lia.
  - destruct (Hp 1010) as (b & Hr & Hb); [simpl; lia |].
    etransitivity; [exact Hr |].
    f_equal. destruct b; [| reflexivity].
    destruct Hb as [Hb _]. destruct (Hb eq_refl) as [Hlt | (y & []%elem_of_nil & _)].
    unfold LAST_SPOKEN_CUTOFF in Hlt. lia.
Defined.

(** C4. Let leases be requested in the order of their times, on whatever
    keys, and let the loop have fuel for as many wake-ups as there are
    requests. Then at every time [t] the loop answers whether [key] is in
    the counter, and the key is there exactly when [t] lies in the interval
    [[t_i, t_i + d_i)] of one of the requests on that key: the intervals
    compose by union, a lease that runs out does not clear the key while
    another one is outstanding, and the key is gone as soon as the last
    interval has ended. *)
Theorem presence_is_the_union_of_the_leases
    (env : Env) (fuel : nat) (t0 : Z) (reqs : list Lease) (key : Key) (t : Z) :
  chronological t0 reqs ->
  (length reqs <= fuel)%nat ->
  exists b,
    is_present_at env fuel t0 reqs key t = Some b /\
    (b = true <-> exists r, r ∈ reqs /\ lease_key r = key /\ covers t r).
Proof.
  intros Hch Hfuel. unfold is_present_at.
  pose proof (issued_by_length t reqs) as Hil.
  destruct (serve_tracks env t (issued_by t reqs) fuel (idle t0) [])
    as (l1 & p1 & -> & Htr1 & Hs & Hc & Hl1).
  { split; [reflexivity |]. intros k. reflexivity. }
  { by apply chronological_issued. }
  { intros r Hr. by apply issued_by_spec in Hr as [_ Hr]. }
  { simpl. lia. }
  destruct (run_until_tracks env t fuel p1 l1 Htr1) as (l2 & p2 & -> & Htr2 & _ & Hm & _).
  { simpl in Hl1. lia. }
  eexists. split; [reflexivity |].
  destruct Htr2 as [_ Hcounts]. rewrite (counts_contains _ p2 key Hcounts).
  unfold covers. split.
  - intros (y & [Hy Hlt]%Hm & Hk).
    destruct (Hs y Hy) as [[]%elem_of_nil | Hy'].
    apply elem_of_timers in Hy' as (r & [Hr Hrt]%issued_by_spec & ->).
    exists r. simpl in Hlt, Hk. split; [exact Hr |]. split; [exact Hk |]. lia.
  - intros (r & Hr & Hk & Hcov).
    exists (timer_of r). split; [| exact Hk].
    apply Hm. simpl. split; [| lia].
    apply Hc; [| simpl; lia].
    right. apply elem_of_timers. exists r. split; [| reflexivity].
    apply issued_by_spec. split; [exact Hr | lia].
Qed.

Lemma presence_is_the_union_of_the_leases_witness :
  is_present_at (Sample.env [] id) 2 0
    [{| lease_time := 1; lease_key := (7, 2); lease_delay := 10 |};
     {| lease_time := 4; lease_key := (7, 2); lease_delay := 10 |}] (7, 2) 12
  = Some true /\
  is_present_at (Sample.env [] id) 2 0
    [{| lease_time := 1; lease_key := (7, 2); lease_delay := 10 |};
     {| lease_time := 4; lease_key := (7, 2); lease_delay := 10 |}] (7, 2) 14
  = Some false.
Proof.
  assert (Hch : chronological 0
            [{| lease_time := 1; lease_key := (7, 2); lease_delay := 10 |};
             {| lease_time := 4; lease_key := (7, 2); lease_delay := 10 |}]).
  { simpl. lia. }
  split.
  - destruct (presence_is_the_union_of_the_leases (Sample.env [] id) 2 0 _ (7, 2) 12 Hch)
      as (b & -> & Hb); [simpl; lia |].
    f_equal. apply Hb.
    exists {| lease_time := 4; lease_key := (7, 2); lease_delay := 10 |}.
    split; [apply list_elem_of_further, list_elem_of_here |].
    split; [reflexivity |]. unfold covers. simpl. lia.
  - destruct (presence_is_the_union_of_the_leases (Sample.env [] id) 2 0 _ (7, 2) 14 Hch)
      as (b & -> & Hb); [simpl; lia |].
    f_equal. destruct b; [| reflexivity].
    destruct Hb as [Hb _]. destruct (Hb eq_refl) as (r & Hr & _ & Hcov).
    unfold covers in Hcov.
    apply elem_of_cons in Hr as [-> | Hr]; [simpl in Hcov; lia |].
    apply list_elem_of_singleton in Hr as ->. simpl in Hcov. lia.
Defined.

(** * Further properties *)

(** ** The counter, continued *)

Lemma getitem_other (key key' : Key) (count : Z) (c c' : gmap (Z * Z) Z) :
  key <> key' -> PositiveCounter.setitem key count c = Ok c' ->
  PositiveCounter.getitem key' c' = PositiveCounter.getitem key' c.
Proof.
  intros Hne. rewrite setitem_spec. intros [= <-]. unfold PositiveCounter.getitem.
  destruct (0 <? count).
  - by rewrite lookup_insert_ne.
  - by rewrite lookup_delete_ne.
Qed.

(** X1. On a counter that stores only positive counts, an increment of a
    key followed by a decrement of the same key gives back the counter as it
    was: a key that was absent is absent again, and no other key is touched. *)
Theorem increment_then_decrement_restores (key : Key) (c : gmap (Z * Z) Z) :
  PositiveCounter.positive c ->
  exists c1,
    PositiveCounter.incr key c = Ok c1 /\
    PositiveCounter.contains key c1 = true /\
    PositiveCounter.decr key c1 = Ok c.
Proof. apply incr_then_decr. Qed.

Lemma increment_then_decrement_restores_witness :
  exists c1,
    PositiveCounter.incr (7, 2) {[ (7, 3) := 2 ]} = Ok c1 /\
    PositiveCounter.contains (7, 2) c1 = true /\
    PositiveCounter.decr (7, 2) c1 = Ok {[ (7, 3) := 2 ]}.
Proof.
  apply (increment_then_decrement_restores (7, 2) {[ (7, 3) := 2 ]}).
  intros k n H. apply lookup_singleton_Some in H as [_ <-]. simpl. lia.
Defined.

Lemma setitem_commute (k1 k2 : Key) (n1 n2 : Z) (c : gmap (Z * Z) Z) :
  k1 <> k2 ->
  (if 0 <? n2 then <[k2 := n2]> (if 0 <? n1 then <[k1 := n1]> c else delete k1 c)
   else delete k2 (if 0 <? n1 then <[k1 := n1]> c else delete k1 c))
  = (if 0 <? n1 then <[k1 := n1]> (if 0 <? n2 then <[k2 := n2]> c else delete k2 c)
     else delete k1 (if 0 <? n2 then <[k2 := n2]> c else delete k2 c)).
Proof.
  intros Hne. destruct (0 <? n1), (0 <? n2).
  - by apply insert_insert_ne.
  - by rewrite delete_insert_ne.
  - by rewrite delete_insert_ne.
  - apply delete_delete.
Qed.

(** X2. Increments and decrements of different keys do not interfere: done
    in either order they leave the same counter. *)
Theorem operations_on_different_keys_commute
    (o1 o2 : PositiveCounter.op) (c : gmap (Z * Z) Z) :
  op_key o1 <> op_key o2 ->
  PositiveCounter.replay [o1; o2] c = PositiveCounter.replay [o2; o1] c.
Proof.
  intros Hne. simpl.
  assert (H : forall k1 k2 d1 d2, k1 <> k2 ->
    match PositiveCounter.setitem k1 (PositiveCounter.getitem k1 c + d1) c with
    | inl e => Err e
    | inr c' =>
        match PositiveCounter.setitem k2 (PositiveCounter.getitem k2 c' + d2) c' with
        | inl e => Err e
        | inr c'' => Ok c''
        end
    end
    = match PositiveCounter.setitem k2 (PositiveCounter.getitem k2 c + d2) c with
      | inl e => Err e
      | inr c' =>
          match PositiveCounter.setitem k1 (PositiveCounter.getitem k1 c' + d1) c' with
          | inl e => Err e
          | inr c'' => Ok c''
          end
      end).
  { intros k1 k2 d1 d2 Hk.
    destruct (PositiveCounter.setitem k1 _ c) as [e | c1] eqn:E1;
      [rewrite setitem_spec in E1; discriminate |].
    destruct (PositiveCounter.setitem k2 (PositiveCounter.getitem k2 c + d2) c)
      as [e | c2] eqn:E2; [rewrite setitem_spec in E2; discriminate |].
    rewrite (getitem_other k1 k2 _ c c1 Hk E1).
    rewrite (getitem_other k2 k1 _ c c2 (not_eq_sym Hk) E2).
    rewrite setitem_spec in E1, E2. injection E1 as <-. injection E2 as <-.
    rewrite !setitem_spec. unfold Ok. f_equal.
    by apply setitem_commute. }
  destruct o1 as [k1 | k1], o2 as [k2 | k2]; simpl in Hne;
    unfold PositiveCounter.incr, PositiveCounter.decr.
  - apply (H k1 k2 1 1 Hne).
  - apply (H k1 k2 1 (-1) Hne).
  - apply (H k1 k2 (-1) 1 Hne).
  - apply (H k1 k2 (-1) (-1) Hne).
Qed.

Lemma operations_on_different_keys_commute_witness :
  PositiveCounter.replay [PositiveCounter.Incr (7, 2); PositiveCounter.Decr (7, 3)]
    {[ (7, 3) := 1 ]}
  = PositiveCounter.replay [PositiveCounter.Decr (7, 3); PositiveCounter.Incr (7, 2)]
      {[ (7, 3) := 1 ]}.
Proof.
  apply (operations_on_different_keys_commute
           (PositiveCounter.Incr (7, 2)) (PositiveCounter.Decr (7, 3))).
  simpl. intros [= ?].
Defined.

(** ** The pattern, continued *)

Section Case.
Import Re.

Lemma lower_idempotent (c : ascii) : lower (lower c) = lower c.
Proof. destruct c as [[] [] [] [] [] [] [] []]; reflexivity. Qed.

Lemma is_word_lower (c : ascii) : is_word (lower c) = is_word c.
Proof. destruct c as [[] [] [] [] [] [] [] []]; reflexivity. Qed.

Lemma char_eq_lower (c x : ascii) :
  char_eq true c x = true <-> lower c = lower x.
Proof. unfold char_eq. apply Ascii.eqb_eq. Qed.

Lemma char_eq_same (c c' x : ascii) :
  lower c = lower c' -> char_eq true c x = char_eq true c' x.
Proof. intros H. unfold char_eq. by rewrite H. Qed.

(** Atoms that agree up to case match alike. *)
Lemma match_atoms_same (atoms atoms' : list atom) :
  Forall2 same_atom atoms atoms' ->
  forall prev s, match_atoms true atoms prev s = match_atoms true atoms' prev s.
Proof.
  induction 1 as [| a a' atoms atoms' Ha _ IH]; intros prev s; [reflexivity |].
  destruct a as [c |], a' as [c' |]; simpl in Ha; try done; cbn [match_atoms].
  - destruct s as [| x s]; [reflexivity |].
    rewrite (char_eq_same c c' x Ha), IH. reflexivity.
  - by rewrite IH.
Qed.

Lemma match_here_same (alts alts' : list (list atom)) :
  Forall2 (Forall2 same_atom) alts alts' ->
  forall prev s, match_here true alts prev s = match_here true alts' prev s.
Proof.
  induction 1 as [| a a' alts alts' Ha _ IH]; intros prev s; [reflexivity |].
  simpl. by rewrite (match_atoms_same a a' Ha), IH.
Qed.

Lemma scan_same (alts alts' : list (list atom)) :
  Forall2 (Forall2 same_atom) alts alts' ->
  forall s prev skip,
    scan {| ignorecase := true; alternatives := alts |} prev s skip
    = scan {| ignorecase := true; alternatives := alts' |} prev s skip.
Proof.
  intros H. induction s as [| c s IH]; intros prev skip.
  - destruct skip; simpl; [| reflexivity]. by rewrite (match_here_same alts alts' H).
  - destruct skip; simpl.
    + rewrite (match_here_same alts alts' H).
      destruct (match_here true alts' prev (c :: s)); by rewrite IH.
    + apply IH.
Qed.

Lemma lits_same (h h' : string) :
  same_ignoring_case h h' -> Forall2 same_atom (lits h) (lits h').
Proof.
  unfold same_ignoring_case, lits.
  generalize (list_ascii_of_string h) (list_ascii_of_string h').
  induction l as [| c l IH]; intros [| c' l']; simpl; intros E; try discriminate.
  - constructor.
  - injection E as E1 E2. constructor; [exact E1 | by apply IH].
Qed.

Lemma anchor_last_same (alts alts' : list (list atom)) :
  Forall2 (Forall2 same_atom) alts alts' ->
  Forall2 (Forall2 same_atom) (anchor_last alts) (anchor_last alts').
Proof.
  induction 1 as [| a a' alts alts' Ha Hr IH]; [constructor |].
  simpl. destruct Hr as [| b b' alts alts' Hb Hr].
  - constructor; [| constructor]. apply Forall2_app; [exact Ha |].
    constructor; [exact I | constructor].
  - constructor; [exact Ha | exact IH].
Qed.

End Case.

(** X3. Highlights are not case-sensitive on the side of the triggers: two
    sets of triggers that agree, one by one, up to the case of their letters
    find the same matches in every message. *)
Theorem triggers_are_not_case_sensitive (hs hs' : list string) (text : string) :
  Forall2 same_ignoring_case hs hs' ->
  Re.finditer (build_re hs) text = Re.finditer (build_re hs') text.
Proof.
  intros H. destruct H as [| h h' hs hs' Hh Hr]; [reflexivity |].
  unfold Re.finditer. rewrite !parse_build_re. do 2 f_equal.
  apply scan_same, anchor_last_same. constructor.
  - constructor; [exact I | by apply lits_same].
  - clear Hh. induction Hr as [| a a' hs hs' Ha _ IH]; simpl; constructor.
    + by apply lits_same.
    + exact IH.
Qed.

Lemma triggers_are_not_case_sensitive_witness :
  Re.finditer (build_re ["coffee"; "Tea"]%string) "I love Coffee and tea"
  = Re.finditer (build_re ["COFFEE"; "tea"]%string) "I love Coffee and tea".
Proof.
  apply (triggers_are_not_case_sensitive ["coffee"; "Tea"]%string ["COFFEE"; "tea"]%string).
  repeat constructor.
Defined.

Section MessageCase.
Import Re.

Lemma word_before_lower (prev prev' : option ascii) :
  option_map lower prev = option_map lower prev' -> word_before prev = word_before prev'.
Proof.
  destruct prev as [c |], prev' as [c' |]; simpl; intros E; try discriminate; auto.
  injection E as E. by rewrite <- (is_word_lower c), E, is_word_lower.
Qed.

Lemma word_after_lower (s s' : list ascii) :
  map lower s = map lower s' -> word_after s = word_after s'.
Proof.
  destruct s as [| c s], s' as [| c' s']; simpl; intros E; try discriminate; auto.
  injection E as E _. by rewrite <- (is_word_lower c), E, is_word_lower.
Qed.

Lemma match_atoms_text (atoms : list atom) :
  forall prev prev' s s',
    option_map lower prev = option_map lower prev' ->
    map lower s = map lower s' ->
    same_match (match_atoms true atoms prev s) (match_atoms true atoms prev' s').
Proof.
  induction atoms as [| a atoms IH]; intros prev prev' s s' Hp Hs; [reflexivity |].
  destruct a as [c |]; cbn [match_atoms].
  - destruct s as [| x s], s' as [| x' s']; simpl in Hs; try discriminate; [exact I |].
    injection Hs as Hx Hs.
    assert (Ec : char_eq true c x = char_eq true c x') by (unfold char_eq; by rewrite Hx).
    rewrite <- Ec. destruct (char_eq true c x); [| exact I].
    specialize (IH (Some x) (Some x') s s' (f_equal Some Hx) Hs).
    destruct (match_atoms true atoms (Some x) s), (match_atoms true atoms (Some x') s');
      simpl in IH |- *; try done.
    by rewrite Hx, IH.
  - unfold at_boundary.
    rewrite (word_before_lower prev prev' Hp), (word_after_lower s s' Hs).
    destruct (xorb _ _); [by apply IH | exact I].
Qed.

Lemma match_here_text (alts : list (list atom)) :
  forall prev prev' s s',
    option_map lower prev = option_map lower prev' ->
    map lower s = map lower s' ->
    same_match (match_here true alts prev s) (match_here true alts prev' s').
Proof.
  induction alts as [| a alts IH]; intros prev prev' s s' Hp Hs; [exact I |].
  simpl. pose proof (match_atoms_text a prev prev' s s' Hp Hs) as Ha.
  destruct (match_atoms true a prev s), (match_atoms true a prev' s');
    simpl in Ha; try done.
  by apply IH.
Qed.

Lemma scan_text (alts : list (list atom)) :
  forall s s' prev prev' skip,
    option_map lower prev = option_map lower prev' ->
    map lower s = map lower s' ->
    Forall2 (fun m m' => map lower m = map lower m')
      (scan {| ignorecase := true; alternatives := alts |} prev s skip)
      (scan {| ignorecase := true; alternatives := alts |} prev' s' skip).
Proof.
  induction s as [| c s IH]; intros s' prev prev' skip Hp Hs;
    destruct s' as [| c' s']; simpl in Hs; try discriminate.
  - destruct skip; simpl; [| constructor].
    pose proof (match_here_text alts prev prev' [] [] Hp eq_refl) as Hm.
    destruct (match_here true alts prev []), (match_here true alts prev' []);
      simpl in Hm; try done; repeat constructor. exact Hm.
  - injection Hs as Hc Hs. destruct skip; simpl.
    + pose proof (match_here_text alts prev prev' (c :: s) (c' :: s') Hp) as Hm.
      simpl in Hm. rewrite Hc, Hs in Hm. specialize (Hm eq_refl).
      destruct (match_here true alts prev (c :: s)) as [m |],
        (match_here true alts prev' (c' :: s')) as [m' |]; simpl in Hm; try done.
      * constructor; [exact Hm |].
        assert (El : length m = length m').
        { by rewrite <- (length_map lower m), Hm, length_map. }
        rewrite El. apply IH; [exact (f_equal Some Hc) | exact Hs].
      * apply IH; [exact (f_equal Some Hc) | exact Hs].
    + apply IH; [exact (f_equal Some Hc) | exact Hs].
Qed.

Lemma parse_build_re_any (hs : list string) :
  exists alts,
    parse (build_re hs) = Some {| ignorecase := true; alternatives := alts |}.
Proof.
  destruct hs as [| h hs]; [by eexists | rewrite parse_build_re; by eexists].
Qed.

End MessageCase.

(** X4. Highlights are not case-sensitive on the side of the message: two
    messages that agree up to the case of their letters are scanned alike,
    with as many matches, in the same places, that agree up to case. *)
Theorem messages_are_not_case_sensitive (hs : list string) (text text' : string) :
  same_ignoring_case text text' ->
  exists ms ms',
    Re.finditer (build_re hs) text = Some ms /\
    Re.finditer (build_re hs) text' = Some ms' /\
    Forall2 same_ignoring_case ms ms'.
Proof.
  intros Ht. destruct (parse_build_re_any hs) as [alts Hp].
  unfold Re.finditer. rewrite Hp. do 2 eexists. split; [reflexivity |].
  split; [reflexivity |].
  pose proof (scan_text alts (list_ascii_of_string text) (list_ascii_of_string text')
                None None 0 eq_refl Ht) as H.
  induction H as [| m m' ms ms' Hm _ IH]; simpl; constructor; [| exact IH].
  unfold same_ignoring_case. by rewrite !list_ascii_of_string_of_list_ascii.
Qed.

Lemma messages_are_not_case_sensitive_witness :
  exists ms ms',
    Re.finditer (build_re ["coffee"]%string) "I love COFFEE" = Some ms /\
    Re.finditer (build_re ["coffee"]%string) "i love Coffee" = Some ms' /\
    Forall2 same_ignoring_case ms ms'.
Proof.
  apply (messages_are_not_case_sensitive ["coffee"]%string "I love COFFEE" "i love Coffee").
  reflexivity.
Defined.

Section Matches.
Import Re.

(** Every text the scan reports was matched at some offset of the text. *)
Lemma scan_match_at (r : regex) (m : list ascii) :
  forall s prev skip,
    m ∈ scan r prev s skip -> exists i, match_at r prev s i = Some m.
Proof.
  induction s as [| c s IH]; intros prev skip.
  - destruct skip; simpl; [| by intros ?%elem_of_nil].
    destruct (match_here (ignorecase r) (alternatives r) prev []) as [m0 |] eqn:E.
    + intros ->%list_elem_of_singleton. by exists O.
    + by intros ?%elem_of_nil.
  - destruct skip; simpl.
    + destruct (match_here (ignorecase r) (alternatives r) prev (c :: s)) as [m0 |] eqn:E.
      * intros [-> | H]%elem_of_cons; [by exists O |].
        destruct (IH _ _ H) as [i Hi]. by exists (S i).
      * intros H. destruct (IH _ _ H) as [i Hi]. by exists (S i).
    + intros H. destruct (IH _ _ H) as [i Hi]. by exists (S i).
Qed.

(** A match at offset [i] is a match of the alternatives between the
    character before the offset and the text from the offset on. *)
Lemma match_at_here (r : regex) (m : list ascii) :
  forall i s prev,
    match_at r prev s i = Some m ->
    (i <= length s)%nat /\
    match_here (ignorecase r) (alternatives r)
      (match i with O => prev | S j => s !! j end) (drop i s) = Some m.
Proof.
  induction i as [| i IH]; intros s prev; simpl.
  - intros H. split; [lia |]. destruct s; exact H.
  - destruct s as [| c s]; [discriminate |]. intros H.
    destruct (IH s (Some c) H) as [Hl Hm]. split; [simpl; lia |].
    destruct i; exact Hm.
Qed.

Lemma match_here_alternative (ic : bool) (alts : list (list atom))
    (prev : option ascii) (s m : list ascii) :
  match_here ic alts prev s = Some m ->
  exists alt, alt ∈ alts /\ match_atoms ic alt prev s = Some m.
Proof.
  induction alts as [| a alts IH]; simpl; [discriminate |].
  destruct (match_atoms ic a prev s) as [m0 |] eqn:E.
  - intros [= <-]. exists a. split; [apply list_elem_of_here | exact E].
  - intros H. destruct (IH H) as (alt & Hin & Hm).
    exists alt. split; [by apply list_elem_of_further | exact Hm].
Qed.

(** What an alternative matches is what it spells out, up to case. *)
Lemma match_atoms_literals (atoms : list atom) :
  forall prev s m,
    match_atoms true atoms prev s = Some m ->
    map lower m = map lower (literals atoms).
Proof.
  induction atoms as [| a atoms IH]; intros prev s m; simpl.
  - by intros [= <-].
  - destruct a as [c |].
    + destruct s as [| x s]; [discriminate |].
      destruct (Ascii.eqb (lower c) (lower x)) eqn:E; [| discriminate].
      apply Ascii.eqb_eq in E.
      destruct (match_atoms true atoms (Some x) s) as [m0 |] eqn:E0; [| discriminate].
      intros [= <-]. simpl. by rewrite E, (IH _ _ _ E0).
    + destruct (at_boundary prev s); [apply IH | discriminate].
Qed.

Lemma literals_app (a b : list atom) : literals (a ++ b) = literals a ++ literals b.
Proof.
  induction a as [| [c |] a IH]; simpl; [reflexivity | by rewrite IH | exact IH].
Qed.

Lemma literals_lits (h : string) : literals (lits h) = list_ascii_of_string h.
Proof.
  unfold lits. induction (list_ascii_of_string h) as [| c l IH]; simpl;
    [reflexivity | by rewrite IH].
Qed.

Lemma anchor_last_literals (alts : list (list atom)) (alt : list atom) :
  alt ∈ anchor_last alts -> exists a, a ∈ alts /\ literals alt = literals a.
Proof.
  induction alts as [| a alts IH]; simpl; [by intros ?%elem_of_nil |].
  destruct alts as [| b alts].
  - intros ->%list_elem_of_singleton. exists a. split; [apply list_elem_of_here |].
    rewrite literals_app. simpl. by rewrite app_nil_r.
  - intros [-> | H]%elem_of_cons.
    + exists a. split; [apply list_elem_of_here | reflexivity].
    + destruct (IH H) as (a' & Hin & Hl).
      exists a'. split; [by apply list_elem_of_further | exact Hl].
Qed.

Lemma length_string_of_list_ascii (l : list ascii) :
  String.length (string_of_list_ascii l) = length l.
Proof. induction l as [| c l IH]; simpl; [reflexivity | by rewrite IH]. Qed.

(** An alternative of literals followed by a word boundary matches a prefix
    of the text, and the boundary holds where the prefix ends. *)
Lemma match_lits_boundary (ic : bool) (l : list ascii) :
  forall prev s m,
    match_atoms ic (map Lit l ++ [WordBoundary]) prev s = Some m ->
    exists rest, s = m ++ rest /\ at_boundary (last_char prev m) rest = true.
Proof.
  induction l as [| c l IH]; intros prev s m; simpl.
  - destruct (at_boundary prev s) eqn:E; [| discriminate].
    intros [= <-]. exists s. split; [reflexivity | exact E].
  - destruct s as [| x s]; [discriminate |].
    destruct (char_eq ic c x); [| discriminate].
    destruct (match_atoms ic _ (Some x) s) as [m0 |] eqn:E0; [| discriminate].
    intros [= <-]. destruct (IH _ _ _ E0) as (rest & -> & Hb).
    exists rest. split; [reflexivity |].
    unfold last_char in *. destruct m0 as [| y m0]; [exact Hb |].
    rewrite last_cons_cons. destruct (last (y :: m0)) eqn:El; [exact Hb |].
    apply last_None in El. discriminate.
Qed.

Lemma char_before_end (text m rest : list ascii) (i : nat) :
  drop i text = m ++ rest -> (i <= length text)%nat ->
  char_before text (i + length m) = last_char (char_before text i) m.
Proof.
  intros Hd Hi. unfold last_char. rewrite last_lookup.
  destruct m as [| c m].
  - simpl. by rewrite Nat.add_0_r.
  - simpl length. rewrite Nat.add_succ_r. simpl.
    assert (E : text !! (i + length m)%nat = (c :: m) !! length m).
    { rewrite <- (lookup_drop text i (length m)), Hd.
      apply lookup_app_l. simpl. lia. }
    rewrite E. destruct ((c :: m) !! length m) eqn:El; [reflexivity |].
    apply lookup_ge_None in El. simpl in El. lia.
Qed.

End Matches.

Lemma match_is_trigger
    (h : string) (hs : list string) (text : string) (ms : list string) (m : string) :
  Re.finditer (build_re (h :: hs)) text = Some ms ->
  m ∈ ms ->
  exists h', h' ∈ h :: hs /\ same_ignoring_case h' m.
Proof.
  unfold Re.finditer. rewrite parse_build_re.
  set (alts := Re.anchor_last _). intros [= <-] Hin.
  apply list_elem_of_In, in_map_iff in Hin as (m0 & <- & Hin%list_elem_of_In).
  destruct (scan_match_at _ _ _ _ _ Hin) as [i Hi].
  destruct (match_at_here _ _ _ _ _ Hi) as [_ Hh].
  cbn [Re.ignorecase Re.alternatives] in Hh.
  destruct (match_here_alternative _ _ _ _ _ Hh) as (alt & Halt & Hm).
  subst alts.
  destruct (anchor_last_literals _ _ Halt) as (a & Ha & Hl).
  pose proof (match_atoms_literals _ _ _ _ Hm) as Hlow. rewrite Hl in Hlow.
  assert (Hh' : exists h', h' ∈ h :: hs /\ literals a = list_ascii_of_string h').
  { apply elem_of_cons in Ha as [-> | Ha].
    - exists h. split; [apply list_elem_of_here |]. simpl. apply literals_lits.
    - apply list_elem_of_In, in_map_iff in Ha as (h' & <- & Hin').
      exists h'. split; [apply list_elem_of_further, list_elem_of_In, Hin' |].
      apply literals_lits. }
  destruct Hh' as (h' & Hin' & Eh). exists h'. split; [exact Hin' |].
  unfold same_ignoring_case. by rewrite list_ascii_of_string_of_list_ascii, Hlow, Eh.
Qed.

(** X5. Every text the scan of a message reports is one of the triggers, up
    to the case of its letters: whatever characters a trigger holds, it
    matches nothing but itself. *)
Theorem every_match_is_a_trigger
    (h : string) (hs : list string) (text : string) (ms : list string) (m : string) :
  Re.finditer (build_re (h :: hs)) text = Some ms ->
  m ∈ ms ->
  exists h', h' ∈ h :: hs /\ same_ignoring_case h' m.
Proof. apply match_is_trigger. Qed.

Lemma every_match_is_a_trigger_witness :
  exists h', h' ∈ ["c.t"; "a+b"]%string /\ same_ignoring_case h' "C.T".
Proof.
  apply (every_match_is_a_trigger "c.t" ["a+b"]%string "cat C.T aab" ["C.T"]%string "C.T").
  - vm_compute. reflexivity.
  - apply list_elem_of_here.
Defined.

(** X6. With a single trigger the pattern does what it is meant to: every
    text the scan reports stands at an offset of the message where it is
    delimited by word boundaries on both sides. *)
Theorem single_trigger_matches_whole_words
    (h : string) (text : string) (ms : list string) (m : string) :
  Re.finditer (build_re [h]) text = Some ms ->
  m ∈ ms ->
  exists i,
    Re.match_offset (build_re [h]) text i = Some m /\
    whole_word_at (list_ascii_of_string text) i (String.length m) = true.
Proof.
  unfold Re.finditer, Re.match_offset. rewrite parse_build_re.
  change (Re.anchor_last ((Re.WordBoundary :: Re.lits h) :: map Re.lits []))
    with [Re.WordBoundary :: Re.lits h ++ [Re.WordBoundary]].
  intros [= <-] Hin.
  apply list_elem_of_In, in_map_iff in Hin as (m0 & <- & Hin%list_elem_of_In).
  destruct (scan_match_at _ _ _ _ _ Hin) as [i Hi].
  exists i. rewrite Hi. split; [reflexivity |].
  destruct (match_at_here _ _ _ _ _ Hi) as [Hlen Hh]. simpl in Hh.
  change (match i with O => None | S j => list_ascii_of_string text !! j end)
    with (char_before (list_ascii_of_string text) i) in Hh.
  destruct (Re.at_boundary (char_before (list_ascii_of_string text) i)
              (drop i (list_ascii_of_string text))) eqn:Eb; [| discriminate].
  destruct (Re.match_atoms true _ _ _) as [m1 |] eqn:Em; [| discriminate].
  injection Hh as ->.
  destruct (match_lits_boundary _ _ _ _ _ Em) as (rest & Hd & Hb).
  unfold whole_word_at. rewrite Eb, length_string_of_list_ascii. simpl.
  rewrite (char_before_end _ m0 rest i Hd Hlen).
  rewrite <- (drop_drop (list_ascii_of_string text) (length m0) i), Hd.
  by rewrite drop_app_length.
Qed.

Lemma single_trigger_matches_whole_words_witness :
  exists i,
    Re.match_offset (build_re ["cat"]%string) "bobcat the Cat category" i = Some "Cat"%string /\
    whole_word_at (list_ascii_of_string "bobcat the Cat category") i 3 = true.
Proof.
  apply (single_trigger_matches_whole_words "cat" "bobcat the Cat category"
           ["Cat"]%string "Cat").
  - vm_compute. reflexivity.
  - apply list_elem_of_here.
Defined.

(** ** The handler of messages, end to end *)

Section EndToEnd.
Context (env : Env) (message : Message).

(** What [deliver] leaves in the outbox: nothing when the history cannot be
    fetched, one delivery otherwise. *)
Lemma deliver_outbox (user : User) (highlight : string) (w : World) :
  exists ds,
    outbox (fst (run env (deliver user highlight message) w)) = outbox w ++ ds /\
    now (fst (run env (deliver user highlight message) w)) = now w /\
    recently_spoken (fst (run env (deliver user highlight message) w))
    = recently_spoken w /\
    match channel_history env message with
    | inl e => ds = [] /\ snd (run env (deliver user highlight message) w) = Err e
    | inr around =>
        exists d, ds = [d] /\ sent_at d = now w /\ job_of d = (user, highlight) /\
          content_highlight (notification d) = highlight /\
          about (notification d) message /\
          quotes (notification d) message around /\
          snd (run env (deliver user highlight message) w)
          = absorbed (user_send env user (notification d))
    end.
Proof.
  unfold deliver, notification_message, embed_description. simpl.
  destruct (channel_history env message) as [e | around]; simpl.
  { exists []. by rewrite app_nil_r. }
  match goal with |- context [user_send env user ?n0] => set (n := n0) end.
  exists [{| sent_at := now w; recipient := user; notification := n |}].
  assert (Hq : quotes n message around).
  { subst n. unfold quotes. simpl. rewrite !map_map. repeat split; reflexivity. }
  assert (Ha : about n message) by (subst n; repeat split; reflexivity).
  unfold absorbed.
  destruct (user_send env user n) as [e | []] eqn:Es; simpl.
  - destruct (is_HTTPException e) eqn:Eh; simpl;
      (split; [reflexivity |]); (split; [reflexivity |]); (split; [reflexivity |]);
      eexists; (split; [reflexivity |]); simpl; rewrite Es, ?Eh; auto 10.
  - (split; [reflexivity |]); (split; [reflexivity |]); (split; [reflexivity |]).
    eexists; (split; [reflexivity |]); simpl; rewrite Es; auto 10.
Qed.

Lemma settled_now (w : World) :
  now (settled env message w) = delivery_time message (now w).
Proof.
  unfold settled, delivery_time, NEW_MESSAGES_TIMEOUT.
  destruct (now w - created_at message <? 9) eqn:E; simpl; lia.
Qed.

Lemma settled_outbox (w : World) : outbox (settled env message w) = outbox w.
Proof. unfold settled. by destruct (_ <? _). Qed.

Lemma settled_alone (w : World) :
  alone env -> recently_spoken (settled env message w) = recently_spoken w.
Proof. intros H. unfold settled. destruct (_ <? _); simpl; [apply H | reflexivity]. Qed.

Lemma run_notify_settled (user : User) (highlight : string) (w : World) :
  run env (notify user highlight message) w
  = run env (deliver user highlight message) (settled env message w).
Proof. apply run_notify_cases. Qed.

(** What one round of the loop of [on_message] leaves in the outbox. *)
Lemma body_outbox (x : User * string) (w : World) :
  exists ds,
    outbox (fst (run env (on_message_body message x) w)) = outbox w ++ ds /\
    if absent message (recently_spoken w) x then
      now (fst (run env (on_message_body message x) w)) = delivery_time message (now w) /\
      recently_spoken (fst (run env (on_message_body message x) w))
      = recently_spoken (settled env message w) /\
      match channel_history env message with
      | inl e => ds = [] /\ snd (run env (on_message_body message x) w) = Err e
      | inr around =>
          exists d, ds = [d] /\ sent_at d = delivery_time message (now w) /\
            job_of d = x /\
            content_highlight (notification d) = snd x /\
            about (notification d) message /\
            quotes (notification d) message around /\
            snd (run env (on_message_body message x) w)
            = absorbed (user_send env (fst x) (notification d))
      end
    else ds = [] /\ run env (on_message_body message x) w = (w, Ok tt).
Proof.
  destruct x as [user highlight]. unfold on_message_body, absent.
  unbind. rewrite run_bind.
  change (run env (call get_recently_spoken) w) with (w, Ok (recently_spoken w)).
  unfold Ok. cbv iota beta. cbn [fst snd].
  destruct (PositiveCounter.contains _ _) eqn:Ec; simpl negb; cbv iota.
  { exists []. by rewrite app_nil_r. }
  rewrite run_notify_settled.
  destruct (deliver_outbox user highlight (settled env message w))
    as (ds & Ho & Hn & Hc & Hd).
  exists ds. rewrite Ho, Hn, Hc, settled_outbox, settled_now.
  split; [reflexivity |]. split; [reflexivity |]. split; [reflexivity |].
  destruct (channel_history env message) as [e | around]; [exact Hd |].
  destruct Hd as (d & -> & Hs & Hd). exists d. rewrite Hs, settled_now. auto.
Qed.

(** The handler, case by case: a message it ignores, a round of the loop
    that raises, and the lease of the author after a loop that went through. *)
Lemma run_on_message (w : World) :
  ((guild message = None \/ bot_should_reply env message = false) /\
   run env (on_message message) w = (w, Ok tt)) \/
  (guild message <> None /\ bot_should_reply env message = true /\
   exists w1 r1,
     run env (async_for (highlights message) (on_message_body message)) w = (w1, r1) /\
     match r1 with
     | inl e => run env (on_message message) w = (w1, Err e)
     | inr _ =>
         run env (on_message message) w
         = run env (_track_spoken (channel message, user_id (author message))
                      LAST_SPOKEN_CUTOFF) w1
     end).
Proof.
  unfold on_message. destruct (guild message) as [g |]; [| left; auto].
  unbind. rewrite run_bind.
  change (run env (call (should_reply message)) w)
    with (w, Ok (bot_should_reply env message)).
  unfold Ok. cbv iota beta.
  destruct (bot_should_reply env message); [| left; auto].
  right. split; [done |]. split; [reflexivity |].
  simpl negb. cbv iota. rewrite run_bind.
  destruct (run env (async_for _ _) w) as [w1 [e | []]];
    do 2 eexists; (split; [reflexivity |]); reflexivity.
Qed.

(** What the loop over a generator of lookups leaves in the outbox, when
    every round leaves at most a delivery for the result it was given. *)
Lemma async_for_outbox {A : Type} (I : World -> Prop) (Q : Delivery -> Prop)
    (gen : task A) (body : User * string -> task unit) :
  all_actions is_lookup gen ->
  (forall x w, I w -> exists ds,
     outbox (fst (run env (body x) w)) = outbox w ++ ds /\
     sublist (job_of <$> ds) [x] /\ Forall Q ds /\ I (fst (run env (body x) w))) ->
  exists ys,
    (forall w0, yielded (fst (run env gen w0)) = yielded w0 ++ ys) /\
    forall w, I w -> exists ds,
      outbox (fst (run env (async_for gen body) w)) = outbox w ++ ds /\
      sublist (job_of <$> ds) ys /\ Forall Q ds /\
      I (fst (run env (async_for gen body) w)).
Proof.
  intros Hgen Hbody.
  induction Hgen as [a | e | a k Ha Hk IH].
  1, 2: exists []; split; [intros w0; simpl; by rewrite app_nil_r |];
    intros w Hi; exists []; simpl; rewrite app_nil_r;
    (split; [reflexivity |]); (split; [constructor |]); (split; [constructor | exact Hi]).
  destruct a; try destruct Ha; simpl; try exact (IH _).
  destruct (IH tt) as (ys & Hy & Hd). exists (x :: ys). split.
  - intros w0. rewrite Hy. simpl. by rewrite <- app_assoc.
  - intros w Hi. unbind. rewrite run_bind.
    destruct (Hbody x w Hi) as (ds1 & Ho1 & Hs1 & Hq1 & Hi1).
    destruct (run env (body x) w) as [w1 [e | []]]; simpl in Ho1, Hi1.
    + exists ds1. simpl. split; [exact Ho1 |]. split; [| auto].
      change (x :: ys) with ([x] ++ ys). by apply sublist_inserts_r.
    + destruct (Hd w1 Hi1) as (ds2 & Ho2 & Hs2 & Hq2 & Hi2).
      exists (ds1 ++ ds2). rewrite Ho2, Ho1, <- app_assoc.
      split; [reflexivity |]. split; [| split; [by apply Forall_app | exact Hi2]].
      rewrite fmap_app. change (x :: ys) with ([x] ++ ys). by apply sublist_app.
Qed.

(** With the counter left alone, the history at hand and no rejection
    other than [discord.HTTPException], the loop delivers to every user of a
    result who is absent, and to nobody else. *)
Lemma async_for_complete {A : Type} (around : list Message) (gen : task A) :
  alone env -> send_fails_with_http env -> channel_history env message = Ok around ->
  all_actions is_lookup gen ->
  exists ys,
    (forall w0, yielded (fst (run env gen w0)) = yielded w0 ++ ys) /\
    forall w, exists ds,
      outbox (fst (run env (async_for gen (on_message_body message)) w))
      = outbox w ++ ds /\
      job_of <$> ds = List.filter (absent message (recently_spoken w)) ys /\
      recently_spoken (fst (run env (async_for gen (on_message_body message)) w))
      = recently_spoken w.
Proof.
  intros Halone Hsend Hhist Hgen.
  induction Hgen as [a | e | a k Ha Hk IH].
  1, 2: exists []; split; [intros w0; simpl; by rewrite app_nil_r |];
    intros w; exists []; simpl; by rewrite app_nil_r.
  destruct a; try destruct Ha; simpl; try exact (IH _).
  destruct (IH tt) as (ys & Hy & Hd). exists (x :: ys). split.
  - intros w0. rewrite Hy. simpl. by rewrite <- app_assoc.
  - intros w. unbind. rewrite run_bind.
    destruct (body_outbox x w) as (ds1 & Ho1 & Hb). cbn [List.filter].
    destruct (absent message (recently_spoken w) x) eqn:Ea.
    + destruct Hb as (_ & Hc & Hb). unfold Ok in Hhist. rewrite Hhist in Hb.
      destruct Hb as (d & -> & _ & Hj & _ & _ & _ & Hr).
      rewrite (settled_alone w Halone) in Hc.
      assert (Hok : snd (run env (on_message_body message x) w) = Ok tt).
      { rewrite Hr. unfold absorbed.
        destruct (user_send env (fst x) (notification d)) as [e | []] eqn:Es;
          [| reflexivity].
        by rewrite (Hsend _ _ _ Es). }
      destruct (run env (on_message_body message x) w) as [w1 r1].
      simpl in Ho1, Hc, Hok. subst r1. unfold Ok. cbv iota.
      destruct (Hd w1) as (ds2 & Ho2 & Hj2 & Hc2).
      exists (d :: ds2). rewrite Ho2, Ho1, <- app_assoc.
      split; [reflexivity |]. rewrite Hc2, Hc. split; [| reflexivity].
      rewrite fmap_cons, Hj, Hj2, Hc. reflexivity.
    + destruct Hb as [-> ->]. unfold Ok. cbv iota.
      destruct (Hd w) as (ds2 & Ho2 & Hj2 & Hc2). exists ds2. auto.
Qed.

End EndToEnd.

Lemma survivor_spec (env : Env) (message : Message) (o : Z) (u : User) :
  survivor env message o = Some u ->
  (o ∉ db_blocks (store env) (user_id (author message))) /\
  resolved env o = Ok u /\
  user_id u <> user_id (author message).
Proof.
  unfold survivor.
  destruct (bool_decide _) eqn:Eb; [discriminate |].
  apply bool_decide_eq_false in Eb.
  destruct (resolved env o) as [e | u']; [discriminate |].
  destruct (user_eqb u' (author message)) eqn:Eu; [discriminate |].
  intros [= <-]. split; [exact Eb |]. split; [reflexivity |].
  unfold user_eqb in Eu. lia.
Qed.

(** What the scan of a message yields, in whatever world it runs. *)
Lemma highlights_yields (env : Env) (message : Message) :
  exists ys,
    (forall w, yielded (fst (run env (highlights message) w)) = yielded w ++ ys) /\
    NoDup (map (fun y => user_id (fst y)) ys) /\
    forall u h, (u, h) ∈ ys ->
      exists matches,
        scan_matches env message = Some matches /\
        first_surviving_match env message
          (db_channel_highlights (store env) (channel message)) matches u h.
Proof.
  destruct (run_lookups env (highlights message) (highlights_lookups message))
    as (ys & r & Hrun).
  exists ys. split; [intros w; by rewrite Hrun |].
  destruct (highlights_outcome env message (Sample.at_time 0))
    as (ys' & Hy & Hout).
  rewrite Hrun in Hy. simpl in Hy. subst ys'.
  destruct Hout as [-> | (matches & Hs & Hnd & Hfirst)].
  - split; [constructor | intros u h []%elem_of_nil].
  - split; [exact Hnd |]. intros u h Hin. exists matches. auto.
Qed.

(** What [on_message] leaves in the outbox: deliveries for results of the
    scan, in the order of the scan, each stamped with the end of the settle
    window or later and built from the history of the channel. *)
Lemma on_message_outbox (env : Env) (message : Message) (w : World) :
  exists ds ys,
    outbox (fst (run env (on_message message) w)) = outbox w ++ ds /\
    (forall w0, yielded (fst (run env (highlights message) w0)) = yielded w0 ++ ys) /\
    sublist (job_of <$> ds) ys /\
    Forall (fun d =>
              delivery_time message (now w) <= sent_at d /\
              about (notification d) message /\
              exists around,
                channel_history env message = Ok around /\
                quotes (notification d) message around) ds.
Proof.
  set (Q := fun d : Delivery =>
              delivery_time message (now w) <= sent_at d /\
              about (notification d) message /\
              exists around,
                channel_history env message = Ok around /\
                quotes (notification d) message around).
  destruct (async_for_outbox env (fun w' => now w <= now w') Q
              (highlights message) (on_message_body message)
              (highlights_lookups message)) as (ys & Hy & Hd).
  { intros x w' Hle. destruct (body_outbox env message x w') as (ds & Ho & Hb).
    exists ds. split; [exact Ho |].
    destruct (absent message (recently_spoken w') x).
    - destruct Hb as (Hn & _ & Hb). rewrite Hn.
      assert (Ht : delivery_time message (now w) <= delivery_time message (now w'))
        by (unfold delivery_time; lia).
      split; [| split; [| unfold delivery_time in *; lia]].
      + destruct (channel_history env message) as [e | around].
        * destruct Hb as [-> _]. apply sublist_nil_l.
        * destruct Hb as (d & -> & _ & Hj & _). rewrite fmap_cons, Hj. reflexivity.
      + destruct (channel_history env message) as [e | around].
        * destruct Hb as [-> _]. constructor.
        * destruct Hb as (d & -> & Hs & _ & _ & Ha & Hq & _).
          constructor; [| constructor].
          split; [by rewrite Hs |]. split; [exact Ha |]. exists around. auto.
    - destruct Hb as [-> ->]. split; [apply sublist_nil_l |].
      split; [constructor | exact Hle]. }
  destruct (run_on_message env message w) as [[_ ->] | (_ & _ & w1 & r1 & Hr & Hm)].
  { exists [], ys. simpl. rewrite app_nil_r.
    split; [reflexivity |]. split; [exact Hy |]. split; [apply sublist_nil_l | constructor]. }
  destruct (Hd w (Z.le_refl _)) as (ds & Ho & Hs & Hq & _).
  rewrite Hr in Ho. simpl in Ho.
  exists ds, ys. split; [| auto].
  destruct r1 as [e | []]; [by rewrite Hm |].
  rewrite Hm.
  destruct (run_track_spoken env (channel message, user_id (author message))
              LAST_SPOKEN_CUTOFF w1) as (w2 & -> & _ & Ho2).
  simpl. by rewrite Ho2.
Qed.

(** X7. Whoever a scan of a message yields is not the author of the message,
    and was resolved from an owner of the matched text that the block list
    of the author does not name; the text is one of the matches of the
    pattern in the message. *)
Theorem scan_skips_the_author_and_the_blocked
    (env : Env) (message : Message) (w : World) :
  exists ys,
    yielded (fst (run env (highlights message) w)) = yielded w ++ ys /\
    forall u h, (u, h) ∈ ys ->
      user_id u <> user_id (author message) /\
      exists matches o,
        scan_matches env message = Some matches /\ h ∈ matches /\
        o ∈ owners (db_channel_highlights (store env) (channel message)) h /\
        (o ∉ db_blocks (store env) (user_id (author message))) /\
        resolved env o = Ok u.
Proof.
  destruct (highlights_yields env message) as (ys & Hy & _ & Hfirst).
  exists ys. split; [apply Hy |]. intros u h Hin.
  destruct (Hfirst u h Hin) as (matches & Hs & pre & post & o & -> & Ho & Hsurv & _).
  destruct (survivor_spec env message o u Hsurv) as (Hb & Hr & Hne).
  split; [exact Hne |]. exists (pre ++ h :: post), o.
  split; [exact Hs |]. split; [| auto].
  apply elem_of_app. right. apply list_elem_of_here.
Qed.

(** X8. The deliveries [on_message] attempts for a message answer results
    of the scan of that message, in the order of the scan and at most one
    for each result: to the user of the result, titled with its text. Hence
    no two of them go to users with the same id, and none goes to the author
    of the message. *)
Theorem deliveries_answer_the_scan (env : Env) (message : Message) (w : World) :
  exists ds ys,
    outbox (fst (run env (on_message message) w)) = outbox w ++ ds /\
    yielded (fst (run env (highlights message) w)) = yielded w ++ ys /\
    sublist (job_of <$> ds) ys /\
    NoDup ((fun d => user_id (recipient d)) <$> ds) /\
    forall d, d ∈ ds -> user_id (recipient d) <> user_id (author message).
Proof.
  destruct (on_message_outbox env message w) as (ds & ys & Ho & Hy & Hs & _).
  destruct (highlights_yields env message) as (ys' & Hy' & Hnd & Hfirst).
  assert (E : ys' = ys).
  { specialize (Hy w). rewrite Hy' in Hy. by apply app_inv_head in Hy. }
  subst ys'. exists ds, ys.
  split; [exact Ho |]. split; [apply Hy |]. split; [exact Hs |]. split.
  - assert (Hsub : sublist ((fun d => user_id (recipient d)) <$> ds)
                      (map (fun y => user_id (fst y)) ys)).
    { replace ((fun d => user_id (recipient d)) <$> ds)
        with ((fun y : User * string => user_id (fst y)) <$> (job_of <$> ds))
        by (rewrite <- list_fmap_compose; reflexivity).
      by apply fmap_sublist. }
    eapply sublist_NoDup; eassumption.
  - intros d Hd.
    assert (Hin : job_of d ∈ ys).
    { eapply elem_of_sublist; [| exact Hs]. by apply list_elem_of_fmap_2. }
    destruct (Hfirst (recipient d) (embed_title (notification d)) Hin)
      as (matches & _ & pre & post & o & _ & _ & Hsurv & _).
    by destruct (survivor_spec env message o _ Hsurv) as (_ & _ & Hne).
Qed.

(** X9. Whatever [on_message] delivers for a message is stamped with the
    end of the settle window of that message, or with the time the handler
    began when that is later, or with a later time still: the second and
    further notifications of a message wait like the first. Each names the
    channel and guild of the message, links to it, and quotes a history of
    the channel that could be fetched. *)
Theorem notifications_wait_for_the_settle_window
    (env : Env) (message : Message) (w : World) :
  exists ds,
    outbox (fst (run env (on_message message) w)) = outbox w ++ ds /\
    forall d, d ∈ ds ->
      created_at message + NEW_MESSAGES_TIMEOUT <= sent_at d /\
      now w <= sent_at d /\
      about (notification d) message /\
      exists around,
        channel_history env message = Ok around /\
        quotes (notification d) message around.
Proof.
  destruct (on_message_outbox env message w) as (ds & ys & Ho & _ & _ & Hq).
  exists ds. split; [exact Ho |]. intros d Hd.
  rewrite Forall_forall in Hq. destruct (Hq d Hd) as (Ht & Ha & Hh).
  unfold delivery_time in Ht.
  split; [lia |]. split; [lia |]. split; [exact Ha | exact Hh].
Qed.

(** X10. When the handler attends to a message, the other tasks leave the
    counter alone, the history of the channel can be fetched and no direct
    message is rejected with anything but [discord.HTTPException], the
    handler attempts a delivery for every result of the scan whose user is
    not in the counter for the channel, and for no other: nobody who is
    absent is passed over. *)
Theorem every_absent_user_is_notified
    (env : Env) (message : Message) (around : list Message) (w : World) :
  guild message <> None ->
  bot_should_reply env message = true ->
  alone env ->
  send_fails_with_http env ->
  channel_history env message = Ok around ->
  exists ds ys,
    outbox (fst (run env (on_message message) w)) = outbox w ++ ds /\
    yielded (fst (run env (highlights message) w)) = yielded w ++ ys /\
    job_of <$> ds = List.filter (absent message (recently_spoken w)) ys.
Proof.
  intros Hg Hr Halone Hsend Hhist.
  destruct (async_for_complete env message around (highlights message)
              Halone Hsend Hhist (highlights_lookups message)) as (ys & Hy & Hd).
  destruct (Hd w) as (ds & Ho & Hj & _). exists ds, ys.
  split; [| split; [apply Hy | exact Hj]].
  destruct (run_on_message env message w)
    as [[[Hg' | Hr'] _] | (_ & _ & w1 & r1 & Hrun & Hm)]; [done | congruence |].
  rewrite Hrun in Ho. simpl in Ho.
  destruct r1 as [e | []]; [by rewrite Hm |].
  rewrite Hm.
  destruct (run_track_spoken env (channel message, user_id (author message))
              LAST_SPOKEN_CUTOFF w1) as (w2 & -> & _ & Ho2).
  simpl. by rewrite Ho2.
Qed.

Lemma every_absent_user_is_notified_witness :
  exists ds ys,
    outbox (fst (run (Sample.env Sample.cat_dog id)
                   (on_message (Sample.message "the dog and the cat"))
                   (Sample.with_lease 1003 (7, 1))))
    = outbox (Sample.with_lease 1003 (7, 1)) ++ ds /\
    yielded (fst (run (Sample.env Sample.cat_dog id)
                    (highlights (Sample.message "the dog and the cat"))
                    (Sample.with_lease 1003 (7, 1))))
    = yielded (Sample.with_lease 1003 (7, 1)) ++ ys /\
    job_of <$> ds
    = List.filter (absent (Sample.message "the dog and the cat")
                     (recently_spoken (Sample.with_lease 1003 (7, 1)))) ys.
Proof.
  apply (every_absent_user_is_notified (Sample.env Sample.cat_dog id)
           (Sample.message "the dog and the cat")
           [Sample.message "the dog and the cat"] (Sample.with_lease 1003 (7, 1))).
  - simpl. discriminate.
  - reflexivity.
  - intros t t' c. reflexivity.
  - intros u n e. simpl. discriminate.
  - reflexivity.
Defined.

Lemma run_track_spoken_alone (env : Env) (info : Key) (delay : Z) (w : World) :
  alone env -> PositiveCounter.positive (recently_spoken w) ->
  recently_spoken (fst (run env (_track_spoken info delay) w)) = recently_spoken w.
Proof.
  intros Halone Hpos.
  destruct (incr_then_decr info (recently_spoken w) Hpos) as (c1 & Hi & _ & Hd).
  rewrite run_resume, (resume_track_spoken env info delay w c1 Hi).
  match goal with |- context [run env _ ?w1] =>
    destruct (run_spoken_decr env info w1) as (c2 & Hd2 & ->) end.
  simpl in Hd2 |- *. rewrite Halone, Hd in Hd2. by injection Hd2 as <-.
Qed.

(** X11. When the other tasks leave the counter alone and it stores only
    positive counts, [on_message] leaves the counter as it found it, however
    it ends: the lease it takes for the author is given back before it
    returns, and a handler that raises has not taken it. *)
Theorem handler_releases_its_lease (env : Env) (message : Message) (w : World) :
  alone env ->
  PositiveCounter.positive (recently_spoken w) ->
  recently_spoken (fst (run env (on_message message) w)) = recently_spoken w.
Proof.
  intros Halone Hpos.
  destruct (run_on_message env message w)
    as [[_ ->] | (_ & _ & w1 & r1 & Hrun & Hm)]; [reflexivity |].
  assert (Hc : recently_spoken w1 = recently_spoken w).
  { replace w1
      with (fst (run env (async_for (highlights message) (on_message_body message)) w))
      by (by rewrite Hrun).
    apply (async_for_invariant env (fun w' => recently_spoken w' = recently_spoken w));
      [apply highlights_lookups | | reflexivity].
    intros x w' Hw'. destruct (body_outbox env message x w') as (ds & _ & Hb).
    destruct (absent message (recently_spoken w') x).
    - destruct Hb as (_ & -> & _). by rewrite settled_alone.
    - destruct Hb as [_ ->]. exact Hw'. }
  destruct r1 as [e | []]; rewrite Hm; [exact Hc |].
  rewrite run_track_spoken_alone; [exact Hc | exact Halone | by rewrite Hc].
Qed.

Lemma handler_releases_its_lease_witness :
  recently_spoken (fst (run (Sample.env Sample.cat_dog id)
                          (on_message (Sample.message "the dog and the cat"))
                          (Sample.with_lease 1003 (7, 1))))
  = recently_spoken (Sample.with_lease 1003 (7, 1)).
Proof.
  apply (handler_releases_its_lease (Sample.env Sample.cat_dog id)
           (Sample.message "the dog and the cat") (Sample.with_lease 1003 (7, 1))).
  - intros t t' c. reflexivity.
  - intros k n H. simpl in H. apply lookup_singleton_Some in H as [_ <-]. simpl. lia.
Defined.

(** X12. A notification job attempts one delivery when the history around
    the message can be fetched, and none when it cannot, in which case it
    raises what the fetch raised. The notification goes to the user of the
    job, is titled with the matched text, names the channel and the guild of
    the message and links to it; it quotes the fetched messages in their
    order, one line each with time, author and text, and emphasises the time
    of exactly those lines whose message has the id of the triggering one.
    The job ends normally unless the delivery is rejected with something
    other than [discord.HTTPException]. *)
Theorem notification_quotes_the_history
    (env : Env) (user : User) (highlight : string) (message : Message) (w : World) :
  match channel_history env message with
  | inl e =>
      outbox (fst (run env (notify user highlight message) w)) = outbox w /\
      snd (run env (notify user highlight message) w) = Err e
  | inr around =>
      exists d,
        outbox (fst (run env (notify user highlight message) w)) = outbox w ++ [d] /\
        recipient d = user /\
        embed_title (notification d) = highlight /\
        content_highlight (notification d) = highlight /\
        about (notification d) message /\
        quotes (notification d) message around /\
        snd (run env (notify user highlight message) w)
        = absorbed (user_send env user (notification d))
  end.
Proof.
  rewrite run_notify_settled.
  destruct (deliver_outbox env message user highlight (settled env message w))
    as (ds & Ho & _ & _ & Hd).
  rewrite settled_outbox in Ho.
  destruct (channel_history env message) as [e | around].
  - destruct Hd as [-> Hr]. rewrite app_nil_r in Ho. auto.
  - destruct Hd as (d & -> & _ & Hj & Hc & Ha & Hq & Hr).
    exists d. injection Hj as Hu Ht. auto 10.
Qed.

(** X13. With a multidict that compares its keys without regard to case,
    [getall] never fails on a text the scan reports: every match of the
    pattern built from the keys has an owner, so the scan raises no
    [KeyError]. *)
Theorem every_match_has_an_owner
    (env : Env) (message : Message) (matches : list string) (h : string) :
  iterates_the_set env ->
  db_channel_highlights (store env) (channel message) <> [] ->
  scan_matches env message = Some matches ->
  h ∈ matches ->
  exists o users,
    getall (db_channel_highlights (store env) (channel message)) h = Ok (o :: users).
Proof.
  intros Hset Hd. unfold scan_matches.
  set (d := db_channel_highlights (store env) (channel message)) in *.
  destruct (Hset (keys d)) as [Hsub Hne].
  destruct (set_order env (keys d)) as [| k ks] eqn:Ek.
  { exfalso. apply Hne; [| reflexivity]. destruct d; [done | discriminate]. }
  intros Hs Hin.
  destruct (match_is_trigger k ks _ _ h Hs Hin) as (h' & Hh' & Hsame).
  apply Hsub in Hh'. unfold keys in Hh'.
  apply list_elem_of_In, in_map_iff in Hh' as ([k' o] & <- & Hkv).
  unfold getall.
  assert (Hf : In (k', o) (List.filter (fun kv => key_eqb (fst kv) h) d)).
  { apply filter_In. split; [exact Hkv |]. unfold key_eqb. simpl.
    by apply bool_decide_eq_true. }
  destruct (List.filter _ d) as [| [k0 o0] rest]; [destruct Hf |].
  simpl. eauto.
Qed.

Lemma every_match_has_an_owner_witness :
  exists o users,
    getall (db_channel_highlights (store (Sample.env Sample.cat_dog id))
              (channel (Sample.message "The Cat sat")))
      "Cat"
    = Ok (o :: users).
Proof.
  apply (every_match_has_an_owner (Sample.env Sample.cat_dog id)
           (Sample.message "The Cat sat") ["Cat"%string] "Cat"%string).
  - intros ks. split; [auto | auto].
  - discriminate.
  - reflexivity.
  - apply list_elem_of_here.
Defined.

(** ** The counter over time *)

Lemma how_many_cons {T : Type} (f : T -> bool) (x : T) (q : list T) :
  how_many f (x :: q) = how_many f q + (if f x then 1 else 0).
Proof. unfold how_many. simpl. destruct (f x); simpl; lia. Qed.

Lemma how_many_app {T : Type} (f : T -> bool) (q q' : list T) :
  how_many f (q ++ q') = how_many f q + how_many f q'.
Proof. unfold how_many. rewrite List.filter_app, length_app. lia. Qed.

Lemma how_many_ext {T : Type} (f g : T -> bool) (q : list T) :
  (forall y, y ∈ q -> f y = g y) -> how_many f q = how_many g q.
Proof.
  induction q as [| x q IH]; intros H; [reflexivity |].
  rewrite !how_many_cons, (H x (list_elem_of_here _ _)), IH; [reflexivity |].
  intros y Hy. by apply H, list_elem_of_further.
Qed.

Lemma how_many_pop {T : Type} (f : Z * T -> bool) (q : list (Z * T)) (x : Z * T)
    (rest : list (Z * T)) :
  pop_earliest q = Some (x, rest) ->
  how_many f q = how_many f rest + (if f x then 1 else 0).
Proof.
  revert x rest. induction q as [| x0 q IH]; intros x rest; simpl; [discriminate |].
  destruct (pop_earliest q) as [[y r] |] eqn:E.
  - destruct (fst x0 <=? fst y); intros [= <- <-].
    + apply how_many_cons.
    + rewrite !how_many_cons, (IH y r eq_refl). lia.
  - apply pop_earliest_None in E. subst q. intros [= <- <-].
    apply how_many_cons.
Qed.

Lemma outstanding_how_many (key : Key) (p : list (Z * Key)) :
  outstanding key p = how_many (fun y => bool_decide (snd y = key)) p.
Proof. reflexivity. Qed.

Section Multiplicity.
Context (env : Env).

(** Letting time pass until [t] leaves every timer that is not due by [t],
    as often as it was there. *)
Lemma run_until_how_many (t : Z) (fuel : nat) :
  forall (p : list (Z * Key)) (l : Loop),
    tracks l p -> (length p <= fuel)%nat ->
    exists l' p',
      run_until env fuel t l = Some l' /\
      tracks l' p' /\
      now (world l') = Z.max (now (world l)) t /\
      (length p' <= length p)%nat /\
      forall f, how_many f p' = how_many (fun y => f y && (t <? fst y)) p.
Proof.
  induction fuel as [| fuel IH]; intros p l [Ht Hc] Hlen;
    rewrite run_until_unfold, Ht; unfold lease_timers; rewrite pop_earliest_map.
  - destruct p; [| simpl in Hlen; lia]. simpl.
    eexists; exists []. split; [reflexivity |]. split; [split; [reflexivity | exact Hc] |].
    split; [reflexivity |]. split; [reflexivity |]. reflexivity.
  - destruct (pop_earliest p) as [[x rest] |] eqn:Ep.
    + destruct (pop_earliest_Some p x rest Ep) as (Hin & Hmin & Hl).
      cbn [fst snd]. destruct (fst x <=? t) eqn:Ele.
      * destruct (decr_total (snd x) (recently_spoken (world l))) as [c' Ed].
        rewrite (spawn_decr env (snd x) (set_clock (fst x) (world l)) _ c' Ed).
        destruct (IH rest {| world := set_spoken c' (set_clock (fst x) (world l));
                             timers := lease_timers rest |})
          as (l' & p' & Hr & Htr & Hnow & Hlen' & Hmany).
        { split; [reflexivity |]. simpl. by eapply counts_decr. }
        { lia. }
        exists l', p'. split; [exact Hr |]. split; [exact Htr |].
        split; [simpl in Hnow; lia |]. split; [lia |].
        intros f. rewrite Hmany, (how_many_pop _ p x rest Ep).
        replace (t <? fst x) with false by lia. rewrite andb_false_r. lia.
      * eexists; exists p. split; [reflexivity |].
        split; [split; [reflexivity | exact Hc] |].
        split; [reflexivity |]. split; [reflexivity |].
        intros f. apply how_many_ext. intros y Hy. specialize (Hmin y Hy).
        replace (t <? fst y) with true by lia. by rewrite andb_true_r.
    + apply pop_earliest_None in Ep. subst p.
      eexists; exists []. split; [reflexivity |]. split; [split; [reflexivity | exact Hc] |].
      split; [reflexivity |]. split; [reflexivity |]. reflexivity.
Qed.

(** Serving requests in the order of their times leaves the timers not due
    by [t], those that were there and those of the requests, as often as
    they were set. *)
Lemma serve_how_many (t : Z) (reqs : list Lease) :
  forall (fuel : nat) (l : Loop) (p : list (Z * Key)),
    tracks l p ->
    chronological (now (world l)) reqs ->
    (forall r, r ∈ reqs -> lease_time r <= t) ->
    (length p + length reqs <= fuel)%nat ->
    exists l' p',
      serve env fuel reqs l = Some l' /\
      tracks l' p' /\
      (length p' <= length p + length reqs)%nat /\
      forall f, (forall y, f y = true -> t < fst y) ->
        how_many f p' = how_many f (p ++ map timer_of reqs).
Proof.
  induction reqs as [| r reqs IH]; intros fuel l p Htr Hch Hle Hfuel.
  - exists l, p. simpl. split; [reflexivity |]. split; [exact Htr |].
    split; [lia |]. intros f _. by rewrite app_nil_r.
  - destruct Hch as [Hnow Hch]. simpl in Hfuel.
    destruct (run_until_how_many (lease_time r) fuel p l Htr) as
      (l1 & p1 & Hr1 & Htr1 & Hn1 & Hl1 & Hm1); [lia |].
    cbn [serve]. rewrite Hr1.
    destruct (spawn_track env (lease_key r) (lease_delay r) l1 p1 Htr1) as [Htr2 Hn2].
    replace (now (world l1)) with (lease_time r) in Htr2, Hn2 by lia.
    destruct (IH fuel _ _ Htr2) as (l' & p' & Hr & Htr' & Hl' & Hm).
    { by rewrite Hn2. }
    { intros r' Hr'. by apply Hle, list_elem_of_further. }
    { rewrite length_app. simpl. lia. }
    exists l', p'. split; [exact Hr |]. split; [exact Htr' |].
    split; [rewrite length_app in Hl'; simpl in Hl' |- *; lia |].
    intros f Hf. rewrite (Hm f Hf). cbn [map].
    assert (E1 : how_many (fun y => f y && (lease_time r <? fst y)) p = how_many f p).
    { apply how_many_ext. intros y _. destruct (f y) eqn:E; [| reflexivity].
      specialize (Hf y E). specialize (Hle r (list_elem_of_here _ _)).
      simpl. lia. }
    rewrite !how_many_app, Hm1, E1, !how_many_cons.
    unfold timer_of. change (how_many f []) with 0. lia.
Qed.

Lemma how_many_issued (key : Key) (t : Z) (reqs : list Lease) :
  how_many (fun y => bool_decide (snd y = key) && (t <? fst y))
    (map timer_of (issued_by t reqs))
  = in_force key t reqs.
Proof.
  unfold in_force. fold (how_many (in_force_at key t) reqs).
  induction reqs as [| r reqs IH]; [reflexivity |].
  rewrite (how_many_cons (in_force_at key t)), <- IH.
  unfold issued_by. cbn [List.filter]. fold (issued_by t reqs).
  destruct (lease_time r <=? t) eqn:E.
  - cbn [map]. rewrite how_many_cons. f_equal.
    unfold in_force_at, timer_of. cbn [fst snd]. rewrite E.
    destruct (bool_decide (lease_key r = key)); simpl; [| reflexivity].
    destruct (t <? lease_time r + Z.max 0 (lease_delay r)) eqn:E1,
             (t <? lease_time r + lease_delay r) eqn:E2; try reflexivity; lia.
  - assert (E0 : in_force_at key t r = false).
    { unfold in_force_at. rewrite E. by rewrite andb_false_r. }
    rewrite E0. lia.
Qed.

End Multiplicity.

(** X14. Let leases be requested in the order of their times, on whatever
    keys, and let the loop have fuel for as many wake-ups as there are
    requests. Then at every time [t] the counter holds, for each key, the
    number of leases on that key that are in force at [t], and no entry for
    a key with none: two leases on a key count twice, and once every lease
    has run out the counter is empty. *)
Theorem counter_counts_the_leases_in_force
    (env : Env) (fuel : nat) (t0 : Z) (reqs : list Lease) (t : Z) :
  chronological t0 reqs ->
  (length reqs <= fuel)%nat ->
  exists c,
    counter_at env fuel t0 reqs t = Some c /\
    (forall key,
       c !! key = if in_force key t reqs =? 0 then None
                  else Some (in_force key t reqs)) /\
    ((forall r, r ∈ reqs -> ~ covers t r) -> c = PositiveCounter.empty).
Proof.
  intros Hch Hfuel. unfold counter_at.
  pose proof (issued_by_length t reqs) as Hil.
  destruct (serve_how_many env t (issued_by t reqs) fuel (idle t0) [])
    as (l1 & p1 & -> & Htr1 & Hl1 & Hm1).
  { split; [reflexivity |]. intros k. reflexivity. }
  { by apply chronological_issued. }
  { intros r Hr. by apply issued_by_spec in Hr as [_ Hr]. }
  { simpl. lia. }
  destruct (run_until_how_many env t fuel p1 l1 Htr1)
    as (l2 & p2 & -> & Htr2 & _ & _ & Hm2).
  { simpl in Hl1. lia. }
  eexists. split; [reflexivity |].
  destruct Htr2 as [_ Hcounts].
  assert (Hkey : forall key, outstanding key p2 = in_force key t reqs).
  { intros key. rewrite outstanding_how_many, Hm2, Hm1.
    - apply how_many_issued.
    - intros y [_ Hy]%andb_true_iff. lia. }
  split.
  - intros key. pose proof (Hcounts key) as Hk. rewrite Hkey in Hk. exact Hk.
  - intros Hnone. apply map_eq. intros key.
    pose proof (Hcounts key) as Hk. rewrite Hkey in Hk.
    assert (E : in_force key t reqs = 0).
    { unfold in_force. replace (List.filter (in_force_at key t) reqs) with (@nil Lease);
        [reflexivity |].
      symmetry. clear -Hnone. induction reqs as [| r reqs IH]; [reflexivity |].
      simpl. destruct (in_force_at key t r) eqn:E.
      - exfalso. apply (Hnone r (list_elem_of_here _ _)).
        unfold in_force_at in E. unfold covers.
        apply andb_true_iff in E as [[_ E1]%andb_true_iff E2]. lia.
      - apply IH. intros r' Hr'. by apply Hnone, list_elem_of_further. }
    rewrite E in Hk. simpl in Hk. etransitivity; [exact Hk |]. reflexivity.
Qed.

Lemma counter_counts_the_leases_in_force_witness :
  counter_at (Sample.env [] id) 3 0
    [{| lease_time := 1; lease_key := (7, 2); lease_delay := 10 |};
     {| lease_time := 4; lease_key := (7, 2); lease_delay := 10 |};
     {| lease_time := 5; lease_key := (7, 3); lease_delay := 2 |}] 6
  = Some {[ (7, 2) := 2; (7, 3) := 1 ]} /\
  counter_at (Sample.env [] id) 3 0
    [{| lease_time := 1; lease_key := (7, 2); lease_delay := 10 |};
     {| lease_time := 4; lease_key := (7, 2); lease_delay := 10 |};
     {| lease_time := 5; lease_key := (7, 3); lease_delay := 2 |}] 14
  = Some PositiveCounter.empty.
Proof.
  assert (Hch : chronological 0
            [{| lease_time := 1; lease_key := (7, 2); lease_delay := 10 |};
             {| lease_time := 4; lease_key := (7, 2); lease_delay := 10 |};
             {| lease_time := 5; lease_key := (7, 3); lease_delay := 2 |}]).
  { simpl. lia. }
  split.
  - destruct (counter_counts_the_leases_in_force (Sample.env [] id) 3 0 _ 6 Hch)
      as (c & -> & Hc & _); [simpl; lia |].
    f_equal. apply map_eq. intros key. etransitivity; [exact (Hc key) |].
    destruct (decide (key = (7, 2))) as [-> | N2]; [reflexivity |].
    destruct (decide (key = (7, 3))) as [-> | N3]; [reflexivity |].
    unfold in_force, in_force_at. simpl.
    rewrite !bool_decide_eq_false_2 by done. simpl.
    symmetry. apply lookup_insert_None. split; [| done].
    by apply lookup_singleton_None.
  - destruct (counter_counts_the_leases_in_force (Sample.env [] id) 3 0 _ 14 Hch)
      as (c & -> & _ & He); [simpl; lia |].
    f_equal. apply He. intros r Hr. unfold covers.
    repeat (apply elem_of_cons in Hr as [-> | Hr]; [simpl; lia |]).
    by apply elem_of_nil in Hr.
Defined.

(** ** The commands *)

Section CommandRuns.
Context (env : Commands.Env).

Lemma command_run_bind {A B : Type} (p : Commands.coroutine A)
    (f : A -> Commands.coroutine B) (w : Commands.World) :
  Commands.run env (Commands.bind p f) w
  = match Commands.run env p w with
    | (w', inl e) => (w', Commands.Failed e)
    | (w', inr a) => Commands.run env (f a) w'
    end.
Proof.
  revert w. induction p as [a | e | a k IH]; intros w; simpl; try reflexivity.
  destruct (Commands.answer env a w) as [w' r]. apply IH.
Qed.

(** The task of [delete_later]: one attempt at deleting the message, [delay]
    seconds after the task was created. *)
Lemma run_delete_after (message : Message) (delay t : Z) :
  Commands.run_job env (Commands.delete_after message delay) t
  = (t + Z.max 0 delay, [(t + Z.max 0 delay, message)],
     Commands.absorbed (Commands.delete_message env message)).
Proof.
  unfold Commands.delete_after, Commands.absorbed. simpl.
  destruct (Commands.delete_message env message) as [e | []]; simpl; [| reflexivity].
  destruct (Commands.is_HTTP e); reflexivity.
Qed.

End CommandRuns.

Ltac answers :=
  repeat match goal with
    | |- context [Commands.store ?env ?c] =>
        let E := fresh "Es" in destruct (Commands.store env c) as [? | []] eqn:E; simpl
    | |- context [Commands.store_user_highlights ?env ?g ?u] =>
        let E := fresh "Eh" in
        destruct (Commands.store_user_highlights env g u) as [? | [| ? ?]] eqn:E; simpl
    | |- context [Commands.context_try_add_reaction ?env ?c ?b] =>
        let E := fresh "Er" in
        destruct (Commands.context_try_add_reaction env c b) as [? | []] eqn:E; simpl
    | |- context [Commands.context_send ?env ?c ?r] =>
        let E := fresh "Ec" in
        destruct (Commands.context_send env c r) as [? | []] eqn:E; simpl
    | |- context [Commands.is_UserInputError ?e] =>
        let E := fresh "Eu" in destruct (Commands.is_UserInputError e) eqn:E; simpl
    end.

(** X15. Every command made with [guild_only_command], before it does
    anything else and however it goes on, in a guild or in a private message,
    creates one task for the message that invoked it, and no other task.
    That task attempts to delete the message once, 5 seconds after it was
    created, and ends normally also when the deletion is refused with
    [discord.HTTPException]. *)
Theorem invoking_message_is_deleted_later
    (env : Commands.Env) (c : Commands.command) (context : Message)
    (w : Commands.World) :
  c <> Commands.DeleteMyAccount ->
  exists rest,
    Commands.trace (fst (Commands.run env (Commands.invoke c context) w))
    = Commands.trace w
      ++ (Commands.now w, Commands.create_task (Commands.delete_after context 5)) :: rest /\
    (forall t coro, (t, Commands.create_task coro) ∉ rest) /\
    Commands.run_job env (Commands.delete_after context 5) (Commands.now w)
    = (Commands.now w + 5, [(Commands.now w + 5, context)],
       Commands.absorbed (Commands.delete_message env context)).
Proof.
  intros Hc.
  assert (Hrest : forall rest : list (Z * Commands.action),
            Forall (fun x => match snd x with Commands.create_task _ => False | _ => True end)
              rest ->
            forall t coro, (t, Commands.create_task coro) ∉ rest).
  { intros rest Hall t coro Hin. rewrite Forall_forall in Hall.
    apply (Hall _ Hin). }
  destruct (guild context) as [g |] eqn:Eg;
    destruct c; try done;
    unfold Commands.invoke, Commands.guild_only_command;
    unfold Commands.show, Commands.add, Commands.remove, Commands.block,
      Commands.unblock, Commands.clear, Commands.import_, Commands.guild_id;
    rewrite ?Eg; simpl; answers;
    rewrite <- ?app_assoc; simpl;
    (eexists; split; [reflexivity |]; split;
       [apply Hrest; repeat constructor | apply (run_delete_after env context 5)]).
Qed.

Lemma invoking_message_is_deleted_later_witness :
  (exists rest,
     Commands.trace
       (fst (Commands.run (Commands.sample_env [])
               (Commands.invoke (Commands.Add "") (Sample.message "add"))
               (Commands.at_time 1000)))
     = Commands.trace (Commands.at_time 1000)
       ++ (Commands.now (Commands.at_time 1000),
           Commands.create_task (Commands.delete_after (Sample.message "add") 5)) :: rest /\
     (forall t coro, (t, Commands.create_task coro) ∉ rest) /\
     Commands.run_job (Commands.sample_env [])
       (Commands.delete_after (Sample.message "add") 5)
       (Commands.now (Commands.at_time 1000))
     = (Commands.now (Commands.at_time 1000) + 5,
        [(Commands.now (Commands.at_time 1000) + 5, Sample.message "add")],
        Commands.absorbed
          (Commands.delete_message (Commands.sample_env []) (Sample.message "add")))) /\
  (exists rest,
     Commands.trace
       (fst (Commands.run (Commands.sample_env [])
               (Commands.invoke Commands.Clear (Sample.private_message "clear"))
               (Commands.at_time 1000)))
     = Commands.trace (Commands.at_time 1000)
       ++ (Commands.now (Commands.at_time 1000),
           Commands.create_task
             (Commands.delete_after (Sample.private_message "clear") 5)) :: rest /\
     (forall t coro, (t, Commands.create_task coro) ∉ rest) /\
     Commands.run_job (Commands.sample_env [])
       (Commands.delete_after (Sample.private_message "clear") 5)
       (Commands.now (Commands.at_time 1000))
     = (Commands.now (Commands.at_time 1000) + 5,
        [(Commands.now (Commands.at_time 1000) + 5, Sample.private_message "clear")],
        Commands.absorbed
          (Commands.delete_message (Commands.sample_env [])
             (Sample.private_message "clear")))).
Proof.
  split.
  - apply (invoking_message_is_deleted_later (Commands.sample_env [])
             (Commands.Add "") (Sample.message "add") (Commands.at_time 1000)).
    discriminate.
  - apply (invoking_message_is_deleted_later (Commands.sample_env [])
             Commands.Clear (Sample.private_message "clear") (Commands.at_time 1000)).
    discriminate.
Defined.

(** What a command that changes the store does, given the answer of the
    store. *)
Lemma run_store_command (env : Commands.Env) (c : Commands.command) (context : Message)
    (call : Commands.db_call) (w : Commands.World) :
  Commands.store_call c context = Some call ->
  Commands.actions (Commands.trace (fst (Commands.run env (Commands.invoke c context) w)))
  = Commands.actions (Commands.trace w)
    ++ Commands.create_task (Commands.delete_after context 5)
    :: Commands.db_cog call
    :: Commands.reaction c context (Commands.store env call) /\
  snd (Commands.run env (Commands.invoke c context) w)
  = match Commands.store env call with
    | inr _ => Commands.context_try_add_reaction env context true
    | inl e =>
        if Commands.reports_failure c && Commands.is_UserInputError e then
          match Commands.context_try_add_reaction env context false with
          | inr _ => Commands.Failed e
          | inl e' => Commands.Failed e'
          end
        else Commands.Failed e
    end.
Proof.
  intros Hcall.
  destruct c; simpl in Hcall; try discriminate Hcall;
    destruct (guild context) as [g |] eqn:Eg; simpl in Hcall;
    try discriminate Hcall; injection Hcall as <-;
    unfold Commands.invoke, Commands.guild_only_command;
    unfold Commands.add, Commands.remove, Commands.block,
      Commands.unblock, Commands.clear, Commands.import_, Commands.guild_id,
      Commands.reaction, Commands.actions;
    rewrite ?Eg; simpl; answers;
    rewrite ?map_app; simpl; rewrite <- ?app_assoc; simpl;
    split; first [reflexivity | unfold Commands.Failed; congruence].
Qed.

(** A command that needs the id of the guild, invoked where there is
    none. *)
Lemma run_store_command_nowhere (env : Commands.Env) (c : Commands.command)
    (context : Message) (w : Commands.World) :
  Commands.changes_store c = true ->
  Commands.store_call c context = None ->
  guild context = None /\
  Commands.actions (Commands.trace (fst (Commands.run env (Commands.invoke c context) w)))
  = Commands.actions (Commands.trace w)
    ++ [Commands.create_task (Commands.delete_after context 5)] /\
  snd (Commands.run env (Commands.invoke c context) w)
  = Commands.Failed (Commands.Platform OtherError).
Proof.
  intros Hc Hcall.
  destruct c; simpl in Hc, Hcall; try discriminate;
    destruct (guild context) as [g |] eqn:Eg; simpl in Hcall; try discriminate Hcall;
    unfold Commands.invoke, Commands.guild_only_command;
    unfold Commands.add, Commands.remove, Commands.clear, Commands.import_,
      Commands.guild_id, Commands.actions;
    rewrite ?Eg; simpl; rewrite ?map_app; simpl; auto.
Qed.

(** X16. A command that changes the store (add, remove, block, unblock,
    clear, import) calls it once where it can name its arguments, which is
    everywhere for [block] and [unblock] and in a guild for the others, and
    tells the outcome with its reaction: the success emoji is added exactly
    when the call returned, the failure emoji exactly when [add] or [import]
    met a user-input error; and a command whose call raised raises too. In
    a private message [add], [remove], [clear] and [import] get no further
    than the guild of the context, which is not there: they raise
    [AttributeError] without a call to the store and without a reaction. *)
Theorem reactions_tell_the_outcome
    (env : Commands.Env) (c : Commands.command) (context : Message)
    (w : Commands.World) :
  Commands.changes_store c = true ->
  exists rest,
    Commands.actions
      (Commands.trace (fst (Commands.run env (Commands.invoke c context) w)))
    = Commands.actions (Commands.trace w) ++ rest /\
    match Commands.store_call c context with
    | Some call =>
        List.filter Commands.is_db_call rest = [Commands.db_cog call] /\
        (Commands.try_add_reaction context true ∈ rest
         <-> Commands.store env call = Commands.Fine tt) /\
        (Commands.try_add_reaction context false ∈ rest
         <-> Commands.reports_failure c = true /\
             Commands.store env call = Commands.Failed Commands.UserInputError) /\
        (forall e, Commands.store env call = Commands.Failed e ->
           exists e', snd (Commands.run env (Commands.invoke c context) w)
                      = Commands.Failed e')
    | None =>
        guild context = None /\
        List.filter Commands.is_db_call rest = [] /\
        List.filter Commands.is_reaction rest = [] /\
        snd (Commands.run env (Commands.invoke c context) w)
        = Commands.Failed (Commands.Platform OtherError)
    end.
Proof.
  intros Hc.
  destruct (Commands.store_call c context) as [call |] eqn:Hcall.
  2:{ destruct (run_store_command_nowhere env c context w Hc Hcall) as (Hg & Ht & Hr).
      eexists. split; [exact Ht |]. auto. }
  destruct (run_store_command env c context call w Hcall) as [Ht Hr].
  eexists. split; [exact Ht |]. rewrite Hr. clear Ht Hr.
  unfold Commands.reaction.
  destruct (Commands.store env call) as [e | []] eqn:Es.
  - destruct (Commands.reports_failure c) eqn:Ef; simpl;
      [destruct e; simpl |].
    all: split; [reflexivity |].
    all: split; [split; [intros H | discriminate] |].
    all: try (repeat (apply elem_of_cons in H as [H | H]; [discriminate H |]);
              by apply elem_of_nil in H).
    all: split; [split; [intros H | intros [H1 H2]] |].
    all: try (repeat (apply elem_of_cons in H as [H | H]; [discriminate H |]);
              by apply elem_of_nil in H).
    all: try discriminate.
    all: try (split; reflexivity).
    all: try (do 2 apply list_elem_of_further; apply list_elem_of_here).
    all: intros e0 _.
    all: try (destruct (Commands.context_try_add_reaction env context false) as [e1 | []]).
    all: eauto.
  - simpl. split; [reflexivity |].
    split; [split; [reflexivity | intros _; do 2 apply list_elem_of_further;
                                  apply list_elem_of_here] |].
    split; [| intros e0; discriminate].
    split; [intros H | intros [_ H]; discriminate H].
    repeat (apply elem_of_cons in H as [H | H]; [discriminate H |]).
    by apply elem_of_nil in H.
Qed.

Lemma reactions_tell_the_outcome_witness :
  (exists rest,
     Commands.actions
       (Commands.trace
          (fst (Commands.run (Commands.sample_env [])
                  (Commands.invoke (Commands.Add "") (Sample.message "add"))
                  (Commands.at_time 1000))))
     = Commands.actions (Commands.trace (Commands.at_time 1000)) ++ rest /\
     List.filter Commands.is_db_call rest = [Commands.db_cog (Commands.db_add 1 2 "")] /\
     Commands.try_add_reaction (Sample.message "add") false ∈ rest) /\
  (exists rest,
     Commands.actions
       (Commands.trace
          (fst (Commands.run (Commands.sample_env [])
                  (Commands.invoke (Commands.Add "cat") (Sample.private_message "add"))
                  (Commands.at_time 1000))))
     = Commands.actions (Commands.trace (Commands.at_time 1000)) ++ rest /\
     List.filter Commands.is_db_call rest = [] /\
     List.filter Commands.is_reaction rest = []).
Proof.
  split.
  - destruct (reactions_tell_the_outcome (Commands.sample_env []) (Commands.Add "")
                (Sample.message "add") (Commands.at_time 1000) eq_refl)
      as (rest & Ht & Hdb & _ & Hno & _).
    exists rest. split; [exact Ht |]. split; [exact Hdb |].
    apply Hno. split; reflexivity.
  - destruct (reactions_tell_the_outcome (Commands.sample_env []) (Commands.Add "cat")
                (Sample.private_message "add") (Commands.at_time 1000) eq_refl)
      as (rest & Ht & _ & Hdb & Hre & _).
    exists rest. split; [exact Ht |]. split; [exact Hdb | exact Hre].
Defined.

Section Confirmation.
Context (env : Commands.Env) (context : Message).

Lemma first_passing_Some (phrase : string) (since timeout : Z) (m : Z * Message) :
  Commands.first_passing (Commands.check context phrase) since
    (since + Z.max 0 timeout) (Commands.incoming env) = Some m ->
  m ∈ Commands.incoming env /\ Commands.confirms context phrase since timeout m.
Proof.
  unfold Commands.first_passing. intros [Hin Hp]%find_some.
  split; [by apply list_elem_of_In |].
  apply andb_true_iff in Hp as [[H1 H2]%andb_true_iff Hc].
  unfold Commands.check in Hc.
  apply andb_true_iff in Hc as [[Ha Hch]%andb_true_iff Hco].
  apply bool_decide_eq_true in Hco. unfold user_eqb in Ha.
  unfold Commands.confirms. repeat split; try lia; exact Hco.
Qed.

Lemma first_passing_None (phrase : string) (since timeout : Z) (m : Z * Message) :
  Commands.first_passing (Commands.check context phrase) since
    (since + Z.max 0 timeout) (Commands.incoming env) = None ->
  m ∈ Commands.incoming env -> ~ Commands.confirms context phrase since timeout m.
Proof.
  unfold Commands.first_passing. intros Hnone Hin (Ht & Ha & Hch & Hco).
  apply list_elem_of_In in Hin.
  pose proof (find_none _ _ Hnone m Hin) as Hf. simpl in Hf.
  unfold Commands.check, user_eqb in Hf.
  rewrite (bool_decide_eq_true_2 _ Hco) in Hf.
  replace (since <=? fst m) with true in Hf by lia.
  replace (fst m <? since + Z.max 0 timeout) with true in Hf by lia.
  replace (user_id (author (snd m)) =? user_id (author context)) with true in Hf by lia.
  replace (channel (snd m) =? channel context) with true in Hf by lia.
  discriminate Hf.
Qed.

(** [confirm], case by case: the prompt cannot be sent; the confirmation
    arrives; the time runs out. *)
Lemma run_confirm (prompt : Commands.Reply) (phrase : string) (timeout : Z)
    (w : Commands.World) :
  Commands.run env (Commands.confirm context prompt phrase timeout) w
  = let w1 := Commands.log (Commands.send context prompt) w in
    match Commands.context_send env context prompt with
    | inl e => (w1, Commands.Failed e)
    | inr _ =>
        let w2 :=
          Commands.log (Commands.wait_for (Commands.check context phrase) timeout) w1 in
        match Commands.first_passing (Commands.check context phrase) (Commands.now w)
                (Commands.now w + Z.max 0 timeout) (Commands.incoming env) with
        | Some (t, m) =>
            ({| Commands.now := t; Commands.trace := Commands.trace w2 |},
             Commands.Fine true)
        | None =>
            (Commands.log (Commands.send context Commands.NotInTime)
               {| Commands.now := Commands.now w + Z.max 0 timeout;
                  Commands.trace := Commands.trace w2 |},
             match Commands.context_send env context Commands.NotInTime with
             | inl e => Commands.Failed e
             | inr _ => Commands.Fine false
             end)
        end
    end.
Proof.
  unfold Commands.confirm. simpl.
  destruct (Commands.context_send env context prompt) as [e | []]; simpl; [reflexivity |].
  destruct (Commands.first_passing _ _ _ _) as [[t m] |]; simpl; [reflexivity |].
  destruct (Commands.context_send env context Commands.NotInTime) as [e | []];
    reflexivity.
Qed.

End Confirmation.

(** X17. Once its prompt is sent, [confirm] answers yes exactly when, before
    [timeout] seconds have passed, a message comes in from the author of the
    command, in the channel of the command, whose text is the required
    phrase to the letter. Otherwise it waits out the time and sends the
    notice that the phrase was not received. *)
Theorem confirmation_needs_the_exact_phrase
    (env : Commands.Env) (context : Message) (prompt : Commands.Reply)
    (phrase : string) (timeout : Z) (w : Commands.World) :
  Commands.context_send env context prompt = Commands.Fine tt ->
  (snd (Commands.run env (Commands.confirm context prompt phrase timeout) w)
   = Commands.Fine true
   <-> exists m, m ∈ Commands.incoming env /\
         Commands.confirms context phrase (Commands.now w) timeout m) /\
  (snd (Commands.run env (Commands.confirm context prompt phrase timeout) w)
   <> Commands.Fine true ->
   Commands.now (fst (Commands.run env (Commands.confirm context prompt phrase timeout) w))
   = Commands.now w + Z.max 0 timeout /\
   Commands.send context Commands.NotInTime
   ∈ Commands.actions
       (Commands.trace
          (fst (Commands.run env (Commands.confirm context prompt phrase timeout) w)))).
Proof.
  intros Hsend. rewrite run_confirm. cbv zeta. rewrite Hsend. unfold Commands.Fine.
  destruct (Commands.first_passing _ _ _ _) as [[t m] |] eqn:Ef.
  - destruct (first_passing_Some env context phrase _ timeout _ Ef) as [Hin Hc].
    simpl. split; [split; [intros _; eauto | reflexivity] | done].
  - split.
    + split.
      * simpl. destruct (Commands.context_send env context Commands.NotInTime) as [e | []];
          discriminate.
      * intros (m & Hin & Hc).
        destruct (first_passing_None env context phrase _ timeout m Ef Hin Hc).
    + intros _. simpl. split; [reflexivity |].
      unfold Commands.actions. rewrite !map_app. simpl.
      apply elem_of_app. right. apply list_elem_of_here.
Qed.

Lemma confirmation_needs_the_exact_phrase_witness :
  snd (Commands.run
         (Commands.sample_env [(1003, Sample.message "yes, delete my account.");
                               (1010, Sample.message "Yes, delete my account.")])
         (Commands.confirm (Sample.message "delete-my-account")
            (Commands.ConfirmPrompt Commands.confirmation_phrase)
            Commands.confirmation_phrase 30)
         (Commands.at_time 1000))
  = Commands.Fine true /\
  snd (Commands.run
         (Commands.sample_env [(1003, Sample.message "yes, delete my account.")])
         (Commands.confirm (Sample.message "delete-my-account")
            (Commands.ConfirmPrompt Commands.confirmation_phrase)
            Commands.confirmation_phrase 30)
         (Commands.at_time 1000))
  <> Commands.Fine true.
Proof.
  split.
  - apply (confirmation_needs_the_exact_phrase
             (Commands.sample_env [(1003, Sample.message "yes, delete my account.");
                                   (1010, Sample.message "Yes, delete my account.")])
             (Sample.message "delete-my-account")
             (Commands.ConfirmPrompt Commands.confirmation_phrase)
             Commands.confirmation_phrase 30 (Commands.at_time 1000) eq_refl).
    exists (1010, Sample.message "Yes, delete my account."). split.
    + apply list_elem_of_further, list_elem_of_here.
    + unfold Commands.confirms. simpl. repeat split; lia.
  - intros H.
    apply (confirmation_needs_the_exact_phrase
             (Commands.sample_env [(1003, Sample.message "yes, delete my account.")])
             (Sample.message "delete-my-account")
             (Commands.ConfirmPrompt Commands.confirmation_phrase)
             Commands.confirmation_phrase 30 (Commands.at_time 1000) eq_refl) in H.
    destruct H as (m & Hin & _ & _ & _ & Hc).
    apply list_elem_of_singleton in Hin. subst m. discriminate Hc.
Defined.

(** X18. [delete_my_account] calls the store for nothing but the deletion of
    the account of the author of the command, and only after a message from
    that author, in the channel of the command and with exactly the
    confirmation phrase, has come in within 30 seconds of the prompt. With
    the prompt sent and such a message coming in, the store is called for
    the deletion; without one it is not called at all. The command creates
    no task: the message that invoked it is left in the channel. *)
Theorem account_is_deleted_only_on_confirmation
    (env : Commands.Env) (context : Message) (w : Commands.World) :
  exists rest,
    Commands.actions
      (Commands.trace (fst (Commands.run env (Commands.delete_my_account context) w)))
    = Commands.actions (Commands.trace w) ++ rest /\
    (forall a, a ∈ rest -> Commands.is_db_call a = true ->
       a = Commands.db_cog (Commands.db_delete_account (user_id (author context))) /\
       exists m, m ∈ Commands.incoming env /\
         Commands.confirms context Commands.confirmation_phrase (Commands.now w) 30 m) /\
    (Commands.context_send env context
       (Commands.ConfirmPrompt Commands.confirmation_phrase) = Commands.Fine tt ->
     (exists m, m ∈ Commands.incoming env /\
        Commands.confirms context Commands.confirmation_phrase (Commands.now w) 30 m) ->
     Commands.db_cog (Commands.db_delete_account (user_id (author context))) ∈ rest) /\
    (forall coro, Commands.create_task coro ∉ rest).
Proof.
  unfold Commands.delete_my_account. cbv zeta.
  change (Commands.run env (?p ≫= ?f) w) with (Commands.run env (Commands.bind p f) w).
  rewrite command_run_bind, run_confirm. cbv zeta.
  destruct (Commands.context_send env context
              (Commands.ConfirmPrompt Commands.confirmation_phrase)) as [e | []] eqn:Es.
  { simpl. unfold Commands.actions. rewrite map_app. simpl.
    eexists. split; [reflexivity |]. split; [| split; [discriminate |]].
    - intros a [-> | []%elem_of_nil]%elem_of_cons. discriminate.
    - intros coro [H | []%elem_of_nil]%elem_of_cons. discriminate H. }
  destruct (Commands.first_passing _ _ _ _) as [[t m] |] eqn:Ef.
  - destruct (first_passing_Some env context _ _ 30 _ Ef) as [Hin Hc].
    simpl.
    destruct (Commands.store env _) as [e | []] eqn:Ed; simpl;
      [| destruct (Commands.context_send env context (Commands.AccountDeleted _))
           as [e | []] eqn:Ea; simpl].
    all: unfold Commands.actions; rewrite !map_app; simpl; rewrite <- !app_assoc; simpl.
    all: eexists; (split; [reflexivity |]).
    all: split; [| split].
    all: try (intros a Ha Hdb;
              repeat (apply elem_of_cons in Ha as [-> | Ha]; [try discriminate Hdb |]);
              [split; [reflexivity | eauto] | by apply elem_of_nil in Ha]).
    all: try (intros _ _; do 2 apply list_elem_of_further; apply list_elem_of_here).
    all: intros coro Ha;
      repeat (apply elem_of_cons in Ha as [Ha | Ha]; [discriminate Ha |]);
      by apply elem_of_nil in Ha.
  - simpl.
    destruct (Commands.context_send env context Commands.NotInTime) as [e | []] eqn:En;
      simpl.
    all: unfold Commands.actions; rewrite !map_app; simpl; rewrite <- !app_assoc; simpl.
    all: eexists; (split; [reflexivity |]).
    all: split; [| split].
    all: try (intros a Ha Hdb;
              repeat (apply elem_of_cons in Ha as [-> | Ha]; [try discriminate Hdb |]);
              by apply elem_of_nil in Ha).
    all: try (intros _ (m & Hin & Hc);
              destruct (first_passing_None env context _ _ 30 m Ef Hin Hc)).
    all: intros coro Ha;
      repeat (apply elem_of_cons in Ha as [Ha | Ha]; [discriminate Ha |]);
      by apply elem_of_nil in Ha.
Qed.

Lemma account_is_deleted_only_on_confirmation_witness :
  exists rest,
    Commands.actions
      (Commands.trace
         (fst (Commands.run
                 (Commands.sample_env [(1010, Sample.message "Yes, delete my account.")])
                 (Commands.delete_my_account (Sample.message "delete-my-account"))
                 (Commands.at_time 1000))))
    = rest /\
    Commands.db_cog (Commands.db_delete_account 2) ∈ rest.
Proof.
  destruct (account_is_deleted_only_on_confirmation
              (Commands.sample_env [(1010, Sample.message "Yes, delete my account.")])
              (Sample.message "delete-my-account") (Commands.at_time 1000))
    as (rest & Ht & _ & Hdel & _).
  exists rest. split; [exact Ht |].
  apply Hdel; [reflexivity |].
  exists (1010, Sample.message "Yes, delete my account."). split.
  - apply list_elem_of_here.
  - unfold Commands.confirms. simpl. repeat split; lia.
Defined.

(** X19. [show] asks the store for the triggers of the author in the guild
    of the command and changes nothing in the store. When the store answers,
    it sends one reply: the notice that there are none when the list is
    empty, and otherwise an embed under the name of the author that holds
    the triggers, one a line, counts them in its footer and is to be deleted
    after 15 seconds. *)
Theorem show_lists_the_triggers
    (env : Commands.Env) (context : Message) (g : Z) (hs : list string)
    (w : Commands.World) :
  guild context = Some g ->
  Commands.store_user_highlights env g (user_id (author context)) = Commands.Fine hs ->
  exists rest,
    Commands.actions
      (Commands.trace (fst (Commands.run env (Commands.invoke Commands.Show context) w)))
    = Commands.actions (Commands.trace w) ++ rest /\
    List.filter Commands.is_db_call rest = [] /\
    Commands.user_highlights g (user_id (author context)) ∈ rest /\
    List.filter Commands.is_send rest
    = [Commands.send context
         match hs with
         | [] => Commands.NoHighlights
         | _ => Commands.Triggers (user_name (author context))
                  (Commands.join_lines hs) (length hs) 15
         end].
Proof.
  intros Eg Hs.
  unfold Commands.invoke, Commands.guild_only_command.
  unfold Commands.show, Commands.guild_id. rewrite Eg. simpl. rewrite Hs.
  unfold Commands.Fine. simpl.
  destruct hs as [| h hs']; simpl;
    match goal with |- context [Commands.context_send env context ?r] =>
      destruct (Commands.context_send env context r) as [e | []] end; simpl.
  all: unfold Commands.actions; rewrite !map_app; simpl; rewrite <- !app_assoc; simpl.
  all: eexists; (split; [reflexivity |]); simpl.
  all: split; [reflexivity |]; split; [| reflexivity].
  all: apply list_elem_of_further, list_elem_of_here.
Qed.

Lemma show_lists_the_triggers_witness :
  exists rest,
    Commands.actions
      (Commands.trace
         (fst (Commands.run (Commands.sample_env [])
                 (Commands.invoke Commands.Show (Sample.message "show"))
                 (Commands.at_time 1000))))
    = Commands.actions (Commands.trace (Commands.at_time 1000)) ++ rest /\
    List.filter Commands.is_db_call rest = [] /\
    Commands.user_highlights 1 2 ∈ rest /\
    List.filter Commands.is_send rest
    = [Commands.send (Sample.message "show")
         (Commands.Triggers "" (Commands.join_lines ["cat"%string; "dog"%string]) 2 15)].
Proof.
  apply (show_lists_the_triggers (Commands.sample_env []) (Sample.message "show") 1
           ["cat"%string; "dog"%string] (Commands.at_time 1000)); reflexivity.
Defined.
